(** * Relay chat client: transport session and call signalling

    A shallow embedding of the two hooks of the client,

    - [useChatSocket] (lib/ws): the relay connection, its reconnect
      back-off, the outbound [send], and the inbound frame dispatcher;
    - [useWebRTC] (hooks/use-webrtc): the call signalling engine;

    together with the wire types of lib/types.ts, and the properties of the
    specification that talk about them.

    Conventions of the embedding.

    - A React state cell ([useState]) is a field of a record; a [useRef]
      cell is a field of another record, since a handler reads a state cell
      through the closure of the render it was created in, and a ref cell
      directly.
    - A JavaScript value that may be [null] or [undefined] is an [option].
    - The browser objects the hooks drive (the socket, the peer connection,
      media streams, timers) are kept as plain records holding what the
      hooks can observe of them, and a log of the calls made on them. *)

From Stdlib Require Import List String ZArith Bool Arith Lia.
From Stdlib Require Import Sorted Permutation.
Import ListNotations.
Open Scope string_scope.
Open Scope list_scope.
Open Scope nat_scope.

Set Implicit Arguments.

(** ** JavaScript helpers *)

(** [a === b] on values of type [string | null | undefined]. *)
Definition opt_string_eqb (a b : option string) : bool :=
  match a, b with
  | Some x, Some y => String.eqb x y
  | None, None => true
  | _, _ => false
  end.

(** Truthiness of a [string | null]: [null] and the empty string are falsy. *)
Definition truthy (a : option string) : bool :=
  match a with
  | Some s => negb (String.eqb s "")
  | None => false
  end.

(** ** Wire types (lib/types.ts) *)

Module Wire.

(** [RTCSessionDescriptionInit] and [RTCIceCandidateInit] are opaque
    payloads for the client: it relays them and hands them to the media
    stack. *)
Definition Sdp := string.
Definition IceCandidate := string.

(** [ClientEvent]: the frames the client may send. *)
Inductive ClientEvent : Type :=
| ClientPing
| ClientSelectRoom (chat_id : string)
| ClientSelectAdmin (admin_id : string)
| ClientSelectMaster (master_id : string) (admin_id : option string)
| ClientSendText (text : string)
| ClientCallStart
| ClientCallAccept (call_id : string)
| ClientCallReject (call_id : string)
| ClientCallOffer (call_id : string) (sdp : Sdp)
| ClientCallAnswer (call_id : string) (sdp : Sdp)
| ClientCallIce (call_id : string) (candidate : IceCandidate)
| ClientCallEnd (call_id : string).

(** The [type] discriminator of a frame. *)
Definition type_of (e : ClientEvent) : string :=
  match e with
  | ClientPing => "ping"
  | ClientSelectRoom _ => "select_chatroom"
  | ClientSelectAdmin _ => "select_admin"
  | ClientSelectMaster _ _ => "select_master"
  | ClientSendText _ => "message"
  | ClientCallStart => "call.start"
  | ClientCallAccept _ => "call.accept"
  | ClientCallReject _ => "call.reject"
  | ClientCallOffer _ _ => "call.offer"
  | ClientCallAnswer _ _ => "call.answer"
  | ClientCallIce _ _ => "call.ice"
  | ClientCallEnd _ => "call.end"
  end.

Definition is_call_end (e : ClientEvent) : bool :=
  match e with ClientCallEnd _ => true | _ => false end.

Definition is_call_reject (e : ClientEvent) : bool :=
  match e with ClientCallReject _ => true | _ => false end.

(** A room of a conversation listing ([ServerJoinedAdminList.chatrooms]).
    [admin_id] is not in the declared type; the dispatcher reads it
    through a cast. *)
Record Chatroom : Type := {
  role : string;
  chat_id : string;
  user_id : string;
  admin_id : option string;
  is_user_active : bool;
  is_superadmin_active : bool;
  updated_time : string;
  room_type : option string
}.

Record HierarchyMaster : Type := {
  hm_id : string; hm_name : string; hm_userName : string;
  hm_phone : option string
}.

Record HierarchyAdmin : Type := {
  ha_id : string; ha_name : string; ha_userName : string;
  ha_phone : option string
}.

Inductive Hierarchy : Type :=
| SuperadminHierarchy (admins : list HierarchyAdmin)
| AdminHierarchy (masters : list HierarchyMaster).

(** An inbound [message] frame as the dispatcher reads it: every field it
    looks at, absent fields being [None].  [sm_is_file] is the value of
    ["is_file" in m && m.is_file]. *)
Record ServerMessage : Type := {
  sm_from : option string;
  sm_message : option string;
  sm_is_file : bool;
  sm_kind : option string;
  sm_file_url : option string;
  sm_file_name : option string;
  sm_file_type : option string;
  sm_audio_url : option string;
  sm_audio_name : option string;
  sm_audio_type : option string;
  sm_message_id : option string;
  sm_created_time : option string;
  sm_meta : option (option string * option string)
}.

(** The call signals, which the dispatcher stores as they are. *)
Inductive ServerCallEvent : Type :=
| ServerCallIncoming (call_id : string)
| ServerCallRinging (call_id : string)
| ServerCallAccepted (call_id : string)
| ServerCallOffer (call_id : string) (sdp : Sdp)
| ServerCallAnswer (call_id : string) (sdp : option Sdp)
| ServerCallIce (call_id : string) (candidate : option IceCandidate)
| ServerCallEnded (call_id : string)
| ServerCallError (error : string).

(** [ServerEvent], by discriminator.  [ServerOther] stands for every frame
    the dispatcher has no branch for ([pong], [error], unknown types). *)
Inductive ServerEvent : Type :=
| ServerJoinedUser (chat_id : option string)
| ServerJoinedAdminList (needs_selection : bool)
    (chatrooms : list Chatroom) (hierarchy : option Hierarchy)
| ServerSelected (chat_id : option string)
| ServerAdminSelected (admin_id : string) (chatrooms : list Chatroom)
    (masters : list HierarchyMaster)
| ServerMasterSelected (master_id : string) (chatrooms : list Chatroom)
| ServerMessageEvent (m : ServerMessage)
| ServerCall (c : ServerCallEvent)
| ServerOther.

(** [ConversationItem]. *)
Inductive ConversationItem : Type :=
| TextItem (from text created_at message_id : option string)
    (meta : option (option string * option string))
| FileItem (from file_url file_name file_type created_at
              message_id : option string)
| AudioItem (from audio_url audio_name audio_type created_at
               message_id : option string).

Definition message_id (i : ConversationItem) : option string :=
  match i with
  | TextItem _ _ _ id _ => id
  | FileItem _ _ _ _ _ id => id
  | AudioItem _ _ _ _ _ id => id
  end.

End Wire.

Import Wire.

(** ** The transport session and frame dispatcher ([useChatSocket]) *)

Module ChatSocket.

Inductive Status : Type := idle | connecting | open | closed.

(** [WebSocket.readyState]. *)
Inductive ReadyState : Type := CONNECTING | OPEN | CLOSING | CLOSED.

Definition ReadyState_eqb (a b : ReadyState) : bool :=
  match a, b with
  | CONNECTING, CONNECTING | OPEN, OPEN
  | CLOSING, CLOSING | CLOSED, CLOSED => true
  | _, _ => false
  end.

(** The socket as the hook sees it: its ready state and the texts handed
    to its [send], oldest first. *)
Record WebSocket : Type := {
  readyState : ReadyState;
  wire : list string
}.

(** [s.send(text)]. *)
Definition ws_send (s : WebSocket) (text : string) : WebSocket :=
  {| readyState := readyState s; wire := wire s ++ [text] |}.

(** The cells of the hook.  The first block are the [useState] cells, the
    second the [useRef] cells, the third the timers of the host:
    [intervals] holds the handles of the live [setInterval] timers and
    [timeouts] the delays of the [setTimeout(connect, delay)] calls made so
    far, oldest first. *)
Record Hook : Type := {
  status : Status;
  chatId : option string;
  needsSelection : bool;
  chatrooms : list Chatroom;
  hierarchy : option Hierarchy;
  selectedAdminId : option string;
  selectedMasterId : option string;
  masters : list HierarchyMaster;
  initialPersonalChatrooms : list Chatroom;
  messages : list ConversationItem;
  callEvent : option ServerCallEvent;

  wsRef : option WebSocket;
  retryRef : nat;
  keepAliveRef : option nat;

  intervals : list nat;
  nextTimer : nat;
  timeouts : list Z
}.

Definition initial : Hook :=
  {| status := idle; chatId := None; needsSelection := false;
     chatrooms := []; hierarchy := None; selectedAdminId := None;
     selectedMasterId := None; masters := [];
     initialPersonalChatrooms := []; messages := []; callEvent := None;
     wsRef := None; retryRef := 0; keepAliveRef := None;
     intervals := []; nextTimer := 1; timeouts := [] |}.

(** *** Setters *)

Definition setStatus (v : Status) (h : Hook) : Hook :=
  {| status := v; chatId := chatId h; needsSelection := needsSelection h;
     chatrooms := chatrooms h; hierarchy := hierarchy h;
     selectedAdminId := selectedAdminId h;
     selectedMasterId := selectedMasterId h; masters := masters h;
     initialPersonalChatrooms := initialPersonalChatrooms h;
     messages := messages h; callEvent := callEvent h; wsRef := wsRef h;
     retryRef := retryRef h; keepAliveRef := keepAliveRef h;
     intervals := intervals h; nextTimer := nextTimer h;
     timeouts := timeouts h |}.

Definition setChatId (v : option string) (h : Hook) : Hook :=
  {| status := status h; chatId := v; needsSelection := needsSelection h;
     chatrooms := chatrooms h; hierarchy := hierarchy h;
     selectedAdminId := selectedAdminId h;
     selectedMasterId := selectedMasterId h; masters := masters h;
     initialPersonalChatrooms := initialPersonalChatrooms h;
     messages := messages h; callEvent := callEvent h; wsRef := wsRef h;
     retryRef := retryRef h; keepAliveRef := keepAliveRef h;
     intervals := intervals h; nextTimer := nextTimer h;
     timeouts := timeouts h |}.

Definition setNeedsSelection (v : bool) (h : Hook) : Hook :=
  {| status := status h; chatId := chatId h; needsSelection := v;
     chatrooms := chatrooms h; hierarchy := hierarchy h;
     selectedAdminId := selectedAdminId h;
     selectedMasterId := selectedMasterId h; masters := masters h;
     initialPersonalChatrooms := initialPersonalChatrooms h;
     messages := messages h; callEvent := callEvent h; wsRef := wsRef h;
     retryRef := retryRef h; keepAliveRef := keepAliveRef h;
     intervals := intervals h; nextTimer := nextTimer h;
     timeouts := timeouts h |}.

Definition setChatrooms (v : list Chatroom) (h : Hook) : Hook :=
  {| status := status h; chatId := chatId h;
     needsSelection := needsSelection h;
     chatrooms := v; hierarchy := hierarchy h;
     selectedAdminId := selectedAdminId h;
     selectedMasterId := selectedMasterId h; masters := masters h;
     initialPersonalChatrooms := initialPersonalChatrooms h;
     messages := messages h; callEvent := callEvent h; wsRef := wsRef h;
     retryRef := retryRef h; keepAliveRef := keepAliveRef h;
     intervals := intervals h; nextTimer := nextTimer h;
     timeouts := timeouts h |}.

Definition setHierarchy (v : option Hierarchy) (h : Hook) : Hook :=
  {| status := status h; chatId := chatId h;
     needsSelection := needsSelection h;
     chatrooms := chatrooms h; hierarchy := v;
     selectedAdminId := selectedAdminId h;
     selectedMasterId := selectedMasterId h; masters := masters h;
     initialPersonalChatrooms := initialPersonalChatrooms h;
     messages := messages h; callEvent := callEvent h; wsRef := wsRef h;
     retryRef := retryRef h; keepAliveRef := keepAliveRef h;
     intervals := intervals h; nextTimer := nextTimer h;
     timeouts := timeouts h |}.

Definition setSelectedAdminId (v : option string) (h : Hook) : Hook :=
  {| status := status h; chatId := chatId h;
     needsSelection := needsSelection h;
     chatrooms := chatrooms h; hierarchy := hierarchy h;
     selectedAdminId := v;
     selectedMasterId := selectedMasterId h; masters := masters h;
     initialPersonalChatrooms := initialPersonalChatrooms h;
     messages := messages h; callEvent := callEvent h; wsRef := wsRef h;
     retryRef := retryRef h; keepAliveRef := keepAliveRef h;
     intervals := intervals h; nextTimer := nextTimer h;
     timeouts := timeouts h |}.

Definition setSelectedMasterId (v : option string) (h : Hook) : Hook :=
  {| status := status h; chatId := chatId h;
     needsSelection := needsSelection h;
     chatrooms := chatrooms h; hierarchy := hierarchy h;
     selectedAdminId := selectedAdminId h;
     selectedMasterId := v; masters := masters h;
     initialPersonalChatrooms := initialPersonalChatrooms h;
     messages := messages h; callEvent := callEvent h; wsRef := wsRef h;
     retryRef := retryRef h; keepAliveRef := keepAliveRef h;
     intervals := intervals h; nextTimer := nextTimer h;
     timeouts := timeouts h |}.

Definition setMasters (v : list HierarchyMaster) (h : Hook) : Hook :=
  {| status := status h; chatId := chatId h;
     needsSelection := needsSelection h;
     chatrooms := chatrooms h; hierarchy := hierarchy h;
     selectedAdminId := selectedAdminId h;
     selectedMasterId := selectedMasterId h; masters := v;
     initialPersonalChatrooms := initialPersonalChatrooms h;
     messages := messages h; callEvent := callEvent h; wsRef := wsRef h;
     retryRef := retryRef h; keepAliveRef := keepAliveRef h;
     intervals := intervals h; nextTimer := nextTimer h;
     timeouts := timeouts h |}.

Definition setInitialPersonalChatrooms (v : list Chatroom) (h : Hook)
  : Hook :=
  {| status := status h; chatId := chatId h;
     needsSelection := needsSelection h;
     chatrooms := chatrooms h; hierarchy := hierarchy h;
     selectedAdminId := selectedAdminId h;
     selectedMasterId := selectedMasterId h; masters := masters h;
     initialPersonalChatrooms := v;
     messages := messages h; callEvent := callEvent h; wsRef := wsRef h;
     retryRef := retryRef h; keepAliveRef := keepAliveRef h;
     intervals := intervals h; nextTimer := nextTimer h;
     timeouts := timeouts h |}.

(** [setMessages(f)], with an updater function. *)
Definition setMessages
  (f : list ConversationItem -> list ConversationItem) (h : Hook) : Hook :=
  {| status := status h; chatId := chatId h;
     needsSelection := needsSelection h;
     chatrooms := chatrooms h; hierarchy := hierarchy h;
     selectedAdminId := selectedAdminId h;
     selectedMasterId := selectedMasterId h; masters := masters h;
     initialPersonalChatrooms := initialPersonalChatrooms h;
     messages := f (messages h); callEvent := callEvent h;
     wsRef := wsRef h;
     retryRef := retryRef h; keepAliveRef := keepAliveRef h;
     intervals := intervals h; nextTimer := nextTimer h;
     timeouts := timeouts h |}.

Definition setCallEvent (v : option ServerCallEvent) (h : Hook) : Hook :=
  {| status := status h; chatId := chatId h;
     needsSelection := needsSelection h;
     chatrooms := chatrooms h; hierarchy := hierarchy h;
     selectedAdminId := selectedAdminId h;
     selectedMasterId := selectedMasterId h; masters := masters h;
     initialPersonalChatrooms := initialPersonalChatrooms h;
     messages := messages h; callEvent := v; wsRef := wsRef h;
     retryRef := retryRef h; keepAliveRef := keepAliveRef h;
     intervals := intervals h; nextTimer := nextTimer h;
     timeouts := timeouts h |}.

Definition set_wsRef (v : option WebSocket) (h : Hook) : Hook :=
  {| status := status h; chatId := chatId h;
     needsSelection := needsSelection h;
     chatrooms := chatrooms h; hierarchy := hierarchy h;
     selectedAdminId := selectedAdminId h;
     selectedMasterId := selectedMasterId h; masters := masters h;
     initialPersonalChatrooms := initialPersonalChatrooms h;
     messages := messages h; callEvent := callEvent h; wsRef := v;
     retryRef := retryRef h; keepAliveRef := keepAliveRef h;
     intervals := intervals h; nextTimer := nextTimer h;
     timeouts := timeouts h |}.

Definition set_retryRef (v : nat) (h : Hook) : Hook :=
  {| status := status h; chatId := chatId h;
     needsSelection := needsSelection h;
     chatrooms := chatrooms h; hierarchy := hierarchy h;
     selectedAdminId := selectedAdminId h;
     selectedMasterId := selectedMasterId h; masters := masters h;
     initialPersonalChatrooms := initialPersonalChatrooms h;
     messages := messages h; callEvent := callEvent h; wsRef := wsRef h;
     retryRef := v; keepAliveRef := keepAliveRef h;
     intervals := intervals h; nextTimer := nextTimer h;
     timeouts := timeouts h |}.

(** [setInterval(f, ms)]: a fresh handle, which becomes live. *)
Definition setInterval (h : Hook) : Hook * nat :=
  ({| status := status h; chatId := chatId h;
      needsSelection := needsSelection h;
      chatrooms := chatrooms h; hierarchy := hierarchy h;
      selectedAdminId := selectedAdminId h;
      selectedMasterId := selectedMasterId h; masters := masters h;
      initialPersonalChatrooms := initialPersonalChatrooms h;
      messages := messages h; callEvent := callEvent h; wsRef := wsRef h;
      retryRef := retryRef h; keepAliveRef := keepAliveRef h;
      intervals := nextTimer h :: intervals h;
      nextTimer := S (nextTimer h);
      timeouts := timeouts h |}, nextTimer h).

Definition set_keepAliveRef (v : option nat) (h : Hook) : Hook :=
  {| status := status h; chatId := chatId h;
     needsSelection := needsSelection h;
     chatrooms := chatrooms h; hierarchy := hierarchy h;
     selectedAdminId := selectedAdminId h;
     selectedMasterId := selectedMasterId h; masters := masters h;
     initialPersonalChatrooms := initialPersonalChatrooms h;
     messages := messages h; callEvent := callEvent h; wsRef := wsRef h;
     retryRef := retryRef h; keepAliveRef := v;
     intervals := intervals h; nextTimer := nextTimer h;
     timeouts := timeouts h |}.

(** [clearInterval(k)]. *)
Definition clearInterval (k : nat) (h : Hook) : Hook :=
  {| status := status h; chatId := chatId h;
     needsSelection := needsSelection h;
     chatrooms := chatrooms h; hierarchy := hierarchy h;
     selectedAdminId := selectedAdminId h;
     selectedMasterId := selectedMasterId h; masters := masters h;
     initialPersonalChatrooms := initialPersonalChatrooms h;
     messages := messages h; callEvent := callEvent h; wsRef := wsRef h;
     retryRef := retryRef h; keepAliveRef := keepAliveRef h;
     intervals := filter (fun i => negb (Nat.eqb i k)) (intervals h);
     nextTimer := nextTimer h;
     timeouts := timeouts h |}.

(** [setTimeout(connect, delay)]. *)
Definition setTimeout_connect (delay : Z) (h : Hook) : Hook :=
  {| status := status h; chatId := chatId h;
     needsSelection := needsSelection h;
     chatrooms := chatrooms h; hierarchy := hierarchy h;
     selectedAdminId := selectedAdminId h;
     selectedMasterId := selectedMasterId h; masters := masters h;
     initialPersonalChatrooms := initialPersonalChatrooms h;
     messages := messages h; callEvent := callEvent h; wsRef := wsRef h;
     retryRef := retryRef h; keepAliveRef := keepAliveRef h;
     intervals := intervals h; nextTimer := nextTimer h;
     timeouts := timeouts h ++ [delay] |}.

(** *** [send] *)

(** [send(payload)]: written to the socket when there is one and it is
    open; otherwise a console warning and nothing else.  [stringify] is
    [JSON.stringify]. *)
Definition send (stringify : ClientEvent -> string) (payload : ClientEvent)
  (h : Hook) : Hook :=
  match wsRef h with
  | Some s =>
      if ReadyState_eqb (readyState s) OPEN
      then set_wsRef (Some (ws_send s (stringify payload))) h
      else h
  | None => h
  end.

(** Whether the socket is in the open state. *)
Definition socket_open (h : Hook) : bool :=
  match wsRef h with
  | Some s => ReadyState_eqb (readyState s) OPEN
  | None => false
  end.

(** What has been written to the current socket. *)
Definition written (h : Hook) : list string :=
  match wsRef h with
  | Some s => wire s
  | None => []
  end.

(** *** [connect] and the socket callbacks *)

(** [connect()]: nothing without a token (the URL is empty exactly when the
    token is); otherwise a new socket, still connecting. *)
Definition connect (token : string) (h : Hook) : Hook :=
  if String.eqb token "" then h
  else set_wsRef (Some {| readyState := CONNECTING; wire := [] |})
         (setStatus connecting h).

(** The socket's own transition when it opens, before [onopen] runs. *)
Definition socket_becomes (r : ReadyState) (h : Hook) : Hook :=
  match wsRef h with
  | Some s => set_wsRef (Some {| readyState := r; wire := wire s |}) h
  | None => h
  end.

(** [ws.onopen]. *)
Definition onopen (h : Hook) : Hook :=
  let h := setStatus open h in
  let h := set_retryRef 0 h in
  let (h, k) := setInterval h in
  set_keepAliveRef (Some k) h.

(** [Math.min(1000 * 2 ** retry, 15000)]. *)
Definition backoff (retry : nat) : Z :=
  Z.min (1000 * 2 ^ Z.of_nat retry)%Z 15000%Z.

(** [ws.onclose].  The retry counter starts at 0 and is only incremented
    here or reset by [onopen], so it is a natural number. *)
Definition onclose (h : Hook) : Hook :=
  let h := setStatus closed h in
  let h := match keepAliveRef h with
           | Some k => clearInterval k h
           | None => h
           end in
  if (retryRef h <? 5)%nat then
    let delay := backoff (retryRef h) in
    let h := set_retryRef (retryRef h + 1)%nat h in
    setTimeout_connect delay h
  else h.

(** *** The inbound dispatcher ([ws.onmessage]) *)

(** [new Date(t).getTime()] is a parameter of the dispatcher ([getTime]):
    [Some] of the time of a text that parses as a date, [None] for the [NaN]
    of one that does not. *)

(** Whether the timestamp of a room parses. *)
Definition parses (getTime : string -> option Z) (c : Chatroom) : bool :=
  match getTime (updated_time c) with Some _ => true | None => false end.

(** The comparator of the listings,
    [(a, b) => new Date(b.updated_time).getTime()
               - new Date(a.updated_time).getTime()];
    [None] is [NaN]. *)
Definition by_recency (getTime : string -> option Z) (a b : Chatroom)
  : option Z :=
  match getTime (updated_time b), getTime (updated_time a) with
  | Some tb, Some ta => Some (tb - ta)%Z
  | _, _ => None
  end.

(** Insertion of a room into a list sorted by recency: after the rooms the
    comparator puts before it, and before the first room it does not. *)
Fixpoint insert_by_recency (getTime : string -> option Z) (c : Chatroom)
  (l : list Chatroom) : list Chatroom :=
  match l with
  | [] => [c]
  | d :: l' =>
      match by_recency getTime c d with
      | Some v =>
          if (0 <? v)%Z then d :: insert_by_recency getTime c l'
          else c :: d :: l'
      | None => c :: d :: l'
      end
  end.

(** [[...rooms].sort(comparator)].  When every timestamp parses the
    comparator is a consistent one and [Array.prototype.sort] gives the
    stable order by it: most recent first, rooms of equal time in their
    order of arrival.  When a timestamp does not parse the comparator
    returns [NaN], it is not a consistent comparator, and the order is the
    one the runtime happens to leave: the parameter [runtimeSort]. *)
Definition sort_by_recency (getTime : string -> option Z)
  (runtimeSort : list Chatroom -> list Chatroom) (rooms : list Chatroom)
  : list Chatroom :=
  if forallb (parses getTime) rooms
  then fold_right (insert_by_recency getTime) [] rooms
  else runtimeSort rooms.

(** [c.room_type === "staff_bot"]. *)
Definition is_staff_bot (c : Chatroom) : bool :=
  opt_string_eqb (room_type c) (Some "staff_bot").

(** [(c as any).admin_id || (c as any).user_id]. *)
Definition adminIdFromChat (c : Chatroom) : string :=
  if truthy (admin_id c)
  then match admin_id c with Some a => a | None => user_id c end
  else user_id c.

Definition belongs_to (admin : string) (c : Chatroom) : bool :=
  String.eqb (adminIdFromChat c) admin.

(** The updater of the [message] branch. *)
Definition add_message (m : ServerMessage) (prev : list ConversationItem)
  : list ConversationItem :=
  let messageId := sm_message_id m in
  let exists_ :=
    existsb (fun msg => opt_string_eqb (message_id msg) messageId) prev in
  if exists_ then prev
  else if sm_is_file m then
    if opt_string_eqb (sm_kind m) (Some "file") then
      prev ++ [FileItem (sm_from m) (sm_file_url m) (sm_file_name m)
                 (sm_file_type m) (sm_created_time m) (sm_message_id m)]
    else if opt_string_eqb (sm_kind m) (Some "audio") then
      prev ++ [AudioItem (sm_from m) (sm_audio_url m) (sm_audio_name m)
                 (sm_audio_type m) (sm_created_time m) (sm_message_id m)]
    else prev
  else
    prev ++ [TextItem (sm_from m) (sm_message m) (sm_created_time m)
               (sm_message_id m) (sm_meta m)].

(** The [admin_selected] branch.  [personal] is the value of
    [initialPersonalChatrooms] in the closure of the handler. *)
Definition on_admin_selected (getTime : string -> option Z)
  (runtimeSort : list Chatroom -> list Chatroom)
  (personal : list Chatroom) (admin : string) (rooms : list Chatroom)
  (ms : list HierarchyMaster) (h : Hook) : Hook :=
  let h := setSelectedAdminId (Some admin) h in
  let h := setMasters ms h in
  let sortedChatrooms := sort_by_recency getTime runtimeSort rooms in
  let personalChats := filter is_staff_bot sortedChatrooms in
  let h :=
    if Nat.eqb (List.length personalChats) 0 then
      let adminPersonalChats := filter (belongs_to admin) personal in
      setChatrooms (sortedChatrooms ++ adminPersonalChats) h
    else setChatrooms sortedChatrooms h in
  setNeedsSelection true h.

(** [ws.onmessage], after a successful parse.  The handler is created by
    [connect], whose dependencies are the token and the URL only, so the
    [initialPersonalChatrooms] it reads is the one of the render [connect]
    was created in: the argument [personal]. *)
Definition onmessage (getTime : string -> option Z)
  (runtimeSort : list Chatroom -> list Chatroom) (personal : list Chatroom)
  (data : ServerEvent) (h : Hook) : Hook :=
  match data with
  | ServerJoinedUser id =>
      setNeedsSelection false (setChatId id h)
  | ServerJoinedAdminList needs rooms hier =>
      if needs then
        let h := setNeedsSelection true h in
        let sortedChatrooms := sort_by_recency getTime runtimeSort rooms in
        let h := setChatrooms sortedChatrooms h in
        let personalChats := filter is_staff_bot sortedChatrooms in
        let h := setInitialPersonalChatrooms personalChats h in
        match hier with
        | Some hi => setHierarchy (Some hi) h
        | None => h
        end
      else h
  | ServerSelected id =>
      setNeedsSelection false (setChatId id h)
  | ServerAdminSelected admin rooms ms =>
      on_admin_selected getTime runtimeSort personal admin rooms ms h
  | ServerMasterSelected master rooms =>
      let h := setSelectedMasterId (Some master) h in
      let h := setChatrooms (sort_by_recency getTime runtimeSort rooms) h in
      setNeedsSelection true h
  | ServerMessageEvent m => setMessages (add_message m) h
  | ServerCall c => setCallEvent (Some c) h
  | ServerOther => h
  end.

(** *** Intents *)

Definition sendText (stringify : ClientEvent -> string) (text : string)
  (h : Hook) : Hook :=
  send stringify (ClientSendText text) h.

Definition selectRoom (stringify : ClientEvent -> string) (id : string)
  (h : Hook) : Hook :=
  send stringify (ClientSelectRoom id) h.

Definition selectAdmin (stringify : ClientEvent -> string) (adminId : string)
  (h : Hook) : Hook :=
  let h := send stringify (ClientSelectAdmin adminId) h in
  let h := setSelectedAdminId (Some adminId) h in
  let h := setSelectedMasterId None h in
  setMasters [] h.

Definition selectMaster (stringify : ClientEvent -> string)
  (masterId : string) (adminId : option string) (h : Hook) : Hook :=
  let h := send stringify (ClientSelectMaster masterId adminId) h in
  setSelectedMasterId (Some masterId) h.

Definition resetLiveMessages (h : Hook) : Hook := setMessages (fun _ => []) h.

Definition clearCallEvent (h : Hook) : Hook := setCallEvent None h.

Definition resetHierarchy (h : Hook) : Hook :=
  setMasters [] (setSelectedMasterId None (setSelectedAdminId None h)).

(** The keep-alive tick: [send({ type: "ping" })]. *)
Definition keepalive_tick (stringify : ClientEvent -> string) (h : Hook)
  : Hook :=
  send stringify ClientPing h.

(** *** Runs of the hook *)

(** Everything that can happen to the hook. *)
Inductive Action : Type :=
| Connect (token : string)
| SocketBecomes (r : ReadyState)
| OnOpen
| OnClose
| OnMessage (personal : list Chatroom) (data : ServerEvent)
| Send (payload : ClientEvent)
| KeepAliveTick
| SelectAdmin (adminId : string)
| SelectMaster (masterId : string) (adminId : option string)
| ResetLiveMessages
| ClearCallEvent
| ResetHierarchy.

Definition act (stringify : ClientEvent -> string)
  (getTime : string -> option Z)
  (runtimeSort : list Chatroom -> list Chatroom)
  (a : Action) (h : Hook) : Hook :=
  match a with
  | Connect token => connect token h
  | SocketBecomes r => socket_becomes r h
  | OnOpen => onopen h
  | OnClose => onclose h
  | OnMessage personal data => onmessage getTime runtimeSort personal data h
  | Send payload => send stringify payload h
  | KeepAliveTick => keepalive_tick stringify h
  | SelectAdmin a => selectAdmin stringify a h
  | SelectMaster m a => selectMaster stringify m a h
  | ResetLiveMessages => resetLiveMessages h
  | ClearCallEvent => clearCallEvent h
  | ResetHierarchy => resetHierarchy h
  end.

Definition run (stringify : ClientEvent -> string)
  (getTime : string -> option Z)
  (runtimeSort : list Chatroom -> list Chatroom)
  (l : list Action) (h : Hook) : Hook :=
  fold_left (fun h a => act stringify getTime runtimeSort a h) l h.

(** *** Observations and examples *)

(** A hook whose socket is open and has carried nothing yet. *)
Definition open_hook : Hook :=
  onopen (socket_becomes OPEN (connect "token" initial)).

(** A hook that has been closed three times in a row, and one closed five
    times. *)
Definition closed_3 : Hook := Nat.iter 3 onclose initial.
Definition closed_5 : Hook := Nat.iter 5 onclose initial.

(** The identity tokens of a collection, in order. *)
Definition ids (l : list ConversationItem) : list (option string) :=
  map message_id l.

(** How many entries of a collection carry a given identity token. *)
Definition entries_with_id (id : option string) (l : list ConversationItem)
  : nat :=
  List.length (filter (fun i => opt_string_eqb (message_id i) id) l).

(** The frames the [message] branch makes an item of: text frames, and file
    frames of kind [file] or [audio]. *)
Definition recognised (m : ServerMessage) : bool :=
  negb (sm_is_file m)
  || opt_string_eqb (sm_kind m) (Some "file")
  || opt_string_eqb (sm_kind m) (Some "audio").

(** The text frame ["hello"] with identity token ["m1"]. *)
Definition m1 : ServerMessage :=
  {| sm_from := Some "user"; sm_message := Some "hello"; sm_is_file := false;
     sm_kind := None; sm_file_url := None; sm_file_name := None;
     sm_file_type := None; sm_audio_url := None; sm_audio_name := None;
     sm_audio_type := None; sm_message_id := Some "m1";
     sm_created_time := Some "2024-01-01T00:00:00Z"; sm_meta := None |}.

(** [a] does not come after [b] in a listing by recency: both timestamps
    parse, and the one of [a] is not the earlier. *)
Definition not_older (getTime : string -> option Z) (a b : Chatroom) : Prop :=
  match getTime (updated_time a), getTime (updated_time b) with
  | Some ta, Some tb => (tb <= ta)%Z
  | _, _ => False
  end.

(** Timestamps for the examples: the text is the number of a day; any
    other text does not parse. *)
Definition day (t : string) : option Z :=
  if String.eqb t "1" then Some 1%Z else if String.eqb t "2" then Some 2%Z
  else if String.eqb t "3" then Some 3%Z else None.

(** A runtime for the examples, whose sort leaves a listing it cannot order
    as it was received. *)
Definition as_received (rooms : list Chatroom) : list Chatroom := rooms.

Definition room (id owner : string) (kind : option string) (t : string)
  : Chatroom :=
  {| role := "admin"; chat_id := id; user_id := owner; admin_id := None;
     is_user_active := false; is_superadmin_active := false;
     updated_time := t; room_type := kind |}.

(** A personal room of admin ["A1"] seen at connection time, a personal
    room in the list scoped to ["A1"], and an ordinary room. *)
Definition seen_personal : Chatroom := room "p-A1" "A1" (Some "staff_bot") "1".
Definition scoped_personal : Chatroom :=
  room "p-M7" "M7" (Some "staff_bot") "2".
Definition scoped_normal : Chatroom := room "r1" "U1" None "3".

(** The hook of a superadmin after the [joined] frame that listed
    [seen_personal]. *)
Definition joined_hook : Hook :=
  onmessage day as_received []
    (ServerJoinedAdminList true [seen_personal] None) initial.

End ChatSocket.

(** ** The call signalling engine ([useWebRTC]) *)

Module WebRTC.

Inductive CallState : Type := idle | ringing | connecting | connected | ended.

Definition CallState_eqb (a b : CallState) : bool :=
  match a, b with
  | idle, idle | ringing, ringing | connecting, connecting
  | connected, connected | ended, ended => true
  | _, _ => false
  end.

(** *** The browser objects *)

(** A media stream: an identity and, for each of its audio tracks, its
    [enabled] flag. *)
Record MediaStream : Type := {
  stream_id : string;
  tracks_enabled : list bool
}.

(** An [<audio>] element; [srcObject] refers to a stream by identity. *)
Record AudioElement : Type := {
  srcObject : option string;
  muted : bool
}.

(** A peer connection: the streams of the tracks added to it (one entry a
    track), its two descriptions, and the candidates [addIceCandidate] has
    accepted, oldest first. *)
Record PeerConnection : Type := {
  senders : list string;
  localDescription : option Sdp;
  remoteDescription : option Sdp;
  iceCandidates : list IceCandidate
}.

Definition new_RTCPeerConnection : PeerConnection :=
  {| senders := []; localDescription := None; remoteDescription := None;
     iceCandidates := [] |}.

Definition pc_addTracks (s : MediaStream) (pc : PeerConnection)
  : PeerConnection :=
  {| senders := senders pc ++ map (fun _ => stream_id s) (tracks_enabled s);
     localDescription := localDescription pc;
     remoteDescription := remoteDescription pc;
     iceCandidates := iceCandidates pc |}.

Definition pc_setLocalDescription (d : Sdp) (pc : PeerConnection)
  : PeerConnection :=
  {| senders := senders pc; localDescription := Some d;
     remoteDescription := remoteDescription pc;
     iceCandidates := iceCandidates pc |}.

Definition pc_setRemoteDescription (d : Sdp) (pc : PeerConnection)
  : PeerConnection :=
  {| senders := senders pc; localDescription := localDescription pc;
     remoteDescription := Some d;
     iceCandidates := iceCandidates pc |}.

Definition pc_addIceCandidate (c : IceCandidate) (pc : PeerConnection)
  : PeerConnection :=
  {| senders := senders pc; localDescription := localDescription pc;
     remoteDescription := remoteDescription pc;
     iceCandidates := iceCandidates pc ++ [c] |}.

(** [pc.connectionState], as [onconnectionstatechange] reads it. *)
Inductive ConnectionState : Type :=
| cs_new | cs_connecting | cs_connected | cs_disconnected | cs_failed
| cs_closed.

(** The answers of the media stack to the asynchronous calls of the
    engine.  [getUserMedia], [createOffer] and [createAnswer] are [None]
    when the promise rejects; the three predicates say for which argument
    the promise resolves.  In this module a handler is taken as one step, as
    it runs when every promise it waits for settles before anything else
    happens to the hook; [WebRTCAsync] has the handlers between their
    [await]s. *)
Record Env : Type := {
  getUserMedia : option MediaStream;
  createOffer : option Sdp;
  createAnswer : option Sdp;
  setLocalDescription : Sdp -> bool;
  setRemoteDescription : Sdp -> bool;
  addIceCandidate : IceCandidate -> bool
}.

(** The calls the engine makes on the media stack, for the record. *)
Inductive MediaCall : Type :=
| GetUserMedia
| LocalTracksStopped (s : MediaStream)
| RemoteTracksStopped (s : MediaStream)
| PeerConnectionCreated
| PeerConnectionClosed (pc : PeerConnection).

Definition is_local_teardown (c : MediaCall) : bool :=
  match c with LocalTracksStopped _ => true | _ => false end.

Definition is_acquisition (c : MediaCall) : bool :=
  match c with GetUserMedia => true | _ => false end.

(** *** The cells of the hook *)

(** The [useState] cells. *)
Record State : Type := {
  callState : CallState;
  isInitiator : bool;
  isRemoteAudioEnabled : bool;
  callId : option string;
  showIncomingCall : bool
}.

(** The [useRef] cells.  [endCallRef] always holds the [endCall] of the
    last render and is not a field. *)
Record Refs : Type := {
  peerConnectionRef : option PeerConnection;
  localStreamRef : option MediaStream;
  remoteStreamRef : option MediaStream;
  localAudioRef : option AudioElement;
  remoteAudioRef : option AudioElement;
  pendingIceRef : list IceCandidate;
  callIdRef : option string;
  callStateRef : CallState;
  isEndingCallRef : bool
}.

(** The hook and what it has done: [sent] are the frames handed to [send],
    oldest first; [alerts] the alerts shown; [media] the calls made on the
    media stack. *)
Record World : Type := {
  st : State;
  refs : Refs;
  sent : list ClientEvent;
  alerts : list string;
  media : list MediaCall
}.

Definition initial_State : State :=
  {| callState := idle; isInitiator := false; isRemoteAudioEnabled := true;
     callId := None; showIncomingCall := false |}.

Definition initial_Refs : Refs :=
  {| peerConnectionRef := None; localStreamRef := None;
     remoteStreamRef := None; localAudioRef := None; remoteAudioRef := None;
     pendingIceRef := []; callIdRef := None; callStateRef := idle;
     isEndingCallRef := false |}.

Definition initial : World :=
  {| st := initial_State; refs := initial_Refs; sent := []; alerts := [];
     media := [] |}.

(** *** Setters *)

Definition with_st (f : State -> State) (w : World) : World :=
  {| st := f (st w); refs := refs w; sent := sent w; alerts := alerts w;
     media := media w |}.

Definition with_refs (f : Refs -> Refs) (w : World) : World :=
  {| st := st w; refs := f (refs w); sent := sent w; alerts := alerts w;
     media := media w |}.

(** [send(payload)]. *)
Definition send (payload : ClientEvent) (w : World) : World :=
  {| st := st w; refs := refs w; sent := sent w ++ [payload];
     alerts := alerts w; media := media w |}.

Definition alert (msg : string) (w : World) : World :=
  {| st := st w; refs := refs w; sent := sent w;
     alerts := alerts w ++ [msg]; media := media w |}.

Definition call_media (c : MediaCall) (w : World) : World :=
  {| st := st w; refs := refs w; sent := sent w; alerts := alerts w;
     media := media w ++ [c] |}.

Definition setCallState (v : CallState) : World -> World :=
  with_st (fun s =>
    {| callState := v; isInitiator := isInitiator s;
       isRemoteAudioEnabled := isRemoteAudioEnabled s; callId := callId s;
       showIncomingCall := showIncomingCall s |}).

Definition setIsInitiator (v : bool) : World -> World :=
  with_st (fun s =>
    {| callState := callState s; isInitiator := v;
       isRemoteAudioEnabled := isRemoteAudioEnabled s; callId := callId s;
       showIncomingCall := showIncomingCall s |}).

Definition setIsRemoteAudioEnabled (v : bool) : World -> World :=
  with_st (fun s =>
    {| callState := callState s; isInitiator := isInitiator s;
       isRemoteAudioEnabled := v; callId := callId s;
       showIncomingCall := showIncomingCall s |}).

Definition setCallId (v : option string) : World -> World :=
  with_st (fun s =>
    {| callState := callState s; isInitiator := isInitiator s;
       isRemoteAudioEnabled := isRemoteAudioEnabled s; callId := v;
       showIncomingCall := showIncomingCall s |}).

Definition setShowIncomingCall (v : bool) : World -> World :=
  with_st (fun s =>
    {| callState := callState s; isInitiator := isInitiator s;
       isRemoteAudioEnabled := isRemoteAudioEnabled s; callId := callId s;
       showIncomingCall := v |}).

Definition set_peerConnectionRef (v : option PeerConnection)
  : World -> World :=
  with_refs (fun r =>
    {| peerConnectionRef := v; localStreamRef := localStreamRef r;
       remoteStreamRef := remoteStreamRef r;
       localAudioRef := localAudioRef r; remoteAudioRef := remoteAudioRef r;
       pendingIceRef := pendingIceRef r; callIdRef := callIdRef r;
       callStateRef := callStateRef r;
       isEndingCallRef := isEndingCallRef r |}).

Definition set_localStreamRef (v : option MediaStream) : World -> World :=
  with_refs (fun r =>
    {| peerConnectionRef := peerConnectionRef r; localStreamRef := v;
       remoteStreamRef := remoteStreamRef r;
       localAudioRef := localAudioRef r; remoteAudioRef := remoteAudioRef r;
       pendingIceRef := pendingIceRef r; callIdRef := callIdRef r;
       callStateRef := callStateRef r;
       isEndingCallRef := isEndingCallRef r |}).

Definition set_remoteStreamRef (v : option MediaStream) : World -> World :=
  with_refs (fun r =>
    {| peerConnectionRef := peerConnectionRef r;
       localStreamRef := localStreamRef r; remoteStreamRef := v;
       localAudioRef := localAudioRef r; remoteAudioRef := remoteAudioRef r;
       pendingIceRef := pendingIceRef r; callIdRef := callIdRef r;
       callStateRef := callStateRef r;
       isEndingCallRef := isEndingCallRef r |}).

Definition set_localAudioRef (v : option AudioElement) : World -> World :=
  with_refs (fun r =>
    {| peerConnectionRef := peerConnectionRef r;
       localStreamRef := localStreamRef r;
       remoteStreamRef := remoteStreamRef r;
       localAudioRef := v; remoteAudioRef := remoteAudioRef r;
       pendingIceRef := pendingIceRef r; callIdRef := callIdRef r;
       callStateRef := callStateRef r;
       isEndingCallRef := isEndingCallRef r |}).

Definition set_remoteAudioRef (v : option AudioElement) : World -> World :=
  with_refs (fun r =>
    {| peerConnectionRef := peerConnectionRef r;
       localStreamRef := localStreamRef r;
       remoteStreamRef := remoteStreamRef r;
       localAudioRef := localAudioRef r; remoteAudioRef := v;
       pendingIceRef := pendingIceRef r; callIdRef := callIdRef r;
       callStateRef := callStateRef r;
       isEndingCallRef := isEndingCallRef r |}).

Definition set_pendingIceRef (v : list IceCandidate) : World -> World :=
  with_refs (fun r =>
    {| peerConnectionRef := peerConnectionRef r;
       localStreamRef := localStreamRef r;
       remoteStreamRef := remoteStreamRef r;
       localAudioRef := localAudioRef r; remoteAudioRef := remoteAudioRef r;
       pendingIceRef := v; callIdRef := callIdRef r;
       callStateRef := callStateRef r;
       isEndingCallRef := isEndingCallRef r |}).

Definition set_callRefs (id : option string) (cs : CallState)
  : World -> World :=
  with_refs (fun r =>
    {| peerConnectionRef := peerConnectionRef r;
       localStreamRef := localStreamRef r;
       remoteStreamRef := remoteStreamRef r;
       localAudioRef := localAudioRef r; remoteAudioRef := remoteAudioRef r;
       pendingIceRef := pendingIceRef r; callIdRef := id;
       callStateRef := cs;
       isEndingCallRef := isEndingCallRef r |}).

Definition set_isEndingCallRef (v : bool) : World -> World :=
  with_refs (fun r =>
    {| peerConnectionRef := peerConnectionRef r;
       localStreamRef := localStreamRef r;
       remoteStreamRef := remoteStreamRef r;
       localAudioRef := localAudioRef r; remoteAudioRef := remoteAudioRef r;
       pendingIceRef := pendingIceRef r; callIdRef := callIdRef r;
       callStateRef := callStateRef r;
       isEndingCallRef := v |}).

(** [el.srcObject = v], when the element is mounted. *)
Definition set_srcObject (v : option string) (el : option AudioElement)
  : option AudioElement :=
  match el with
  | Some a => Some {| srcObject := v; muted := muted a |}
  | None => None
  end.

Definition set_muted (v : bool) (el : option AudioElement)
  : option AudioElement :=
  match el with
  | Some a => Some {| srcObject := srcObject a; muted := v |}
  | None => None
  end.

(** *** The handlers

    A handler built by [useCallback] reads the state cells through the
    closure of its render: the argument [r].  Its writes go through the
    setters and land in the world; they do not change [r].  Between two
    renders every call of a handler sees the same [r]. *)

(** [endCall()]. *)
Definition endCall (r : State) (w : World) : World :=
  if isEndingCallRef (refs w) then w
  else
    let w := set_isEndingCallRef true w in
    let w := match callId r with
             | Some c =>
                 if String.eqb c "" then w else send (ClientCallEnd c) w
             | None => w
             end in
    let w := match localStreamRef (refs w) with
             | Some s =>
                 set_localStreamRef None (call_media (LocalTracksStopped s) w)
             | None => w
             end in
    let w := match remoteStreamRef (refs w) with
             | Some s =>
                 set_remoteStreamRef None
                   (call_media (RemoteTracksStopped s) w)
             | None => w
             end in
    let w := match peerConnectionRef (refs w) with
             | Some pc =>
                 set_peerConnectionRef None
                   (call_media (PeerConnectionClosed pc) w)
             | None => w
             end in
    let w := set_localAudioRef (set_srcObject None (localAudioRef (refs w)))
               w in
    let w := set_remoteAudioRef
               (set_srcObject None (remoteAudioRef (refs w))) w in
    let w := set_pendingIceRef [] w in
    let w := setCallState idle w in
    let w := setIsInitiator false w in
    let w := setCallId None w in
    let w := setShowIncomingCall false w in
    set_isEndingCallRef false w.

(** [startCall()].  [chatId] is the hook's option.  [send] writes to the
    socket or warns on the console; it does not throw, so the [catch]
    branch is not taken. *)
Definition startCall (chatId : option string) (r : State) (w : World)
  : World :=
  if negb (truthy chatId)
  then alert "Cannot start call: No chatroom selected" w
  else if negb (CallState_eqb (callState r) idle) then w
  else
    let w := setIsInitiator true w in
    let w := setCallState ringing w in
    send ClientCallStart w.

(** [handleCallIncoming(incomingCallId)]. *)
Definition handleCallIncoming (incomingCallId : string) (r : State)
  (w : World) : World :=
  if negb (CallState_eqb (callState r) idle)
     && negb (opt_string_eqb (callId r) (Some incomingCallId))
  then w
  else
    let w := setCallId (Some incomingCallId) w in
    let w := setShowIncomingCall true w in
    let w := setCallState ringing w in
    setIsInitiator false w.

(** [acceptCall()]. *)
Definition acceptCall (r : State) (w : World) : World :=
  match callId r with
  | Some c =>
      if String.eqb c "" then w
      else
        let w := setShowIncomingCall false w in
        let w := setCallState connecting w in
        send (ClientCallAccept c) w
  | None => w
  end.

(** The part [handleCallAccepted] and [handleCallOffer] share: acquire the
    microphone, attach it to the local element, create the peer connection
    and add the tracks.  [None] when [getUserMedia] rejects. *)
Definition open_media (env : Env) (w : World) : option World :=
  let w := call_media GetUserMedia w in
  match getUserMedia env with
  | None => None
  | Some stream =>
      let w := set_localStreamRef (Some stream) w in
      let w := set_localAudioRef
                 (set_srcObject (Some (stream_id stream))
                    (localAudioRef (refs w))) w in
      let w := call_media PeerConnectionCreated w in
      let w := set_peerConnectionRef
                 (Some (pc_addTracks stream new_RTCPeerConnection)) w in
      Some w
  end.

(** The world a handler is in when one of its [await]s has thrown: what
    was done before stays done, and the [catch] calls [endCall]. *)
Definition catch_endCall (r : State) (w : World) : World := endCall r w.

(** [handleCallAccepted()]. *)
Definition handleCallAccepted (env : Env) (r : State) (w : World) : World :=
  match callId r with
  | None => w
  | Some c =>
      if String.eqb c "" then w
      else
        match open_media env w with
        | None => catch_endCall r (call_media GetUserMedia w)
        | Some w1 =>
            match peerConnectionRef (refs w1), createOffer env with
            | Some pc, Some offer =>
                if setLocalDescription env offer then
                  let w2 := set_peerConnectionRef
                              (Some (pc_setLocalDescription offer pc)) w1 in
                  let w2 := send (ClientCallOffer c offer) w2 in
                  setCallState connecting w2
                else catch_endCall r w1
            | _, _ => catch_endCall r w1
            end
        end
  end.

(** The flush loop of [handleCallOffer]: candidates are shifted off the
    front of the buffer one by one and handed to [addIceCandidate]; one that
    is refused is logged and skipped. *)
Fixpoint flush (env : Env) (pending : list IceCandidate)
  (pc : PeerConnection) : PeerConnection :=
  match pending with
  | [] => pc
  | candidate :: rest =>
      flush env rest
        (if addIceCandidate env candidate
         then pc_addIceCandidate candidate pc
         else pc)
  end.

(** [handleCallOffer(offer)]. *)
Definition handleCallOffer (env : Env) (offer : Sdp) (r : State) (w : World)
  : World :=
  match callId r with
  | None => w
  | Some c =>
      if String.eqb c "" then w
      else
        match open_media env w with
        | None => catch_endCall r (call_media GetUserMedia w)
        | Some w1 =>
            match peerConnectionRef (refs w1) with
            | None => catch_endCall r w1
            | Some pc =>
                if setRemoteDescription env offer then
                  let pc := pc_setRemoteDescription offer pc in
                  let pc := flush env (pendingIceRef (refs w1)) pc in
                  let w2 := set_pendingIceRef [] w1 in
                  let w2 := set_peerConnectionRef (Some pc) w2 in
                  match createAnswer env with
                  | Some answer =>
                      if setLocalDescription env answer then
                        let w3 := set_peerConnectionRef
                                    (Some (pc_setLocalDescription answer pc))
                                    w2 in
                        let w3 := send (ClientCallAnswer c answer) w3 in
                        setCallState connecting w3
                      else catch_endCall r w2
                  | None => catch_endCall r w2
                  end
                else catch_endCall r w1
            end
        end
  end.

(** [handleCallAnswer(answer)]. *)
Definition handleCallAnswer (env : Env) (answer : option Sdp) (r : State)
  (w : World) : World :=
  match peerConnectionRef (refs w), answer with
  | Some pc, Some a =>
      if setRemoteDescription env a then
        let w := set_peerConnectionRef
                   (Some (pc_setRemoteDescription a pc)) w in
        setCallState connecting w
      else catch_endCall r w
  | _, _ => w
  end.

(** [handleIceCandidate(candidate)]. *)
Definition handleIceCandidate (env : Env) (candidate : option IceCandidate)
  (w : World) : World :=
  match candidate with
  | None => w
  | Some c =>
      match peerConnectionRef (refs w) with
      | Some pc =>
          match remoteDescription pc with
          | Some _ =>
              if addIceCandidate env c
              then set_peerConnectionRef (Some (pc_addIceCandidate c pc)) w
              else w
          | None => set_pendingIceRef (pendingIceRef (refs w) ++ [c]) w
          end
      | None => set_pendingIceRef (pendingIceRef (refs w) ++ [c]) w
      end
  end.

(** [handleCallRinging(incomingCallId)].  Both writes use updater
    functions, so they act on the latest state, not on the closure. *)
Definition handleCallRinging (incomingCallId : string) (w : World) : World :=
  let w := setCallId (Some incomingCallId) w in
  if CallState_eqb (callState (st w)) idle then
    let w := setIsInitiator false w in
    let w := setShowIncomingCall true w in
    setCallState ringing w
  else w.

(** [toggleMute()]. *)
Definition toggleMute (w : World) : World :=
  match localStreamRef (refs w) with
  | Some s =>
      set_localStreamRef
        (Some {| stream_id := stream_id s;
                 tracks_enabled := map negb (tracks_enabled s) |}) w
  | None => w
  end.

(** [toggleRemoteAudio()]. *)
Definition toggleRemoteAudio (w : World) : World :=
  let prev := isRemoteAudioEnabled (st w) in
  let w := set_remoteAudioRef
             (set_muted (negb prev) (remoteAudioRef (refs w))) w in
  setIsRemoteAudioEnabled (negb prev) w.

(** *** The callbacks of the peer connection *)

(** [pc.onicecandidate]. *)
Definition onicecandidate (candidate : option IceCandidate) (w : World)
  : World :=
  match candidate, callIdRef (refs w) with
  | Some c, Some id =>
      if String.eqb id "" then w else send (ClientCallIce id c) w
  | _, _ => w
  end.

(** [pc.ontrack]; [stream] is [event.streams[0]]. *)
Definition ontrack (stream : option MediaStream) (w : World) : World :=
  match stream with
  | Some s =>
      let w := set_remoteStreamRef (Some s) w in
      set_remoteAudioRef
        (set_srcObject (Some (stream_id s)) (remoteAudioRef (refs w))) w
  | None => w
  end.

(** [pc.onconnectionstatechange]. *)
Definition onconnectionstatechange (cs : ConnectionState) (r : State)
  (w : World) : World :=
  match cs with
  | cs_connected => setCallState connected w
  | cs_disconnected | cs_failed =>
      if truthy (callIdRef (refs w))
         && (CallState_eqb (callStateRef (refs w)) connecting
             || CallState_eqb (callStateRef (refs w)) connected)
      then endCall r w
      else w
  | _ => w
  end.

(** The clean-up of the hook when the component goes away. *)
Definition unmount (w : World) : World :=
  let currentCallId := callIdRef (refs w) in
  let currentCallState := callStateRef (refs w) in
  if truthy currentCallId || negb (CallState_eqb currentCallState idle) then
    let w := match currentCallId with
             | Some c =>
                 if String.eqb c "" then w else send (ClientCallEnd c) w
             | None => w
             end in
    let w := match localStreamRef (refs w) with
             | Some s => call_media (LocalTracksStopped s) w
             | None => w
             end in
    let w := match remoteStreamRef (refs w) with
             | Some s => call_media (RemoteTracksStopped s) w
             | None => w
             end in
    match peerConnectionRef (refs w) with
    | Some pc => call_media (PeerConnectionClosed pc) w
    | None => w
    end
  else w.

(** *** Renders and runs *)

(** A render followed by its effects: the two mirror refs take the values
    of their state cells. *)
Definition render (w : World) : World :=
  set_callRefs (callId (st w)) (callState (st w)) w.

(** Everything that can be invoked on the engine: the operations the hook
    returns, then the callbacks of the peer connection and the clean-up. *)
Inductive Op : Type :=
| StartCall
| AcceptCall
| EndCall
| HandleCallIncoming (incomingCallId : string)
| HandleCallRinging (incomingCallId : string)
| HandleCallAccepted
| HandleCallOffer (offer : Sdp)
| HandleCallAnswer (answer : option Sdp)
| HandleIceCandidate (candidate : option IceCandidate)
| ToggleMute
| ToggleRemoteAudio
| OnIceCandidate (candidate : option IceCandidate)
| OnTrack (stream : option MediaStream)
| OnConnectionStateChange (cs : ConnectionState)
| Unmount.

(** The operations in the value [useWebRTC] returns. *)
Definition returned (o : Op) : bool :=
  match o with
  | StartCall | AcceptCall | EndCall | HandleCallIncoming _
  | HandleCallRinging _ | HandleCallAccepted | HandleCallOffer _
  | HandleCallAnswer _ | HandleIceCandidate _ | ToggleMute
  | ToggleRemoteAudio => true
  | OnIceCandidate _ | OnTrack _ | OnConnectionStateChange _ | Unmount =>
      false
  end.

(** One invocation, by the closures of the render that saw state [r]. *)
Definition invoke (env : Env) (chatId : option string) (o : Op) (r : State)
  (w : World) : World :=
  match o with
  | StartCall => startCall chatId r w
  | AcceptCall => acceptCall r w
  | EndCall => endCall r w
  | HandleCallIncoming id => handleCallIncoming id r w
  | HandleCallRinging id => handleCallRinging id w
  | HandleCallAccepted => handleCallAccepted env r w
  | HandleCallOffer offer => handleCallOffer env offer r w
  | HandleCallAnswer answer => handleCallAnswer env answer r w
  | HandleIceCandidate c => handleIceCandidate env c w
  | ToggleMute => toggleMute w
  | ToggleRemoteAudio => toggleRemoteAudio w
  | OnIceCandidate c => onicecandidate c w
  | OnTrack s => ontrack s w
  | OnConnectionStateChange cs => onconnectionstatechange cs r w
  | Unmount => unmount w
  end.

(** An invocation by the closures of the latest render, followed by the
    render its writes cause. *)
Definition step (env : Env) (chatId : option string) (o : Op) (w : World)
  : World :=
  render (invoke env chatId o (st w) w).

(** A run: every operation is invoked after the render of the one before,
    and has come to its end before the next is invoked. *)
Definition run (env : Env) (chatId : option string) (l : list Op)
  (w : World) : World :=
  fold_left (fun w o => step env chatId o w) l w.

(** The worlds the engine can be in after such runs: the media stack may
    answer differently, and the selected conversation may differ, from one
    step to the next.  [WebRTCAsync.reachable] has the worlds the engine can
    be in while handlers are suspended as well. *)
Inductive reachable : World -> Prop :=
| reachable_initial : reachable initial
| reachable_step (env : Env) (chatId : option string) (o : Op) (w : World) :
    reachable w -> reachable (step env chatId o w).

(** Number of [call.end] frames handed to [send]. *)
Definition call_end_count (w : World) : nat :=
  List.length (filter is_call_end (sent w)).

(** Number of times the tracks of the local stream were stopped. *)
Definition local_teardown_count (w : World) : nat :=
  List.length (filter is_local_teardown (media w)).

(** Number of times the microphone was asked for. *)
Definition acquisition_count (w : World) : nat :=
  List.length (filter is_acquisition (media w)).

(** *** Worlds for the examples *)

(** A microphone with one track, and a media stack that never refuses. *)
Definition mic : MediaStream :=
  {| stream_id := "mic"; tracks_enabled := [true] |}.

Definition env_ok : Env :=
  {| getUserMedia := Some mic; createOffer := Some "offer";
     createAnswer := Some "answer";
     setLocalDescription := fun _ => true;
     setRemoteDescription := fun _ => true;
     addIceCandidate := fun _ => true |}.

Definition room : option string := Some "room".

(** The callee, rung for call ["c1"]. *)
Definition ringing_callee : World :=
  run env_ok room [HandleCallIncoming "c1"] initial.

(** The callee, in call ["c1"] with media flowing. *)
Definition connected_callee : World :=
  run env_ok room
    [HandleCallIncoming "c1"; AcceptCall; HandleCallOffer "offer";
     OnConnectionStateChange cs_connected] initial.

(** The caller, its offer sent, waiting for the answer. *)
Definition offering_caller : World :=
  run env_ok room [StartCall; HandleCallRinging "c1"; HandleCallAccepted]
    initial.

(** The arrival of a sequence of candidate signals. *)
Definition candidates (ks : list IceCandidate) : list Op :=
  map (fun k => HandleIceCandidate (Some k)) ks.

(** A media stack that refuses nothing. *)
Definition cooperative (env : Env) : Prop :=
  (exists stream, getUserMedia env = Some stream) /\
  (exists answer, createAnswer env = Some answer) /\
  (forall d, setLocalDescription env d = true) /\
  (forall d, setRemoteDescription env d = true) /\
  (forall k, addIceCandidate env k = true).

(** The caller's side of a call: the call is started and confirmed, the
    callee accepts, a candidate of the callee arrives before its answer, then
    the answer, then a second candidate. *)
Definition caller_trace : list Op :=
  [StartCall; HandleCallRinging "c1"; HandleCallAccepted;
   HandleIceCandidate (Some "k1"); HandleCallAnswer (Some "answer");
   HandleIceCandidate (Some "k2")].

End WebRTC.

(** ** Further observations on the transport session *)

Module ChatSocketObs.

Import ChatSocket.

(** The rooms of a listing whose timestamp reads as [t]. *)
Definition at_time (getTime : string -> option Z) (t : Z) (c : Chatroom)
  : bool :=
  match getTime (updated_time c) with
  | Some x => Z.eqb x t
  | None => false
  end.

(** The content frames received one after the other. *)
Definition receive (ms : list ServerMessage) (prev : list ConversationItem)
  : list ConversationItem :=
  fold_left (fun acc m => add_message m acc) ms prev.

(** The identity tokens a collection gains from a sequence of frames, as a
    reader would list them: going through the frames in order, the token of
    each frame that makes an item and whose token has not been seen. *)
Fixpoint first_occurrences (seen : list (option string))
  (ms : list ServerMessage) : list (option string) :=
  match ms with
  | [] => []
  | m :: ms' =>
      if recognised m
         && negb (existsb (opt_string_eqb (sm_message_id m)) seen)
      then sm_message_id m
             :: first_occurrences (seen ++ [sm_message_id m]) ms'
      else first_occurrences seen ms'
  end.

(** The conversation id an action resolves, if it resolves one: only the
    [joined] frame of a user and the [selected] frame do. *)
Definition resolves (a : Action) : option (option string) :=
  match a with
  | OnMessage _ (ServerJoinedUser id) => Some id
  | OnMessage _ (ServerSelected id) => Some id
  | _ => None
  end.

(** The conversation id resolved by the last resolving action of a run. *)
Definition last_resolved (l : list Action) (start : option string)
  : option string :=
  fold_left (fun id a => match resolves a with Some id' => id' | None => id end)
    l start.

(** The frame an intent asks the relay with. *)
Definition request_of (a : Action) : option ClientEvent :=
  match a with
  | Send payload => Some payload
  | KeepAliveTick => Some ClientPing
  | SelectAdmin adminId => Some (ClientSelectAdmin adminId)
  | SelectMaster masterId adminId =>
      Some (ClientSelectMaster masterId adminId)
  | _ => None
  end.

(** The master page's effect on a new listing: with rooms listed, no
    conversation resolved and the status open, it asks for the first room of
    the list. *)
Definition auto_select (stringify : ClientEvent -> string) (h : Hook)
  : Hook :=
  match chatrooms h with
  | firstChatroom :: _ =>
      if negb (truthy (chatId h))
         && match status h with open => true | _ => false end
      then selectRoom stringify (chat_id firstChatroom) h
      else h
  | [] => h
  end.

(** Timer handles are handed out in increasing order. *)
Definition handles_fresh (h : Hook) : Prop :=
  Forall (fun k => k < nextTimer h) (intervals h).

End ChatSocketObs.

(** ** Further observations on the call engine *)

Module WebRTCObs.

Import WebRTC.

(** What holds of the cells between two operations, whatever the engine has
    been through: the call state is never [ended]; an idle engine tracks no
    call id, is not initiator, shows no accept affordance and holds neither
    microphone nor peer connection; the affordance is shown to a callee only;
    microphone and peer connection are held together. *)
Definition tidy_cells (w : World) : Prop :=
  callState (st w) <> ended /\
  (callState (st w) = idle ->
   callId (st w) = None /\ isInitiator (st w) = false /\
   showIncomingCall (st w) = false /\
   peerConnectionRef (refs w) = None /\ localStreamRef (refs w) = None) /\
  (showIncomingCall (st w) = true -> isInitiator (st w) = false) /\
  (peerConnectionRef (refs w) = None <-> localStreamRef (refs w) = None) /\
  isEndingCallRef (refs w) = false.

(** The same, with the two mirror refs in step with their state cells, as
    they are after a render. *)
Definition tidy (w : World) : Prop :=
  tidy_cells w /\
  callIdRef (refs w) = callId (st w) /\
  callStateRef (refs w) = callState (st w).



(** The engine after a tear-down: idle, nothing tracked, nothing held. *)
Definition torn_down (w : World) : Prop :=
  callState (st w) = idle /\ callId (st w) = None /\
  isInitiator (st w) = false /\ showIncomingCall (st w) = false /\
  peerConnectionRef (refs w) = None /\ localStreamRef (refs w) = None /\
  remoteStreamRef (refs w) = None /\ pendingIceRef (refs w) = [].


End WebRTCObs.

(** ** The call engine between its [await]s

    [handleCallAccepted], [handleCallOffer], [handleCallAnswer] and
    [handleIceCandidate] suspend at each of their [await]s, and anything may
    happen to the hook before they resume.  Here a handler runs up to its
    next [await] and is then kept among the suspended handlers until the
    promise it waits for settles.  A step of [WebRTC.run] is the schedule in
    which every promise of a handler settles before anything else
    happens. *)

Module WebRTCAsync.

Import WebRTC.

Definition is_creation (c : MediaCall) : bool :=
  match c with PeerConnectionCreated => true | _ => false end.

(** The number of peer connections created so far.  [peerConnectionRef] is
    only ever assigned a connection just created, so when it holds one it is
    the latest: a handler remembers the connection of its local [pc] by this
    number. *)
Definition created (w : World) : nat :=
  List.length (filter is_creation (media w)).

(** A suspended handler: the [await] it stopped at, with the variables it
    will read when it resumes.  [callId] is the one of the closure the
    handler was called in; [pc] stands for the local [pc]. *)
Inductive Task : Type :=
| AcceptedGetUserMedia (callId : string)
| AcceptedCreateOffer (callId : string) (pc : nat)
| AcceptedSetLocalDescription (callId : string) (pc : nat) (offer : Sdp)
| OfferGetUserMedia (callId : string) (offer : Sdp)
| OfferSetRemoteDescription (callId : string) (pc : nat) (offer : Sdp)
| OfferAddIceCandidate (callId : string) (pc : nat)
    (candidate : IceCandidate)
| OfferCreateAnswer (callId : string) (pc : nat)
| OfferSetLocalDescription (callId : string) (pc : nat) (answer : Sdp)
| AnswerSetRemoteDescription (pc : nat) (answer : Sdp)
| IceAddIceCandidate (pc : nat) (candidate : IceCandidate).

(** What a settled operation did to the connection [pc] of a handler.  The
    hook sees it when [peerConnectionRef] still holds that connection; a
    connection it has let go of is out of its sight. *)
Definition on_pc (pc : nat) (f : PeerConnection -> PeerConnection)
  (w : World) : World :=
  match peerConnectionRef (refs w) with
  | Some held =>
      if Nat.eqb (created w) pc
      then set_peerConnectionRef (Some (f held)) w
      else w
  | None => w
  end.

(** What [handleCallAccepted] and [handleCallOffer] do with the stream once
    [getUserMedia] has resolved, up to their next [await]. *)
Definition attach (stream : MediaStream) (w : World) : World :=
  let w := set_localStreamRef (Some stream) w in
  let w := set_localAudioRef
             (set_srcObject (Some (stream_id stream))
                (localAudioRef (refs w))) w in
  let w := call_media PeerConnectionCreated w in
  set_peerConnectionRef (Some (pc_addTracks stream new_RTCPeerConnection)) w.

(** The [catch] of a handler: [endCallRef.current()], the [endCall] of the
    latest render. *)
Definition catch (w : World) : World * option Task :=
  (endCall (st w) w, None).

(** The head of the flush loop of [handleCallOffer]: the next buffered
    candidate is shifted off and handed to [addIceCandidate]; with none
    left the answer is asked for. *)
Definition flush_next (callId : string) (pc : nat) (w : World)
  : World * option Task :=
  match pendingIceRef (refs w) with
  | candidate :: rest =>
      (set_pendingIceRef rest w,
       Some (OfferAddIceCandidate callId pc candidate))
  | [] => (w, Some (OfferCreateAnswer callId pc))
  end.

(** An invocation, by the closures of the latest render, up to its first
    [await].  The operations that never wait run to their end. *)
Definition begin (env : Env) (chatId : option string) (o : Op) (w : World)
  : World * option Task :=
  match o with
  | HandleCallAccepted =>
      match callId (st w) with
      | Some c =>
          if String.eqb c "" then (w, None)
          else (call_media GetUserMedia w, Some (AcceptedGetUserMedia c))
      | None => (w, None)
      end
  | HandleCallOffer offer =>
      match callId (st w) with
      | Some c =>
          if String.eqb c "" then (w, None)
          else (call_media GetUserMedia w, Some (OfferGetUserMedia c offer))
      | None => (w, None)
      end
  | HandleCallAnswer answer =>
      match peerConnectionRef (refs w), answer with
      | Some _, Some a => (w, Some (AnswerSetRemoteDescription (created w) a))
      | _, _ => (w, None)
      end
  | HandleIceCandidate candidate =>
      match candidate with
      | None => (w, None)
      | Some c =>
          match peerConnectionRef (refs w) with
          | Some pc =>
              match remoteDescription pc with
              | Some _ => (w, Some (IceAddIceCandidate (created w) c))
              | None =>
                  (set_pendingIceRef (pendingIceRef (refs w) ++ [c]) w, None)
              end
          | None =>
              (set_pendingIceRef (pendingIceRef (refs w) ++ [c]) w, None)
          end
      end
  | _ => (invoke env chatId o (st w) w, None)
  end.

(** A suspended handler resumes, the media stack answering by [env], and
    runs up to its next [await] or to its end. *)
Definition resume (env : Env) (t : Task) (w : World) : World * option Task :=
  match t with
  | AcceptedGetUserMedia c =>
      match getUserMedia env with
      | Some stream =>
          let w := attach stream w in
          (w, Some (AcceptedCreateOffer c (created w)))
      | None => catch w
      end
  | AcceptedCreateOffer c pc =>
      match createOffer env with
      | Some offer => (w, Some (AcceptedSetLocalDescription c pc offer))
      | None => catch w
      end
  | AcceptedSetLocalDescription c pc offer =>
      if setLocalDescription env offer then
        let w := on_pc pc (pc_setLocalDescription offer) w in
        let w := send (ClientCallOffer c offer) w in
        (setCallState connecting w, None)
      else catch w
  | OfferGetUserMedia c offer =>
      match getUserMedia env with
      | Some stream =>
          let w := attach stream w in
          (w, Some (OfferSetRemoteDescription c (created w) offer))
      | None => catch w
      end
  | OfferSetRemoteDescription c pc offer =>
      if setRemoteDescription env offer
      then flush_next c pc (on_pc pc (pc_setRemoteDescription offer) w)
      else catch w
  | OfferAddIceCandidate c pc candidate =>
      flush_next c pc
        (if addIceCandidate env candidate
         then on_pc pc (pc_addIceCandidate candidate) w
         else w)
  | OfferCreateAnswer c pc =>
      match createAnswer env with
      | Some answer => (w, Some (OfferSetLocalDescription c pc answer))
      | None => catch w
      end
  | OfferSetLocalDescription c pc answer =>
      if setLocalDescription env answer then
        let w := on_pc pc (pc_setLocalDescription answer) w in
        let w := send (ClientCallAnswer c answer) w in
        (setCallState connecting w, None)
      else catch w
  | AnswerSetRemoteDescription pc answer =>
      if setRemoteDescription env answer
      then (setCallState connecting
              (on_pc pc (pc_setRemoteDescription answer) w), None)
      else catch w
  | IceAddIceCandidate pc candidate =>
      (if addIceCandidate env candidate
       then on_pc pc (pc_addIceCandidate candidate) w
       else w, None)
  end.

(** The hook with its suspended handlers, oldest first. *)
Record Machine : Type := {
  world : World;
  suspended : list Task
}.

Definition mounted (w : World) : Machine :=
  {| world := w; suspended := [] |}.

(** What happens next: an operation is invoked, or the promise the [i]-th
    suspended handler waits for settles.  Handlers wait for promises of
    their own, so any of them may be the next to resume. *)
Inductive Event : Type :=
| Call (chatId : option string) (o : Op)
| Settle (i : nat).

Definition to_list (t : option Task) : list Task :=
  match t with Some t => [t] | None => [] end.

(** One event, followed by the render its writes cause. *)
Definition occur (env : Env) (e : Event) (m : Machine) : Machine :=
  match e with
  | Call chatId o =>
      let (w, t) := begin env chatId o (world m) in
      {| world := render w; suspended := suspended m ++ to_list t |}
  | Settle i =>
      match nth_error (suspended m) i with
      | Some t =>
          let (w, t') := resume env t (world m) in
          {| world := render w;
             suspended := firstn i (suspended m) ++ to_list t'
                          ++ skipn (S i) (suspended m) |}
      | None => m
      end
  end.

Definition schedule (env : Env) (es : list Event) (m : Machine) : Machine :=
  fold_left (fun m e => occur env e m) es m.

(** The machines the engine can be in: the media stack may answer
    differently from one event to the next. *)
Inductive reachable : Machine -> Prop :=
| reachable_mount : reachable (mounted initial)
| reachable_occur (env : Env) (e : Event) (m : Machine) :
    reachable m -> reachable (occur env e m).

(** What holds of the cells between two events, whatever the schedule: the
    call state is never [ended]; an idle engine tracks no call id, is not
    initiator and shows no accept affordance; the affordance is shown to a
    callee only; microphone and peer connection are held together; no
    [endCall] is under way. *)
Definition sound_cells (w : World) : Prop :=
  callState (st w) <> ended /\
  (callState (st w) = idle ->
   callId (st w) = None /\ isInitiator (st w) = false /\
   showIncomingCall (st w) = false) /\
  (showIncomingCall (st w) = true -> isInitiator (st w) = false) /\
  (peerConnectionRef (refs w) = None <-> localStreamRef (refs w) = None) /\
  isEndingCallRef (refs w) = false.

(** The same, with the two mirror refs in step with their state cells, as
    they are after a render. *)
Definition sound (w : World) : Prop :=
  sound_cells w /\
  callIdRef (refs w) = callId (st w) /\
  callStateRef (refs w) = callState (st w).

(** The candidate signals of a schedule, in their order of arrival. *)
Definition arrivals (es : list Event) : list IceCandidate :=
  flat_map (fun e => match e with
                     | Call _ (HandleIceCandidate (Some k)) => [k]
                     | _ => []
                     end) es.

(** A schedule in which nothing is invoked but the handling of candidate
    signals. *)
Definition candidates_only (es : list Event) : bool :=
  forallb (fun e => match e with
                    | Call _ (HandleIceCandidate (Some _)) => true
                    | Settle _ => true
                    | _ => false
                    end) es.

(** The candidates the suspended handlers have handed to [addIceCandidate]
    and wait for. *)
Definition in_flight (ts : list Task) : list IceCandidate :=
  flat_map (fun t => match t with
                     | OfferAddIceCandidate _ _ k => [k]
                     | IceAddIceCandidate _ k => [k]
                     | _ => []
                     end) ts.

(** The callee is rung and accepts; the offer arrives, and while the
    microphone is being asked for the user ends the call; then the
    microphone is granted. *)
Definition ended_while_opening : list Event :=
  [Call room (HandleCallIncoming "c1"); Call room AcceptCall;
   Call room (HandleCallOffer "offer"); Call room EndCall; Settle 0].

(** Two candidates are buffered, the offer arrives and is applied; while
    the first buffered candidate is being added a third one arrives. *)
Definition candidate_during_flush : list Event :=
  [Call room (HandleCallIncoming "c1"); Call room AcceptCall;
   Call room (HandleIceCandidate (Some "k1"));
   Call room (HandleIceCandidate (Some "k2"));
   Call room (HandleCallOffer "offer"); Settle 0; Settle 0;
   Call room (HandleIceCandidate (Some "k3")); Settle 0; Settle 1; Settle 0;
   Settle 0; Settle 0].

(** A handler of a candidate signal that waits for [addIceCandidate] on the
    connection [pc]. *)
Definition adds_to (pc : nat) (t : Task) : Prop :=
  match t with IceAddIceCandidate n _ => n = pc | _ => False end.

(** The suspended handlers while the offer is being answered on the
    connection [pc], once its remote description is set: at most one
    [handleCallOffer], the oldest, in its flush loop or past it with the
    buffer empty, and handlers of candidate signals. *)
Definition flushing (pc : nat) (ts : list Task)
  (pending : list IceCandidate) : Prop :=
  match ts with
  | OfferAddIceCandidate _ n _ :: rest => n = pc /\ Forall (adds_to pc) rest
  | OfferCreateAnswer _ n :: rest
  | OfferSetLocalDescription _ n _ :: rest =>
      n = pc /\ pending = [] /\ Forall (adds_to pc) rest
  | _ => pending = [] /\ Forall (adds_to pc) ts
  end.

(** The callee's engine from the moment an offer is handled, the
    candidates [arrived] having arrived so far: waiting for the microphone,
    waiting for the remote description, or past it. *)
Inductive answering (offer : Sdp) (pc : nat) (arrived : list IceCandidate)
  (m : Machine) : Prop :=
| awaiting_media (c : string) :
    suspended m = [OfferGetUserMedia c offer] ->
    peerConnectionRef (refs (world m)) = None ->
    S (created (world m)) = pc ->
    pendingIceRef (refs (world m)) = arrived ->
    answering offer pc arrived m
| awaiting_remote (c : string) (held : PeerConnection) :
    suspended m = [OfferSetRemoteDescription c pc offer] ->
    peerConnectionRef (refs (world m)) = Some held ->
    remoteDescription held = None -> iceCandidates held = [] ->
    created (world m) = pc ->
    pendingIceRef (refs (world m)) = arrived ->
    answering offer pc arrived m
| applying (held : PeerConnection) :
    peerConnectionRef (refs (world m)) = Some held ->
    remoteDescription held = Some offer ->
    created (world m) = pc ->
    flushing pc (suspended m) (pendingIceRef (refs (world m))) ->
    Permutation arrived
      (iceCandidates held ++ in_flight (suspended m)
       ++ pendingIceRef (refs (world m))) ->
    answering offer pc arrived m.

(** How many promises are still to settle before no handler is suspended,
    when nothing else is invoked: the [await]s a suspended handler has left,
    and one for each buffered candidate its flush loop will hand over. *)
Definition awaits_left (t : Task) : nat :=
  match t with
  | AcceptedGetUserMedia _ => 3
  | AcceptedCreateOffer _ _ => 2
  | AcceptedSetLocalDescription _ _ _ => 1
  | OfferGetUserMedia _ _ => 4
  | OfferSetRemoteDescription _ _ _ => 3
  | OfferAddIceCandidate _ _ _ => 3
  | OfferCreateAnswer _ _ => 2
  | OfferSetLocalDescription _ _ _ => 1
  | AnswerSetRemoteDescription _ _ => 1
  | IceAddIceCandidate _ _ => 1
  end.

Definition remaining (m : Machine) : nat :=
  list_sum (map awaits_left (suspended m))
  + List.length (pendingIceRef (refs (world m))).

End WebRTCAsync.

(** ** The conversation view of the user page *)

Module UserPage.

(** An entry of the history the read API returns, as the page reads it. *)
Record HistoryEntry : Type := {
  he_type : option string;
  he_from : option string;
  he_text : option string;
  he_file_url : option string;
  he_file_name : option string;
  he_file_type : option string;
  he_audio_url : option string;
  he_created_at : option string
}.

Inductive ItemStatus : Type := sending | sent | delivered.

(** A conversation item with its [status] field, which the dispatcher
    leaves unset and the page fills in. *)
Record Shown : Type := {
  item : ConversationItem;
  status : option ItemStatus
}.

Definition from (i : ConversationItem) : option string :=
  match i with
  | TextItem f _ _ _ _ => f
  | FileItem f _ _ _ _ _ => f
  | AudioItem f _ _ _ _ _ => f
  end.

Definition created_at (i : ConversationItem) : option string :=
  match i with
  | TextItem _ _ c _ _ => c
  | FileItem _ _ _ _ c _ => c
  | AudioItem _ _ _ _ c _ => c
  end.

(** [{ ...m, from: f }]. *)
Definition with_from (f : option string) (i : ConversationItem)
  : ConversationItem :=
  match i with
  | TextItem _ t c id meta => TextItem f t c id meta
  | FileItem _ u n ty c id => FileItem f u n ty c id
  | AudioItem _ u n ty c id => AudioItem f u n ty c id
  end.

(** [a || d] on a [string | undefined]. *)
Definition or_default (a : option string) (d : string) : option string :=
  if truthy a then a else Some d.

(** [c.from === "agent" || c.from === "superadmin" ? "admin" : c.from]. *)
Definition history_from (f : option string) : option string :=
  if opt_string_eqb f (Some "agent") || opt_string_eqb f (Some "superadmin")
  then Some "admin"
  else f.

(** The callback of [data.conversation.map]. *)
Definition history_item (c : HistoryEntry) : Shown :=
  let from := history_from (he_from c) in
  if opt_string_eqb (he_type c) (Some "file") then
    {| item := FileItem from (he_file_url c)
                 (or_default (he_file_name c) "File")
                 (or_default (he_file_type c) "") (he_created_at c) None;
       status := None |}
  else if opt_string_eqb (he_type c) (Some "audio") then
    {| item := AudioItem from (he_audio_url c) (Some "Audio") (Some "")
                 (he_created_at c) None;
       status := None |}
  else
    {| item := TextItem from (he_text c) (he_created_at c) None None;
       status := None |}.

(** [historyItems]; [conversation] is [data?.conversation]. *)
Definition historyItems (conversation : option (list HistoryEntry))
  : list Shown :=
  match conversation with
  | Some l => map history_item l
  | None => []
  end.

(** [normalizedLive]. *)
Definition normalizedLive (messages : list ConversationItem) : list Shown :=
  map (fun m =>
         {| item := with_from
                      (if opt_string_eqb (from m) (Some "superadmin")
                       then Some "admin" else from m) m;
            status := Some delivered |})
    messages.

(** [combined]. *)
Definition combined (history optimistic live : list Shown) : list Shown :=
  history ++ optimistic ++ live.

(** [addOptimisticMessage(message)]. *)
Definition addOptimisticMessage (message : Shown) (prev : list Shown)
  : list Shown :=
  prev ++ [{| item := item message; status := Some sending |}].

(** [Math.abs(new Date(a).getTime() - new Date(b).getTime()) < 5000].
    [getTime] is the parsing of a timestamp, [None] when it does not parse
    (the time is then [NaN], and no comparison with it holds). *)
Definition within_5s (getTime : option string -> option Z)
  (a b : option string) : bool :=
  match getTime a, getTime b with
  | Some x, Some y => (Z.abs (x - y) <? 5000)%Z
  | _, _ => false
  end.

(** The callback of [normalizedLive.find]. *)
Definition confirms (getTime : option string -> option Z)
  (optMsg serverMsg : Shown) : bool :=
  match item optMsg, item serverMsg with
  | TextItem _ t c _ _, TextItem _ t' c' _ _ =>
      opt_string_eqb t t' && within_5s getTime c c'
  | FileItem _ _ n _ c _, FileItem _ _ n' _ c' _ =>
      opt_string_eqb n n' && within_5s getTime c c'
  | _, _ => false
  end.

(** The updater of the reconciliation effect: an optimistic item stays
    when [find] finds no live item for it. *)
Definition unconfirmed (getTime : option string -> option Z)
  (live prev : list Shown) : list Shown :=
  filter (fun optMsg => negb (existsb (confirms getTime optMsg) live)) prev.

(** The reconciliation effect, run after a render that saw [live] and
    [optimistic]. *)
Definition reconcile (getTime : option string -> option Z)
  (live optimistic : list Shown) : list Shown :=
  if (0 <? List.length live) && (0 <? List.length optimistic)
  then unconfirmed getTime live optimistic
  else optimistic.

(** Timestamps for the example: seconds, as decimal digits. *)
Definition seconds (t : option string) : option Z :=
  match t with
  | Some "0" => Some 0%Z
  | Some "3" => Some 3000%Z
  | Some "9" => Some 9000%Z
  | _ => None
  end.

End UserPage.

(** ** The call controls ([CallUI], [CallToaster]) *)

Module CallUI.

Import WebRTC.

Inductive IconType : Type := calling | incoming | connected_icon.

Inductive Button : Type := Accept | EndCall.

Definition showToaster (callState : CallState) : bool :=
  CallState_eqb callState ringing || CallState_eqb callState connecting
  || CallState_eqb callState connected.

Definition toasterTitle (isInitiator : bool) (callState : CallState)
  : string :=
  if isInitiator
  then (if CallState_eqb callState connected
        then "Connected" else "Calling...")
  else (if CallState_eqb callState connected
        then "Connected" else "Incoming call").

Definition toasterStatus (isInitiator : bool) (displayName : string)
  : string :=
  if isInitiator
  then String.append "Connecting to " displayName
  else String.append displayName " is calling".

Definition toasterIconType (isInitiator : bool) (callState : CallState)
  : IconType :=
  if isInitiator
  then (if CallState_eqb callState connected then connected_icon else calling)
  else (if CallState_eqb callState connected
        then connected_icon else incoming).

(** The [showAccept] the call controls pass to the toaster. *)
Definition showAccept (s : State) : bool :=
  showIncomingCall s && negb (isInitiator s).

(** The one button of the toaster: none when it is not shown; [onAccept]
    says whether the page passed an accept callback. *)
Definition toaster_button (show showAccept onAccept : bool) : option Button :=
  if negb show then None
  else Some (if showAccept && onAccept then Accept else EndCall).

(** The buttons the call controls offer in a state of the engine: the
    button of the toaster, and the end button of the in-call panel, which is
    there while the call is connected. *)
Definition buttons (onAccept : bool) (s : State) : list Button :=
  match toaster_button (showToaster (callState s)) (showAccept s) onAccept
  with
  | Some b => [b]
  | None => []
  end
  ++ (if CallState_eqb (callState s) connected then [EndCall] else []).

End CallUI.

(** ** The user page: the two hooks wired together *)

Module Page.

Import WebRTC.

(** The socket hook, the call engine, and the toasts shown. *)
Record Page : Type := {
  hook : ChatSocket.Hook;
  call : World;
  toasts : list string
}.

Definition initial : Page :=
  {| hook := ChatSocket.initial; call := WebRTC.initial; toasts := [] |}.

(** What happens to the socket hook alone. *)
Definition on_hook (f : ChatSocket.Hook -> ChatSocket.Hook) (p : Page)
  : Page :=
  {| hook := f (hook p); call := call p; toasts := toasts p |}.

(** The frames a step of the engine handed to [send]. *)
Definition new_frames (before after : World) : list ClientEvent :=
  skipn (List.length (sent before)) (sent after).

(** An operation of the engine on the page: the engine's [send] is the
    socket hook's, and its [chatId] the hook's. *)
Definition engine (stringify : ClientEvent -> string) (env : Env) (o : Op)
  (p : Page) : Page :=
  let w' := step env (ChatSocket.chatId (hook p)) o (call p) in
  {| hook := fold_left (fun h f => ChatSocket.send stringify f h)
               (new_frames (call p) w') (hook p);
     call := w';
     toasts := toasts p |}.

(** The operation the page's effect answers a call signal with. *)
Definition op_of (c : ServerCallEvent) : Op :=
  match c with
  | ServerCallIncoming id => HandleCallIncoming id
  | ServerCallRinging id => HandleCallRinging id
  | ServerCallAccepted _ => HandleCallAccepted
  | ServerCallOffer _ sdp => HandleCallOffer sdp
  | ServerCallAnswer _ sdp => HandleCallAnswer sdp
  | ServerCallIce _ candidate => HandleIceCandidate candidate
  | ServerCallEnded _ => EndCall
  | ServerCallError _ => EndCall
  end.

(** The description of the toast for a call error. *)
Definition error_toast (error : string) : string :=
  if String.eqb error "target_offline"
  then "Master is offline or not connected. Please try again later."
  else if String.eqb error ""
       then "An error occurred during the call."
       else error.

Definition toast (description : string) (p : Page) : Page :=
  {| hook := hook p; call := call p; toasts := toasts p ++ [description] |}.

(** The effect of the page on [callEvent]. *)
Definition call_effect (stringify : ClientEvent -> string) (env : Env)
  (p : Page) : Page :=
  match ChatSocket.callEvent (hook p) with
  | None => p
  | Some c =>
      let p := match c with
               | ServerCallError error => toast (error_toast error) p
               | _ => p
               end in
      let p := engine stringify env (op_of c) p in
      on_hook ChatSocket.clearCallEvent p
  end.

(** An inbound frame reaches the socket hook. *)
Definition on_frame (getTime : string -> option Z)
  (runtimeSort : list Chatroom -> list Chatroom) (data : ServerEvent) (p : Page)
  : Page :=
  on_hook (ChatSocket.onmessage getTime runtimeSort [] data) p.

(** A call signal arrives and the page's effect runs. *)
Definition deliver (stringify : ClientEvent -> string) (getTime : string ->
    option Z)
  (runtimeSort : list Chatroom -> list Chatroom)
  (env : Env) (c : ServerCallEvent) (p : Page) : Page :=
  call_effect stringify env (on_frame getTime runtimeSort (ServerCall c) p).

End Page.

(** * Properties *)

(** ** JavaScript helpers *)

Lemma opt_string_eqb_spec (a b : option string) :
  reflect (a = b) (opt_string_eqb a b).
Proof.
  destruct a as [x|], b as [y|]; simpl; try (constructor; congruence).
  destruct (String.eqb_spec x y); constructor; congruence.
Qed.

Lemma opt_string_eqb_refl (a : option string) : opt_string_eqb a a = true.
Proof. destruct (opt_string_eqb_spec a a); congruence. Qed.

Lemma truthy_Some (a : option string) :
  truthy a = true <-> exists c, a = Some c /\ c <> "".
Proof.
  destruct a as [s|]; simpl.
  - destruct (String.eqb_spec s ""); simpl; split.
    + discriminate.
    + intros (c & Hc & Hne). congruence.
    + intros _. now exists s.
    + reflexivity.
  - split; [discriminate | intros (c & Hc & _); discriminate].
Qed.

(** ** The transport session *)

Module ChatSocketFacts.

Import ChatSocket.

(** C9.  A frame passed to [send] while the socket is not open is dropped:
    the hook, with its socket and its timers, is exactly what it was, so
    nothing went to the wire and nothing is kept for later; [send] has no
    failure to report.  While the socket is open the frame is serialised and
    written once: the wire grows by that one text and nothing else
    changes. *)
Theorem send_drops_unless_open (stringify : ClientEvent -> string)
  (payload : ClientEvent) (h : Hook) :
  (socket_open h = false -> send stringify payload h = h) /\
  (socket_open h = true ->
   written (send stringify payload h) = written h ++ [stringify payload] /\
   exists s, wsRef h = Some s /\
     send stringify payload h
     = set_wsRef (Some (ws_send s (stringify payload))) h).
Proof.
  unfold socket_open, send, written.
  destruct (wsRef h) as [s|] eqn:Hs.
  - destruct (ReadyState_eqb (readyState s) OPEN) eqn:Ho; split;
      try discriminate; intros _.
    + split; [reflexivity | now exists s].
    + reflexivity.
  - split; [reflexivity | discriminate].
Qed.

(** A text frame sent before any connection leaves the hook as it was; sent
    on an open socket it is the one text on the wire. *)
Lemma send_drops_unless_open_witness :
  send type_of (ClientSendText "hi") initial = initial /\
  written (send type_of (ClientSendText "hi") open_hook) = ["message"].
Proof.
  split.
  - apply (proj1 (send_drops_unless_open type_of (ClientSendText "hi")
                    initial)).
    reflexivity.
  - rewrite (proj1 (proj2 (send_drops_unless_open type_of
                             (ClientSendText "hi") open_hook) eq_refl)).
    reflexivity.
Defined.

(** What [onclose] does before it looks at the retry counter leaves the
    counter and the scheduled reconnects alone. *)
Lemma onclose_unfold (h : Hook) :
  ((retryRef h <? 5) = true ->
   retryRef (onclose h) = retryRef h + 1 /\
   timeouts (onclose h) = timeouts h ++ [backoff (retryRef h)]) /\
  ((retryRef h <? 5) = false ->
   retryRef (onclose h) = retryRef h /\ timeouts (onclose h) = timeouts h).
Proof.
  unfold onclose.
  set (h1 := match keepAliveRef (setStatus closed h) with
             | Some k => clearInterval k (setStatus closed h)
             | None => setStatus closed h
             end).
  assert (Hr : retryRef h1 = retryRef h)
    by (unfold h1; simpl; destruct (keepAliveRef h); reflexivity).
  assert (Ht : timeouts h1 = timeouts h)
    by (unfold h1; simpl; destruct (keepAliveRef h); reflexivity).
  rewrite Hr.
  split; intros Hlt; rewrite Hlt; simpl; rewrite ?Hr, ?Ht; auto.
Qed.

Lemma onclose_at_ceiling (n : nat) (h : Hook) :
  5 <= retryRef h ->
  retryRef (Nat.iter n onclose h) = retryRef h /\
  timeouts (Nat.iter n onclose h) = timeouts h.
Proof.
  intros Hge. induction n as [|n [IHr IHt]]; simpl; [now split|].
  destruct (onclose_unfold (Nat.iter n onclose h)) as [_ Hstay].
  destruct Hstay as [Hr Ht].
  - apply Nat.ltb_ge. lia.
  - split; congruence.
Qed.

(** C3.  On a close with fewer than 5 retries behind it, one reconnect is
    scheduled, after [min(1000 * 2^retryCount, 15000)] milliseconds, and the
    counter goes up by one; with 3 retries that is 8000 ms.  Once the counter
    is at 5, no close, however many follow, schedules a reconnect.  An open
    puts the counter back to 0. *)
Theorem onclose_backoff (h : Hook) :
  (retryRef h < 5 ->
   timeouts (onclose h)
   = timeouts h ++ [Z.min (1000 * 2 ^ Z.of_nat (retryRef h)) 15000] /\
   retryRef (onclose h) = retryRef h + 1) /\
  (retryRef h = 3 -> timeouts (onclose h) = timeouts h ++ [8000%Z]) /\
  (5 <= retryRef h ->
   forall n, timeouts (Nat.iter n onclose h) = timeouts h /\
             retryRef (Nat.iter n onclose h) = retryRef h) /\
  retryRef (onopen h) = 0.
Proof.
  destruct (onclose_unfold h) as [Hlt _].
  split; [|split; [|split]].
  - intros H. apply Nat.ltb_lt in H. destruct (Hlt H) as [Hr Ht].
    now split.
  - intros H. destruct Hlt as [_ Ht]; [now rewrite H|].
    rewrite Ht, H. reflexivity.
  - intros H n. destruct (onclose_at_ceiling n h H). now split.
  - reflexivity.
Qed.

(** The delays of five closes in a row, and no sixth reconnect. *)
Lemma onclose_backoff_witness :
  timeouts closed_3 = [1000; 2000; 4000]%Z /\
  timeouts (onclose closed_3) = [1000; 2000; 4000; 8000]%Z /\
  retryRef (onclose closed_3) = 4 /\
  timeouts closed_5 = [1000; 2000; 4000; 8000; 15000]%Z /\
  timeouts (Nat.iter 7 onclose closed_5) = timeouts closed_5 /\
  retryRef (onopen closed_5) = 0.
Proof.
  pose proof (onclose_backoff closed_3) as (H3 & H3' & _ & _).
  pose proof (onclose_backoff closed_5) as (_ & _ & H5 & H0).
  split; [reflexivity|].
  split; [rewrite (H3' eq_refl); reflexivity|].
  split; [apply (H3 ltac:(vm_compute; lia))|].
  split; [reflexivity|].
  split; [apply (H5 ltac:(vm_compute; lia) 7)|].
  exact H0.
Defined.

(** *** The item collection *)

Lemma seen_iff (id : option string) (prev : list ConversationItem) :
  existsb (fun msg => opt_string_eqb (message_id msg) id) prev = true
  <-> In id (ids prev).
Proof.
  unfold ids. rewrite existsb_exists, in_map_iff.
  split; intros (x & H1 & H2); exists x.
  - destruct (opt_string_eqb_spec (message_id x) id); [now split | easy].
  - split; [easy|]. rewrite H1. apply opt_string_eqb_refl.
Qed.

(** The updater either leaves the collection alone or appends one item
    carrying the identity token of the frame, which was not there before. *)
Lemma add_message_cases (m : ServerMessage) (prev : list ConversationItem) :
  add_message m prev = prev \/
  exists item, add_message m prev = prev ++ [item] /\
               message_id item = sm_message_id m /\
               ~ In (sm_message_id m) (ids prev).
Proof.
  unfold add_message.
  destruct (existsb _ prev) eqn:He; [now left|].
  assert (Hnot : ~ In (sm_message_id m) (ids prev)).
  { intros Hin. apply seen_iff in Hin. congruence. }
  destruct (sm_is_file m).
  - destruct (opt_string_eqb (sm_kind m) (Some "file")).
    + right. eexists. split; [reflexivity|]. split; [reflexivity | exact Hnot].
    + destruct (opt_string_eqb (sm_kind m) (Some "audio")).
      * right. eexists. split; [reflexivity|]. split; [reflexivity | exact
          Hnot].
      * now left.
  - right. eexists. split; [reflexivity|]. split; [reflexivity | exact Hnot].
Qed.

Lemma add_message_seen (m : ServerMessage) (prev : list ConversationItem) :
  In (sm_message_id m) (ids prev) -> add_message m prev = prev.
Proof.
  intros Hin. apply seen_iff in Hin. unfold add_message. now rewrite Hin.
Qed.

Lemma add_message_recognised (m : ServerMessage)
  (prev : list ConversationItem) :
  recognised m = true -> In (sm_message_id m) (ids (add_message m prev)).
Proof.
  intros Hrec. unfold add_message.
  destruct (existsb _ prev) eqn:He; [now apply seen_iff|].
  unfold recognised in Hrec. unfold ids.
  destruct (sm_is_file m); simpl in Hrec.
  - destruct (opt_string_eqb (sm_kind m) (Some "file")).
    + rewrite map_app, in_app_iff. right. now left.
    + simpl in Hrec. rewrite Hrec.
      rewrite map_app, in_app_iff. right. now left.
  - rewrite map_app, in_app_iff. right. now left.
Qed.

Lemma add_message_NoDup (m : ServerMessage) (prev : list ConversationItem) :
  NoDup (ids prev) -> NoDup (ids (add_message m prev)).
Proof.
  intros Hnd.
  destruct (add_message_cases m prev) as [-> | (item & -> & Hid & Hnot)];
    [exact Hnd|].
  unfold ids in *. rewrite map_app. simpl. rewrite Hid.
  apply NoDup_rev in Hnd. rewrite <- (rev_involutive (_ ++ _)).
  apply NoDup_rev. rewrite rev_app_distr. simpl.
  constructor; [|exact Hnd].
  now rewrite <- in_rev.
Qed.

Lemma add_message_twice (m : ServerMessage) (prev : list ConversationItem) :
  add_message m (add_message m prev) = add_message m prev.
Proof.
  destruct (add_message_cases m prev) as [E | (item & E & Hid & Hnot)].
  - now rewrite !E.
  - rewrite E. apply add_message_seen.
    unfold ids. rewrite map_app, in_app_iff. right. simpl. now left.
Qed.

Lemma entries_absent (id : option string) (l : list ConversationItem) :
  ~ In id (ids l) -> entries_with_id id l = 0.
Proof.
  unfold entries_with_id, ids.
  induction l as [|x l IH]; simpl; intros Hnot; [reflexivity|].
  destruct (opt_string_eqb_spec (message_id x) id) as [E|_].
  - exfalso. apply Hnot. now left.
  - apply IH. intros Hin. apply Hnot. now right.
Qed.

Lemma entries_unique (id : option string) (l : list ConversationItem) :
  NoDup (ids l) -> In id (ids l) -> entries_with_id id l = 1.
Proof.
  unfold entries_with_id, ids.
  induction l as [|x l IH]; simpl; intros Hnd Hin; [easy|].
  inversion Hnd as [|? ? Hx Hl]; subst.
  destruct (opt_string_eqb_spec (message_id x) id) as [E|Hne].
  - simpl. f_equal. apply (entries_absent id l). now rewrite <- E.
  - apply IH; [exact Hl|]. destruct Hin as [E|Hin]; [congruence | exact Hin].
Qed.

(** Every action leaves the collection alone, empties it, or runs the
    updater of the [message] branch on it. *)
Lemma act_messages (stringify : ClientEvent -> string)
  (getTime : string -> option Z)
  (runtimeSort : list Chatroom -> list Chatroom) (a : Action) (h : Hook) :
  messages (act stringify getTime runtimeSort a h) = messages h \/
  messages (act stringify getTime runtimeSort a h) = [] \/
  exists m, messages (act stringify getTime runtimeSort a h)
            = add_message m (messages h).
Proof.
  destruct a as [token|r| | |personal data|payload| |ad|ma ad| | | ]; simpl.
  - unfold connect. destruct (String.eqb token ""); now left.
  - unfold socket_becomes. destruct (wsRef h); now left.
  - now left.
  - unfold onclose. simpl. destruct (keepAliveRef h); simpl;
      destruct (retryRef h <? 5); now left.
  - destruct data as [id|needs rooms hier|id|ad rooms ms|ma rooms|m|c| ];
      simpl; try now left.
    + destruct needs; [|now left]. destruct hier; now left.
    + unfold on_admin_selected.
      destruct (Nat.eqb _ 0); now left.
    + right. right. now exists m.
  - unfold send. destruct (wsRef h) as [s|]; [|now left].
    destruct (ReadyState_eqb (readyState s) OPEN); now left.
  - unfold keepalive_tick, send. destruct (wsRef h) as [s|]; [|now left].
    destruct (ReadyState_eqb (readyState s) OPEN); now left.
  - unfold selectAdmin, send. destruct (wsRef h) as [s|]; [|now left].
    destruct (ReadyState_eqb (readyState s) OPEN); now left.
  - unfold selectMaster, send. destruct (wsRef h) as [s|]; [|now left].
    destruct (ReadyState_eqb (readyState s) OPEN); now left.
  - right. now left.
  - now left.
  - now left.
Qed.

Lemma run_NoDup (stringify : ClientEvent -> string) (getTime : string ->
    option Z)
  (runtimeSort : list Chatroom -> list Chatroom)
  (l : list Action) (h : Hook) :
  NoDup (ids (messages h)) ->
  NoDup (ids (messages (run stringify getTime runtimeSort l h))).
Proof.
  unfold run. revert h.
  induction l as [|a l IH]; simpl; intros h Hnd; [exact Hnd|].
  apply IH.
  destruct (act_messages stringify getTime runtimeSort a h) as [E | [E | (m &
      E)]];
    rewrite E.
  - exact Hnd.
  - constructor.
  - now apply add_message_NoDup.
Qed.

Lemma setMessages_id (h : Hook) (f : list ConversationItem -> _) :
  f (messages h) = messages h -> setMessages f h = h.
Proof. intros E. unfold setMessages. rewrite E. now destruct h. Qed.

(** C4.  Whatever the hook has been through since it was mounted, no two
    entries of its item collection carry the same identity token.  An
    inbound content message whose [message_id] is already in the collection
    leaves the hook as it was.  And a message the dispatcher makes an item
    of, received twice, has exactly one entry. *)
Theorem messages_unique_by_message_id (stringify : ClientEvent -> string)
  (getTime : string -> option Z)
  (runtimeSort : list Chatroom -> list Chatroom) (l : list Action)
  (personal : list Chatroom) (m : ServerMessage) :
  let h := run stringify getTime runtimeSort l initial in
  let once :=
    onmessage getTime runtimeSort personal (ServerMessageEvent m) h in
  let twice :=
    onmessage getTime runtimeSort personal (ServerMessageEvent m) once in
  NoDup (ids (messages h)) /\
  (In (sm_message_id m) (ids (messages h)) -> once = h) /\
  twice = once /\
  NoDup (ids (messages twice)) /\
  (recognised m = true ->
   entries_with_id (sm_message_id m) (messages twice) = 1).
Proof.
  intros h once twice.
  assert (Hh : NoDup (ids (messages h)))
    by (apply run_NoDup; constructor).
  assert (Ho : NoDup (ids (messages once)))
    by (apply add_message_NoDup, Hh).
  assert (Ht : twice = once).
  { unfold twice. simpl. apply setMessages_id.
    unfold once. simpl. apply add_message_twice. }
  split; [exact Hh|].
  split.
  { intros Hin. unfold once. simpl. apply setMessages_id.
    now apply add_message_seen. }
  split; [exact Ht|].
  rewrite Ht. split; [exact Ho|].
  intros Hrec. apply entries_unique; [exact Ho|].
  unfold once. simpl. now apply add_message_recognised.
Qed.

(** The frame [m1], received a second and a third time. *)
Lemma messages_unique_by_message_id_witness :
  let h := run type_of day as_received
             [OnOpen; OnMessage [] (ServerMessageEvent m1)] initial in
  In (sm_message_id m1) (ids (messages h)) /\
  onmessage day as_received [] (ServerMessageEvent m1) h = h /\
  recognised m1 = true /\
  entries_with_id (Some "m1")
    (messages (onmessage day as_received [] (ServerMessageEvent m1)
                 (onmessage day as_received [] (ServerMessageEvent m1) h)))
  = 1.
Proof.
  pose proof (messages_unique_by_message_id type_of day as_received
                [OnOpen; OnMessage [] (ServerMessageEvent m1)] [] m1)
    as (_ & Hseen & _ & _ & Hone).
  assert (Hin : In (sm_message_id m1)
                  (ids (messages
                     (run type_of day as_received
                        [OnOpen; OnMessage [] (ServerMessageEvent m1)]
                        initial))))
    by (left; reflexivity).
  split; [exact Hin|].
  split; [exact (Hseen Hin)|].
  split; [reflexivity|].
  exact (Hone eq_refl).
Defined.

(** *** The conversation list after an admin selection *)

Section AdminSelected.

Variable getTime : string -> option Z.
Variable runtimeSort : list Chatroom -> list Chatroom.

Lemma parses_Some (c : Chatroom) :
  parses getTime c = true <-> exists t, getTime (updated_time c) = Some t.
Proof.
  unfold parses. destruct (getTime (updated_time c)) as [t|].
  - split; [now exists t | reflexivity].
  - split; [discriminate | intros (t & Ht); discriminate].
Qed.

Lemma not_older_trans (a b c : Chatroom) :
  not_older getTime a b -> not_older getTime b c -> not_older getTime a c.
Proof.
  unfold not_older.
  destruct (getTime (updated_time a)), (getTime (updated_time b)),
    (getTime (updated_time c)); try tauto; lia.
Qed.

Lemma insert_by_recency_perm (c : Chatroom) (l : list Chatroom) :
  Permutation (c :: l) (insert_by_recency getTime c l).
Proof.
  induction l as [|d l IH]; simpl; [reflexivity|].
  destruct (by_recency getTime c d) as [v|]; [|reflexivity].
  destruct (0 <? v)%Z; [|reflexivity].
  rewrite perm_swap. now constructor.
Qed.

Lemma insertion_perm (rooms : list Chatroom) :
  Permutation rooms (fold_right (insert_by_recency getTime) [] rooms).
Proof.
  induction rooms as [|c rooms IH]; simpl; [reflexivity|].
  rewrite <- insert_by_recency_perm. now constructor.
Qed.

Lemma insert_by_recency_sorted (c : Chatroom) (l : list Chatroom) :
  parses getTime c = true ->
  Forall (fun d => parses getTime d = true) l ->
  StronglySorted (not_older getTime) l ->
  StronglySorted (not_older getTime) (insert_by_recency getTime c l).
Proof.
  intros Hc. apply parses_Some in Hc. destruct Hc as (tc & Hc).
  induction l as [|d l IH]; simpl; intros Hp Hs.
  - repeat constructor.
  - inversion Hs as [|? ? Hl Hd]; subst.
    inversion Hp as [|? ? Hpd Hpl]; subst.
    apply parses_Some in Hpd. destruct Hpd as (td & Htd).
    unfold by_recency. rewrite Htd, Hc.
    destruct (Z.ltb_spec 0 (td - tc)) as [Hlt|Hle].
    + constructor; [now apply IH|].
      rewrite Forall_forall in *. intros x Hx.
      apply (Permutation_in _ (Permutation_sym
                                 (insert_by_recency_perm c l))) in Hx.
      destruct Hx as [<- | Hx]; [|now apply Hd].
      unfold not_older. rewrite Htd, Hc. lia.
    + assert (Hcd : not_older getTime c d)
        by (unfold not_older; rewrite Htd, Hc; lia).
      constructor; [exact Hs|].
      constructor; [exact Hcd|].
      rewrite Forall_forall in *. intros x Hx.
      exact (not_older_trans c d x Hcd (Hd x Hx)).
Qed.

Lemma insertion_sorted (rooms : list Chatroom) :
  Forall (fun d => parses getTime d = true) rooms ->
  StronglySorted (not_older getTime)
    (fold_right (insert_by_recency getTime) [] rooms).
Proof.
  induction rooms as [|c rooms IH]; simpl; intros Hp; [constructor|].
  inversion Hp as [|? ? Hc Hr]; subst.
  apply insert_by_recency_sorted; [exact Hc | | now apply IH].
  rewrite Forall_forall in *. intros x Hx. apply Hr.
  exact (Permutation_in _ (Permutation_sym (insertion_perm rooms)) Hx).
Qed.

(** A listing whose timestamps all parse is sorted by insertion; any other
    is left to the runtime. *)
Lemma sort_by_recency_parsed (rooms : list Chatroom) :
  forallb (parses getTime) rooms = true ->
  sort_by_recency getTime runtimeSort rooms
  = fold_right (insert_by_recency getTime) [] rooms.
Proof. intros H. unfold sort_by_recency. now rewrite H. Qed.

Lemma sort_by_recency_unparsed (rooms : list Chatroom) :
  forallb (parses getTime) rooms = false ->
  sort_by_recency getTime runtimeSort rooms = runtimeSort rooms.
Proof. intros H. unfold sort_by_recency. now rewrite H. Qed.

Lemma sort_by_recency_perm (rooms : list Chatroom) :
  forallb (parses getTime) rooms = true ->
  Permutation rooms (sort_by_recency getTime runtimeSort rooms).
Proof.
  intros H. rewrite (sort_by_recency_parsed _ H). apply insertion_perm.
Qed.

(** The listing is most recent first. *)
Lemma sort_by_recency_sorted (rooms : list Chatroom) :
  forallb (parses getTime) rooms = true ->
  StronglySorted (not_older getTime)
    (sort_by_recency getTime runtimeSort rooms).
Proof.
  intros H. rewrite (sort_by_recency_parsed _ H).
  apply insertion_sorted. apply Forall_forall. intros x Hx.
  rewrite forallb_forall in H. now apply H.
Qed.

(** Whatever the timestamps, the listing holds the rooms it was given,
    provided the runtime's sort reorders and does no more. *)
Lemma sort_by_recency_permutes (rooms : list Chatroom) :
  (forall l, Permutation l (runtimeSort l)) ->
  Permutation rooms (sort_by_recency getTime runtimeSort rooms).
Proof.
  intros Hrt. destruct (forallb (parses getTime) rooms) eqn:E.
  - now apply sort_by_recency_perm.
  - rewrite (sort_by_recency_unparsed _ E). apply Hrt.
Qed.

(** C8, as amended.  On a confirmation of an admin selection the chosen
    admin and its masters are stored and a selection is asked for again.
    The conversation list begins with the scoped list: the rooms of the
    confirmation, as the runtime's sort orders them, most recent first when
    every timestamp parses.  When the scoped list has a personal
    ([staff_bot]) room of its own it is the whole list: nothing seen earlier
    is merged.  Otherwise only rooms that belong to the chosen admin (by
    [admin_id], or else [user_id]) follow it. *)
Theorem admin_selected_chatrooms (personal : list Chatroom) (admin : string)
  (rooms : list Chatroom) (ms : list HierarchyMaster) (h : Hook) :
  let h' := onmessage getTime runtimeSort personal
              (ServerAdminSelected admin rooms ms) h in
  let scoped := sort_by_recency getTime runtimeSort rooms in
  selectedAdminId h' = Some admin /\
  masters h' = ms /\
  needsSelection h' = true /\
  ((forall l, Permutation l (runtimeSort l)) -> Permutation rooms scoped) /\
  (forallb (parses getTime) rooms = true ->
   Permutation rooms scoped /\ StronglySorted (not_older getTime) scoped) /\
  (filter is_staff_bot scoped <> [] -> chatrooms h' = scoped) /\
  (exists rest, chatrooms h' = scoped ++ rest /\
                Forall (fun c => belongs_to admin c = true) rest).
Proof.
  simpl. unfold on_admin_selected.
  assert (Hsorted : forallb (parses getTime) rooms = true ->
            Permutation rooms (sort_by_recency getTime runtimeSort rooms) /\
            StronglySorted (not_older getTime)
              (sort_by_recency getTime runtimeSort rooms))
    by (intros Hp; split;
        [now apply sort_by_recency_perm | now apply sort_by_recency_sorted]).
  pose proof (sort_by_recency_permutes rooms) as Hperm.
  destruct (filter is_staff_bot (sort_by_recency getTime runtimeSort rooms))
    as [|x t] eqn:E; simpl.
  - split; [reflexivity|]. split; [reflexivity|]. split; [reflexivity|].
    split; [exact Hperm|].
    split; [exact Hsorted|].
    split; [intros Hne; now destruct Hne|].
    exists (filter (belongs_to admin) personal). split; [reflexivity|].
    apply Forall_forall. intros c Hc. now apply filter_In in Hc.
  - split; [reflexivity|]. split; [reflexivity|]. split; [reflexivity|].
    split; [exact Hperm|].
    split; [exact Hsorted|].
    split; [intros _; reflexivity|].
    exists []. split; [now rewrite app_nil_r | constructor].
Qed.

End AdminSelected.

(** C8, as stated, fails: the scoped list has a personal room of its own,
    so the personal room of the chosen admin seen earlier is not merged,
    although it belongs to that admin; and this whether the handler's closure
    holds the list seen or the empty list of the render it was created
    in. *)
Lemma admin_selected_without_merge :
  let seen := initialPersonalChatrooms joined_hook in
  let confirmation :=
    ServerAdminSelected "A1" [scoped_personal; scoped_normal] [] in
  let merged :=
    [scoped_normal; scoped_personal] ++ filter (belongs_to "A1") seen in
  seen = [seen_personal] /\
  merged = [scoped_normal; scoped_personal; seen_personal] /\
  chatrooms (onmessage day as_received seen confirmation joined_hook)
  = [scoped_normal; scoped_personal] /\
  chatrooms (onmessage day as_received [] confirmation joined_hook)
  = [scoped_normal; scoped_personal] /\
  chatrooms (onmessage day as_received seen confirmation joined_hook)
  <> merged /\
  chatrooms (onmessage day as_received [] confirmation joined_hook)
  <> merged.
Proof.
  split; [reflexivity|]. split; [reflexivity|]. split; [reflexivity|].
  split; [reflexivity|]. split; vm_compute; discriminate.
Qed.

(** A scoped list with a personal room of its own, its timestamps parsing:
    it is stored alone, most recent first. *)
Lemma admin_selected_chatrooms_witness :
  forallb (parses day) [scoped_personal; scoped_normal] = true /\
  chatrooms (onmessage day as_received [seen_personal]
               (ServerAdminSelected "A1" [scoped_personal; scoped_normal] [])
               joined_hook)
  = [scoped_normal; scoped_personal] /\
  StronglySorted (not_older day) [scoped_normal; scoped_personal] /\
  Permutation [scoped_personal; scoped_normal]
    [scoped_normal; scoped_personal].
Proof.
  pose proof (admin_selected_chatrooms day as_received [seen_personal] "A1"
                [scoped_personal; scoped_normal] [] joined_hook)
    as (_ & _ & _ & Hperm & Hsorted & Halone & _).
  split; [reflexivity|].
  split; [rewrite Halone; [reflexivity | discriminate]|].
  split; [exact (proj2 (Hsorted eq_refl))|].
  exact (Hperm (fun l => Permutation_refl l)).
Defined.

End ChatSocketFacts.

(** ** The call signalling engine *)

Module WebRTCFacts.

Import WebRTC.

Lemma CallState_eqb_spec (a b : CallState) :
  reflect (a = b) (CallState_eqb a b).
Proof. destruct a, b; simpl; constructor; congruence. Qed.

(** Case analysis on every [match] and [if] of a goal. *)
Ltac branches :=
  repeat match goal with
    | |- context [match ?x with _ => _ end] => destruct x eqn:?; simpl
    end.

Lemma run_reachable (env : Env) (chatId : option string) (l : list Op)
  (w : World) : reachable w -> reachable (run env chatId l w).
Proof.
  unfold run. revert w.
  induction l as [|o l IH]; simpl; intros w Hw; [exact Hw|].
  apply IH. now constructor.
Qed.

Lemma examples_reachable :
  reachable ringing_callee /\ reachable connected_callee /\
  reachable offering_caller.
Proof. repeat split; apply run_reachable; constructor. Qed.

(** *** The in-flight flag *)

(** [endCall] lowers the flag before it returns. *)
Lemma endCall_lowers_flag (r : State) (w : World) :
  isEndingCallRef (refs w) = false ->
  isEndingCallRef (refs (endCall r w)) = false.
Proof.
  intros H. unfold endCall. rewrite H. reflexivity.
Qed.

(** [open_media], when it succeeds, touches neither the state cells, the
    frames, the buffer of candidates nor the in-flight flag, and asks for the
    microphone once. *)
Lemma open_media_Some (env : Env) (w w1 : World) :
  open_media env w = Some w1 ->
  st w1 = st w /\ sent w1 = sent w /\ alerts w1 = alerts w /\
  pendingIceRef (refs w1) = pendingIceRef (refs w) /\
  isEndingCallRef (refs w1) = isEndingCallRef (refs w) /\
  callIdRef (refs w1) = callIdRef (refs w) /\
  exists stream,
    getUserMedia env = Some stream /\
    localStreamRef (refs w1) = Some stream /\
    peerConnectionRef (refs w1)
    = Some (pc_addTracks stream new_RTCPeerConnection) /\
    media w1 = media w ++ [GetUserMedia; PeerConnectionCreated].
Proof.
  unfold open_media. destruct (getUserMedia env) as [stream|]; [|discriminate].
  intros E. injection E as <-. simpl.
  repeat (split; [reflexivity|]).
  exists stream. repeat (split; [reflexivity|]).
  now rewrite <- app_assoc.
Qed.

(** Unfolding of the handlers down to [endCall] and [open_media]. *)
Ltac unfold_handlers :=
  unfold startCall, acceptCall, handleCallIncoming, handleCallRinging,
    handleCallAccepted, handleCallOffer, handleCallAnswer,
    handleIceCandidate, toggleMute, toggleRemoteAudio, onicecandidate,
    ontrack, onconnectionstatechange, unmount, catch_endCall.

(** No operation returns with the flag raised. *)
Lemma invoke_flag (env : Env) (chatId : option string) (o : Op) (r : State)
  (w : World) :
  isEndingCallRef (refs w) = false ->
  isEndingCallRef (refs (invoke env chatId o r w)) = false.
Proof.
  intros H.
  destruct o; simpl; unfold_handlers; simpl; branches;
    repeat match goal with
      | E : open_media _ _ = Some _ |- _ =>
          apply open_media_Some in E;
          destruct E as (_ & _ & _ & _ & E & _); rewrite H in E
      end;
    try exact H; try reflexivity; try assumption;
    try (apply endCall_lowers_flag; simpl; assumption).
Qed.

(** At the entry of every handler the flag is down: the guard of [endCall]
    never fires. *)
Lemma reachable_flag (w : World) :
  reachable w -> isEndingCallRef (refs w) = false.
Proof.
  induction 1 as [|env chatId o w Hw IH]; [reflexivity|].
  unfold step, render. simpl. now apply invoke_flag.
Qed.

(** *** Ringing *)

(** C10.  The ringing signal always overwrites the stored call id with the
    one it carries, whatever was stored before.  Received while idle it is
    taken for an incoming call: the engine goes to ringing, as callee, and
    shows the accept affordance.  Received in any other state it changes
    neither the call state, the initiator flag nor the affordance.  It
    sends nothing and touches no ref cell. *)
Theorem handleCallRinging_overwrites_call_id (incomingCallId : string)
  (w : World) :
  let w' := handleCallRinging incomingCallId w in
  callId (st w') = Some incomingCallId /\
  (callState (st w) = idle ->
   callState (st w') = ringing /\ isInitiator (st w') = false /\
   showIncomingCall (st w') = true) /\
  (callState (st w) <> idle ->
   callState (st w') = callState (st w) /\
   isInitiator (st w') = isInitiator (st w) /\
   showIncomingCall (st w') = showIncomingCall (st w)) /\
  refs w' = refs w /\ sent w' = sent w /\ media w' = media w.
Proof.
  unfold handleCallRinging. simpl.
  destruct (CallState_eqb_spec (callState (st w)) idle) as [E|Hne]; simpl.
  - split; [reflexivity|]. split; [intros _; now repeat split|].
    split; [intros Hne; now destruct Hne|]. now repeat split.
  - split; [reflexivity|]. split; [intros E; now destruct Hne|].
    split; [intros _; now repeat split|]. now repeat split.
Qed.

(** A ringing signal at mount, and one for another call during a call. *)
Lemma handleCallRinging_overwrites_call_id_witness :
  callState (st (handleCallRinging "c1" initial)) = ringing /\
  isInitiator (st (handleCallRinging "c1" initial)) = false /\
  showIncomingCall (st (handleCallRinging "c1" initial)) = true /\
  callId (st connected_callee) = Some "c1" /\
  callId (st (handleCallRinging "c2" connected_callee)) = Some "c2" /\
  callState (st (handleCallRinging "c2" connected_callee)) = connected.
Proof.
  pose proof (handleCallRinging_overwrites_call_id "c1" initial)
    as (_ & Hidle & _).
  pose proof (handleCallRinging_overwrites_call_id "c2" connected_callee)
    as (Hid & _ & Hbusy & _).
  destruct (Hidle eq_refl) as (H1 & H2 & H3).
  destruct Hbusy as (H4 & _); [discriminate|].
  split; [exact H1|]. split; [exact H2|]. split; [exact H3|].
  split; [reflexivity|]. split; [exact Hid | exact H4].
Defined.

(** *** One call at a time *)

(** C5.  The hook has one call id cell and one call state cell.  With a
    call state other than idle, [startCall] changes no state cell and no ref
    cell, sends no frame and makes no call on the media stack (when a
    conversation is selected the world is exactly what it was), and an
    incoming-call signal for a call id other than the stored one leaves the
    world exactly as it was. *)
Theorem busy_engine_ignores_second_call (chatId : option string)
  (incomingCallId : string) (r : State) (w : World) :
  callState r <> idle ->
  (st (startCall chatId r w) = st w /\
   refs (startCall chatId r w) = refs w /\
   sent (startCall chatId r w) = sent w /\
   media (startCall chatId r w) = media w) /\
  (truthy chatId = true -> startCall chatId r w = w) /\
  (callId r <> Some incomingCallId ->
   handleCallIncoming incomingCallId r w = w).
Proof.
  intros Hbusy.
  assert (Hb : CallState_eqb (callState r) idle = false)
    by (destruct (CallState_eqb_spec (callState r) idle); congruence).
  split; [|split].
  - unfold startCall. rewrite Hb. simpl.
    destruct (truthy chatId); simpl; now repeat split.
  - intros Hc. unfold startCall. rewrite Hc, Hb. reflexivity.
  - intros Hid. unfold handleCallIncoming. rewrite Hb. simpl.
    destruct (opt_string_eqb_spec (callId r) (Some incomingCallId));
      [contradiction | reflexivity].
Qed.

(** During a call, a second start and a second incoming call. *)
Lemma busy_engine_ignores_second_call_witness :
  callState (st connected_callee) = connected /\
  startCall room (st connected_callee) connected_callee = connected_callee /\
  sent (startCall None (st connected_callee) connected_callee)
  = sent connected_callee /\
  handleCallIncoming "c2" (st connected_callee) connected_callee
  = connected_callee.
Proof.
  pose proof (busy_engine_ignores_second_call room "c2"
                (st connected_callee) connected_callee
                ltac:(discriminate)) as (_ & Hstart & Hinc).
  pose proof (busy_engine_ignores_second_call None "c2"
                (st connected_callee) connected_callee
                ltac:(discriminate)) as ((_ & _ & Hsent & _) & _).
  split; [reflexivity|].
  split; [exact (Hstart eq_refl)|].
  split; [exact Hsent|].
  apply Hinc. discriminate.
Defined.

(** *** Accepting *)

(** C6, as stated, fails: in a connected call, [acceptCall] is not a no-op.
    It sends a second accept frame and takes the call back to connecting. *)
Lemma acceptCall_when_connected :
  let w := connected_callee in
  let w' := acceptCall (st w) w in
  callState (st w) = connected /\
  callId (st w) = Some "c1" /\
  sent w' = sent w ++ [ClientCallAccept "c1"] /\
  callState (st w') = connecting /\
  w' <> w.
Proof.
  split; [vm_compute; reflexivity|]. split; [vm_compute; reflexivity|].
  split; [vm_compute; reflexivity|]. split; [vm_compute; reflexivity|].
  intros E. apply (f_equal (fun x => callState (st x))) in E.
  vm_compute in E. discriminate.
Qed.

(** C6, as amended.  [acceptCall] looks at the call id only.  With a call id
    known, in whatever call state, it sends an accept frame carrying it, goes
    to connecting and clears the accept affordance, and does nothing else;
    with none known it leaves the world as it was. *)
Theorem acceptCall_needs_call_id_only (r : State) (w : World) :
  (truthy (callId r) = false -> acceptCall r w = w) /\
  (forall c, callId r = Some c -> c <> "" ->
   let w' := acceptCall r w in
   sent w' = sent w ++ [ClientCallAccept c] /\
   callState (st w') = connecting /\
   showIncomingCall (st w') = false /\
   callId (st w') = callId (st w) /\
   isInitiator (st w') = isInitiator (st w) /\
   isRemoteAudioEnabled (st w') = isRemoteAudioEnabled (st w) /\
   refs w' = refs w /\ media w' = media w /\ alerts w' = alerts w).
Proof.
  unfold acceptCall. split.
  - destruct (callId r) as [c|]; simpl; [|reflexivity].
    destruct (String.eqb c ""); [reflexivity | discriminate].
  - intros c Hc Hne. rewrite Hc.
    destruct (String.eqb_spec c ""); [contradiction|].
    simpl. now repeat split.
Qed.

(** Accepting at mount, when rung, and during a call. *)
Lemma acceptCall_needs_call_id_only_witness :
  acceptCall (st initial) initial = initial /\
  sent (acceptCall (st ringing_callee) ringing_callee)
  = [ClientCallAccept "c1"] /\
  callState (st (acceptCall (st ringing_callee) ringing_callee))
  = connecting /\
  sent (acceptCall (st connected_callee) connected_callee)
  = sent connected_callee ++ [ClientCallAccept "c1"].
Proof.
  pose proof (acceptCall_needs_call_id_only (st initial) initial)
    as (Hnone & _).
  pose proof (acceptCall_needs_call_id_only (st ringing_callee)
                ringing_callee) as (_ & Hring).
  pose proof (acceptCall_needs_call_id_only (st connected_callee)
                connected_callee) as (_ & Hconn).
  destruct (Hring "c1" eq_refl ltac:(discriminate)) as (H1 & H2 & _).
  destruct (Hconn "c1" eq_refl ltac:(discriminate)) as (H3 & _).
  split; [exact (Hnone eq_refl)|].
  split; [exact H1|]. split; [exact H2 | exact H3].
Defined.

(** *** Frames an operation can send *)

(** [endCall] sends nothing or one [call.end]. *)
Lemma endCall_sent (r : State) (w : World) :
  sent (endCall r w) = sent w \/
  exists c, sent (endCall r w) = sent w ++ [ClientCallEnd c].
Proof.
  unfold endCall. branches; eauto.
Qed.

(** Every operation sends at most one frame, and never a [call.reject]. *)
Lemma invoke_sent (env : Env) (chatId : option string) (o : Op) (r : State)
  (w : World) :
  sent (invoke env chatId o r w) = sent w \/
  exists f, sent (invoke env chatId o r w) = sent w ++ [f] /\
            is_call_reject f = false.
Proof.
  assert (Hend : forall w1, sent w1 = sent w ->
            sent (endCall r w1) = sent w \/
            exists f, sent (endCall r w1) = sent w ++ [f] /\
                      is_call_reject f = false).
  { intros w1 E. destruct (endCall_sent r w1) as [-> | (c & ->)];
      rewrite E; [now left | right]. now exists (ClientCallEnd c). }
  destruct o; simpl; unfold_handlers; simpl; branches;
    repeat match goal with
      | E : open_media _ _ = Some _ |- _ =>
          apply open_media_Some in E;
          destruct E as (_ & E & _)
      end;
    try (now left);
    try (apply Hend; simpl; (assumption || reflexivity));
    try (right; eexists; split;
         [simpl; try match goal with E : sent _ = sent _ |- _ =>
                       rewrite E end; reflexivity
         | reflexivity]).
Qed.

Lemma invoke_no_call_reject (env : Env) (chatId : option string) (o : Op)
  (r : State) (w : World) :
  filter is_call_reject (sent (invoke env chatId o r w))
  = filter is_call_reject (sent w).
Proof.
  destruct (invoke_sent env chatId o r w) as [-> | (f & -> & Hf)];
    [reflexivity|].
  rewrite filter_app. simpl. rewrite Hf. apply app_nil_r.
Qed.

(** What [endCall] does when it runs with a call id known. *)
Lemma endCall_with_call_id (r : State) (w : World) (c : string) :
  callId r = Some c -> c <> "" -> isEndingCallRef (refs w) = false ->
  sent (endCall r w) = sent w ++ [ClientCallEnd c] /\
  st (endCall r w)
  = {| callState := idle; isInitiator := false;
       isRemoteAudioEnabled := isRemoteAudioEnabled (st w);
       callId := None; showIncomingCall := false |} /\
  localStreamRef (refs (endCall r w)) = None /\
  pendingIceRef (refs (endCall r w)) = [] /\
  isEndingCallRef (refs (endCall r w)) = false /\
  acquisition_count (endCall r w) = acquisition_count w /\
  local_teardown_count (endCall r w)
  = local_teardown_count w
    + match localStreamRef (refs w) with Some _ => 1 | None => 0 end.
Proof.
  intros Hc Hne Hflag. unfold endCall. rewrite Hflag, Hc.
  destruct (String.eqb_spec c ""); [contradiction|].
  unfold acquisition_count, local_teardown_count.
  simpl.
  destruct (localStreamRef (refs w)) eqn:El; simpl;
    destruct (remoteStreamRef (refs w)); simpl;
    destruct (peerConnectionRef (refs w)); simpl;
    rewrite ?filter_app, ?length_app; simpl;
    repeat (split; [reflexivity || assumption|]); lia.
Qed.

(** *** Declining a call *)

(** C7, as stated, fails: rung for call ["c1"], the callee has no operation
    that sends a [call.reject], whatever the media stack answers. *)
Lemma no_operation_rejects :
  callState (st ringing_callee) = ringing /\
  callId (st ringing_callee) = Some "c1" /\
  isInitiator (st ringing_callee) = false /\
  ~ (exists (env : Env) (chatId : option string) (o : Op),
       In (ClientCallReject "c1")
         (sent (invoke env chatId o (st ringing_callee) ringing_callee))).
Proof.
  split; [vm_compute; reflexivity|]. split; [vm_compute; reflexivity|].
  split; [vm_compute; reflexivity|].
  intros (env & chatId & o & Hin).
  assert (Hf : In (ClientCallReject "c1")
                 (filter is_call_reject
                    (sent (invoke env chatId o (st ringing_callee)
                             ringing_callee))))
    by (apply filter_In; now split).
  rewrite invoke_no_call_reject in Hf. vm_compute in Hf. exact Hf.
Qed.

(** C7, as amended.  The engine has no reject operation: no operation, in
    any world, sends a [call.reject].  The callee declines with [endCall]:
    invoked with a call id known it sends a [call.end] carrying it and goes
    to idle, and the microphone is not asked for. *)
Theorem decline_is_endCall (env : Env) (chatId : option string) (o : Op)
  (r : State) (w : World) :
  filter is_call_reject (sent (invoke env chatId o r w))
  = filter is_call_reject (sent w) /\
  (forall c, reachable w -> callId r = Some c -> c <> "" ->
   sent (endCall r w) = sent w ++ [ClientCallEnd c] /\
   callState (st (endCall r w)) = idle /\
   acquisition_count (endCall r w) = acquisition_count w).
Proof.
  split; [apply invoke_no_call_reject|].
  intros c Hw Hc Hne.
  destruct (endCall_with_call_id r w Hc Hne (reachable_flag Hw))
    as (Hs & Hst & _ & _ & _ & Ha & _).
  rewrite Hst. now repeat split.
Qed.

(** The callee, rung for a call, declines. *)
Lemma decline_is_endCall_witness :
  filter is_call_reject
    (sent (invoke env_ok room AcceptCall (st ringing_callee) ringing_callee))
  = [] /\
  sent (endCall (st ringing_callee) ringing_callee) = [ClientCallEnd "c1"] /\
  callState (st (endCall (st ringing_callee) ringing_callee)) = idle /\
  acquisition_count (endCall (st ringing_callee) ringing_callee) = 0.
Proof.
  pose proof (decline_is_endCall env_ok room AcceptCall (st ringing_callee)
                ringing_callee) as (Hno & Hend).
  destruct (Hend "c1" (proj1 examples_reachable) eq_refl
              ltac:(discriminate)) as (H1 & H2 & H3).
  split; [exact Hno|]. split; [exact H1|]. split; [exact H2 | exact H3].
Defined.

(** *** Ending a call twice *)

Lemma endCall_without_call_id (r : State) (w : World) :
  truthy (callId r) = false -> sent (endCall r w) = sent w.
Proof.
  intros Hc. unfold endCall.
  destruct (isEndingCallRef (refs w)); [reflexivity|].
  destruct (callId r) as [c|]; simpl in Hc.
  - destruct (String.eqb c ""); [|discriminate]. simpl. branches; reflexivity.
  - simpl. branches; reflexivity.
Qed.

(** Two calls of the [endCall] of one render, with a call id known: the
    flag is down again when the second starts and the closure still holds
    the call id, so the [call.end] goes out twice.  The local stream was let
    go of by the first call, so its tracks are stopped once. *)
Lemma endCall_twice_same_render (r : State) (w : World) (c : string) :
  callId r = Some c -> c <> "" -> isEndingCallRef (refs w) = false ->
  sent (endCall r (endCall r w))
  = sent w ++ [ClientCallEnd c; ClientCallEnd c] /\
  local_teardown_count (endCall r (endCall r w))
  = local_teardown_count w
    + match localStreamRef (refs w) with Some _ => 1 | None => 0 end.
Proof.
  intros Hc Hne Hflag.
  destruct (endCall_with_call_id r w Hc Hne Hflag)
    as (Hs1 & _ & Hl1 & _ & Hf1 & _ & Ht1).
  destruct (endCall_with_call_id r (endCall r w) Hc Hne Hf1)
    as (Hs2 & _ & _ & _ & _ & _ & Ht2).
  rewrite Hs2, Hs1, Ht2, Ht1, Hl1, <- app_assoc. split; [reflexivity | lia].
Qed.

(** With a render between the two calls the second closure holds no call
    id, and one [call.end] goes out. *)
Lemma endCall_twice_rerendered (env : Env) (chatId : option string)
  (w : World) (c : string) :
  callId (st w) = Some c -> c <> "" -> isEndingCallRef (refs w) = false ->
  sent (step env chatId EndCall (step env chatId EndCall w))
  = sent w ++ [ClientCallEnd c].
Proof.
  intros Hc Hne Hflag.
  destruct (endCall_with_call_id (st w) w Hc Hne Hflag) as (Hs & Hst & _).
  unfold step, render. simpl. rewrite endCall_without_call_id.
  - simpl. exact Hs.
  - simpl. now rewrite Hst.
Qed.

(** C2, on the code.  In a connected call, two calls of [endCall] in a row,
    before any render, send the [call.end] of the call twice; the tracks of
    the local stream are stopped once. *)
Theorem endCall_twice_sends_call_end_twice :
  let w := connected_callee in
  let twice := endCall (st w) (endCall (st w) w) in
  reachable w /\
  callState (st w) = connected /\
  sent twice = sent w ++ [ClientCallEnd "c1"; ClientCallEnd "c1"] /\
  call_end_count w = 0 /\
  call_end_count twice = 2 /\
  local_teardown_count w = 0 /\
  local_teardown_count twice = 1.
Proof.
  split; [apply examples_reachable|].
  split; [vm_compute; reflexivity|].
  split.
  { apply (endCall_twice_same_render (st connected_callee)
             connected_callee (c := "c1"));
      [vm_compute; reflexivity | discriminate | vm_compute; reflexivity]. }
  repeat split; vm_compute; reflexivity.
Qed.

(** *** Candidates *)

(** The flush hands the buffer to [addIceCandidate] from its front to its
    back. *)
Lemma flush_spec (env : Env) (pending : list IceCandidate)
  (pc : PeerConnection) :
  iceCandidates (flush env pending pc)
  = iceCandidates pc ++ filter (addIceCandidate env) pending /\
  remoteDescription (flush env pending pc) = remoteDescription pc.
Proof.
  revert pc. induction pending as [|c rest IH]; intros pc; simpl.
  - now rewrite app_nil_r.
  - destruct (IH (if addIceCandidate env c
                  then pc_addIceCandidate c pc else pc)) as [-> ->].
    destruct (addIceCandidate env c); simpl; [|now split].
    now rewrite <- app_assoc.
Qed.

(** A candidate that arrives while no remote description is set goes to the
    back of the buffer. *)
Lemma handleIceCandidate_buffers (env : Env) (c : IceCandidate) (w : World) :
  match peerConnectionRef (refs w) with
  | Some pc => remoteDescription pc = None
  | None => True
  end ->
  pendingIceRef (refs (handleIceCandidate env (Some c) w))
  = pendingIceRef (refs w) ++ [c] /\
  peerConnectionRef (refs (handleIceCandidate env (Some c) w))
  = peerConnectionRef (refs w).
Proof.
  unfold handleIceCandidate.
  destruct (peerConnectionRef (refs w)) as [pc|] eqn:E; simpl.
  - intros ->. simpl. now rewrite E.
  - intros _. now rewrite E.
Qed.

(** The callee's path: when the offer is accepted the buffer is handed over,
    oldest first, and emptied. *)
Lemma handleCallOffer_flushes (env : Env) (offer answer : Sdp) (r : State)
  (w : World) (c : string) (stream : MediaStream) :
  callId r = Some c -> c <> "" ->
  getUserMedia env = Some stream ->
  setRemoteDescription env offer = true ->
  createAnswer env = Some answer ->
  setLocalDescription env answer = true ->
  let w' := handleCallOffer env offer r w in
  pendingIceRef (refs w') = [] /\
  option_map iceCandidates (peerConnectionRef (refs w'))
  = Some (filter (addIceCandidate env) (pendingIceRef (refs w))) /\
  option_map remoteDescription (peerConnectionRef (refs w'))
  = Some (Some offer).
Proof.
  intros Hc Hne Hm Hr Ha Hl. unfold handleCallOffer, open_media.
  rewrite Hc, Hm. destruct (String.eqb_spec c ""); [contradiction|].
  simpl. rewrite Hr, Ha, Hl. simpl.
  split; [reflexivity|].
  now destruct (flush_spec env (pendingIceRef (refs w))
                  (pc_setRemoteDescription offer
                     (pc_addTracks stream new_RTCPeerConnection)))
    as [-> ->].
Qed.

(** Candidates that arrive one after the other while no remote
    description is set queue up in their order of arrival. *)
Lemma run_candidates_buffered (env : Env) (chatId : option string)
  (ks : list IceCandidate) (w : World) :
  match peerConnectionRef (refs w) with
  | Some pc => remoteDescription pc = None
  | None => True
  end ->
  let w' := run env chatId (candidates ks) w in
  pendingIceRef (refs w') = pendingIceRef (refs w) ++ ks /\
  peerConnectionRef (refs w') = peerConnectionRef (refs w) /\
  st w' = st w.
Proof.
  unfold run. revert w.
  induction ks as [|k ks IH]; intros w Hpc; simpl.
  - now rewrite app_nil_r.
  - destruct (handleIceCandidate_buffers env k w Hpc) as [Hp Hc].
    specialize (IH (step env chatId (HandleIceCandidate (Some k)) w)).
    unfold step, render in *. simpl in *.
    rewrite Hp, Hc in IH. destruct IH as (-> & -> & ->); [exact Hpc|].
    rewrite <- app_assoc. repeat split.
    unfold handleIceCandidate. branches; reflexivity.
Qed.

(** Candidates that arrive once the remote description is set are applied
    on arrival, in their order of arrival. *)
Lemma run_candidates_applied (env : Env) (chatId : option string)
  (ks : list IceCandidate) (w : World) (pc : PeerConnection) (d : Sdp) :
  (forall k, addIceCandidate env k = true) ->
  peerConnectionRef (refs w) = Some pc -> remoteDescription pc = Some d ->
  let w' := run env chatId (candidates ks) w in
  option_map iceCandidates (peerConnectionRef (refs w'))
  = Some (iceCandidates pc ++ ks) /\
  pendingIceRef (refs w') = pendingIceRef (refs w).
Proof.
  intros Hok. unfold run. revert w pc.
  induction ks as [|k ks IH]; intros w pc Hpc Hd; simpl.
  - rewrite Hpc, app_nil_r. now split.
  - assert (E : step env chatId (HandleIceCandidate (Some k)) w
                = render (set_peerConnectionRef
                            (Some (pc_addIceCandidate k pc)) w)).
    { unfold step. simpl. unfold handleIceCandidate.
      now rewrite Hpc, Hd, Hok. }
    rewrite E.
    destruct (IH (render (set_peerConnectionRef
                            (Some (pc_addIceCandidate k pc)) w))
                (pc_addIceCandidate k pc)) as [-> ->];
      [reflexivity | exact Hd|].
    simpl. now rewrite <- app_assoc.
Qed.

Lemma run_app (env : Env) (chatId : option string) (l1 l2 : list Op)
  (w : World) :
  run env chatId (l1 ++ l2) w = run env chatId l2 (run env chatId l1 w).
Proof. unfold run. apply fold_left_app. Qed.

(** The callee's side, whole: with a media stack that refuses nothing, a
    call id known and no peer connection yet, whatever candidates arrive
    before the offer and whatever candidates arrive after it, once they have
    all arrived each has been applied once, in the order of arrival, and the
    buffer is empty. *)
Lemma callee_candidates_in_order (env : Env) (chatId : option string)
  (before after : list IceCandidate) (offer : Sdp) (w : World) :
  cooperative env ->
  truthy (callId (st w)) = true ->
  peerConnectionRef (refs w) = None -> pendingIceRef (refs w) = [] ->
  let w' := run env chatId
              (candidates before ++ [HandleCallOffer offer]
               ++ candidates after) w in
  option_map iceCandidates (peerConnectionRef (refs w'))
  = Some (before ++ after) /\
  pendingIceRef (refs w') = [].
Proof.
  intros ((stream & Hm) & (answer & Ha) & Hl & Hr & Hok) Hid Hpc Hpend.
  apply truthy_Some in Hid. destruct Hid as (c & Hc & Hne).
  rewrite run_app.
  change (run env chatId ([HandleCallOffer offer] ++ candidates after)
            (run env chatId (candidates before) w))
    with (run env chatId (candidates after)
            (step env chatId (HandleCallOffer offer)
               (run env chatId (candidates before) w))).
  destruct (run_candidates_buffered env chatId before w) as (Hb1 & Hb2 & Hb3);
    [now rewrite Hpc|].
  set (w1 := run env chatId (candidates before) w) in *.
  rewrite Hpend in Hb1. simpl in Hb1. rewrite Hpc in Hb2.
  assert (Hc1 : callId (st w1) = Some c) by now rewrite Hb3.
  destruct (handleCallOffer_flushes env offer (st w1) w1 Hc1 Hne Hm (Hr offer)
              Ha (Hl answer)) as (Hf1 & Hf2 & Hf3).
  set (w2 := step env chatId (HandleCallOffer offer) w1).
  assert (E2 : w2 = render (handleCallOffer env offer (st w1) w1))
    by reflexivity.
  destruct (peerConnectionRef (refs (handleCallOffer env offer (st w1) w1)))
    as [pc|] eqn:Epc; [|discriminate].
  simpl in Hf2, Hf3. injection Hf2 as Hf2. injection Hf3 as Hf3.
  destruct (run_candidates_applied env chatId after w2 (pc := pc)
              (d := offer) Hok) as [Ha1 Ha2].
  - rewrite E2. unfold render. simpl. exact Epc.
  - exact Hf3.
  - cbv zeta. rewrite Ha1, Ha2, E2. unfold render. simpl.
    rewrite Hf1, Hf2, Hb1.
    replace (filter (addIceCandidate env) before) with before; [now split|].
    clear -Hok. induction before as [|k ks IH]; simpl; [reflexivity|].
    now rewrite Hok, <- IH.
Qed.

(** The caller's path: when the answer is accepted the buffer stays as it
    is and no candidate is handed over. *)
Lemma handleCallAnswer_keeps_buffer (env : Env) (answer : Sdp) (r : State)
  (w : World) (pc : PeerConnection) :
  peerConnectionRef (refs w) = Some pc ->
  setRemoteDescription env answer = true ->
  let w' := handleCallAnswer env (Some answer) r w in
  pendingIceRef (refs w') = pendingIceRef (refs w) /\
  peerConnectionRef (refs w') = Some (pc_setRemoteDescription answer pc) /\
  option_map iceCandidates (peerConnectionRef (refs w'))
  = Some (iceCandidates pc).
Proof.
  intros Hpc Hr. unfold handleCallAnswer. rewrite Hpc, Hr. simpl.
  now repeat split.
Qed.

(** The caller's side, whole: with a peer connection waiting for its
    answer, the candidates that arrive before the answer are all still in
    the buffer after the candidates that arrive after it have been
    applied. *)
Lemma caller_candidates_left_behind (env : Env) (chatId : option string)
  (before after : list IceCandidate) (answer : Sdp) (w : World)
  (pc : PeerConnection) :
  (forall d, setRemoteDescription env d = true) ->
  (forall k, addIceCandidate env k = true) ->
  peerConnectionRef (refs w) = Some pc -> remoteDescription pc = None ->
  let w' := run env chatId
              (candidates before ++ [HandleCallAnswer (Some answer)]
               ++ candidates after) w in
  pendingIceRef (refs w') = pendingIceRef (refs w) ++ before /\
  option_map iceCandidates (peerConnectionRef (refs w'))
  = Some (iceCandidates pc ++ after).
Proof.
  intros Hr Hok Hpc Hd. cbv zeta.
  rewrite run_app.
  change (run env chatId ([HandleCallAnswer (Some answer)] ++ candidates after)
            (run env chatId (candidates before) w))
    with (run env chatId (candidates after)
            (step env chatId (HandleCallAnswer (Some answer))
               (run env chatId (candidates before) w))).
  destruct (run_candidates_buffered env chatId before w) as (Hb1 & Hb2 & _);
    [now rewrite Hpc|].
  set (w1 := run env chatId (candidates before) w) in *.
  rewrite Hpc in Hb2.
  destruct (handleCallAnswer_keeps_buffer env answer (st w1) w1 Hb2
              (Hr answer)) as (Hk1 & Hk2 & _).
  set (w2 := step env chatId (HandleCallAnswer (Some answer)) w1).
  assert (E2 : w2 = render (handleCallAnswer env (Some answer) (st w1) w1))
    by reflexivity.
  destruct (run_candidates_applied env chatId after w2
              (pc := pc_setRemoteDescription answer pc) (d := answer) Hok)
    as [Ha1 Ha2].
  - rewrite E2. unfold render. simpl. exact Hk2.
  - reflexivity.
  - rewrite Ha1, Ha2, E2. unfold render. simpl. rewrite Hk1, Hb1.
    now split.
Qed.

(** C1, on the code.  On the caller's side the candidate that arrived
    before the answer is still in the buffer after the answer has been set
    as the remote description, and the later candidate has been applied
    ahead of it; ending the call then discards it, so it is never
    applied. *)
Theorem caller_buffer_not_flushed_on_answer :
  let w := run env_ok room caller_trace initial in
  let w' := step env_ok room EndCall w in
  option_map remoteDescription (peerConnectionRef (refs w))
  = Some (Some "answer") /\
  option_map iceCandidates (peerConnectionRef (refs w)) = Some ["k2"] /\
  pendingIceRef (refs w) = ["k1"] /\
  pendingIceRef (refs w') = [] /\
  peerConnectionRef (refs w') = None /\
  last (media w') GetUserMedia
  = PeerConnectionClosed
      {| senders := ["mic"]; localDescription := Some "offer";
         remoteDescription := Some "answer"; iceCandidates := ["k2"] |}.
Proof.
  repeat split; vm_compute; reflexivity.
Qed.

End WebRTCFacts.

(** ** More on the transport session *)

Module ChatSocketMore.

Import ChatSocket ChatSocketObs ChatSocketFacts.

(** *** Listings *)

(** Inserting a room keeps the rooms of every timestamp in their order,
    the new room first among those of its own. *)
Lemma insert_by_recency_stable (getTime : string -> option Z) (t : Z)
  (c : Chatroom) (l : list Chatroom) :
  parses getTime c = true ->
  Forall (fun d => parses getTime d = true) l ->
  filter (at_time getTime t) (insert_by_recency getTime c l)
  = filter (at_time getTime t) (c :: l).
Proof.
  intros Hc. apply parses_Some in Hc. destruct Hc as (tc & Hc).
  induction l as [|d l IH]; intros Hp; [reflexivity|].
  inversion Hp as [|? ? Hpd Hpl]; subst.
  apply parses_Some in Hpd. destruct Hpd as (td & Htd).
  simpl. unfold by_recency. rewrite Htd, Hc.
  destruct (Z.ltb_spec 0 (td - tc)) as [Hlt|Hle]; [|reflexivity].
  simpl. rewrite (IH Hpl). simpl. unfold at_time. rewrite Htd, Hc.
  destruct (Z.eqb_spec tc t) as [Ec|Hne]; [|reflexivity].
  destruct (Z.eqb_spec td t) as [Ed|Hne']; [lia | reflexivity].
Qed.

Lemma sort_by_recency_stable (getTime : string -> option Z)
  (runtimeSort : list Chatroom -> list Chatroom) (t : Z)
  (rooms : list Chatroom) :
  forallb (parses getTime) rooms = true ->
  filter (at_time getTime t) (sort_by_recency getTime runtimeSort rooms)
  = filter (at_time getTime t) rooms.
Proof.
  intros H. rewrite (sort_by_recency_parsed _ _ _ H).
  assert (Hp : Forall (fun d => parses getTime d = true) rooms)
    by (apply Forall_forall; intros x Hx;
        rewrite forallb_forall in H; now apply H).
  clear H. induction Hp as [|c rooms Hc Hp IH]; [reflexivity|].
  simpl. rewrite insert_by_recency_stable.
  - simpl. now rewrite IH.
  - exact Hc.
  - apply Forall_forall. intros x Hx. rewrite Forall_forall in Hp.
    apply Hp.
    exact (Permutation_in _ (Permutation_sym (insertion_perm _ rooms)) Hx).
Qed.

(** X1.  The list the dispatcher stores on a [master_selected] frame, and on
    a [joined] frame that asks for a selection.  When every timestamp of the
    frame parses, it holds exactly the rooms of the frame, most recent
    first, rooms of equal time in the order the frame gave them.  When one
    does not, the comparator yields [NaN] and the list is in whatever order
    the runtime's sort leaves: the rooms of the frame still, if that sort
    reorders and does no more.  Either way both frames store the same list,
    the [joined] frame sets aside the personal rooms of that list, in the
    same order, and a [joined] listing that asks for no selection changes
    nothing. *)
Theorem listings_are_stored_by_recency (getTime : string -> option Z)
  (runtimeSort : list Chatroom -> list Chatroom)
  (personal rooms : list Chatroom) (master : string)
  (hier : option Hierarchy) (h : Hook) :
  let m := onmessage getTime runtimeSort personal
             (ServerMasterSelected master rooms) h in
  let j := onmessage getTime runtimeSort personal
             (ServerJoinedAdminList true rooms hier) h in
  chatrooms m = chatrooms j /\
  ((forall l, Permutation l (runtimeSort l)) ->
   Permutation rooms (chatrooms m)) /\
  (forallb (parses getTime) rooms = true ->
   Permutation rooms (chatrooms m) /\
   StronglySorted (not_older getTime) (chatrooms m) /\
   (forall t, filter (at_time getTime t) (chatrooms m)
              = filter (at_time getTime t) rooms)) /\
  (forallb (parses getTime) rooms = false ->
   chatrooms m = runtimeSort rooms) /\
  selectedMasterId m = Some master /\
  needsSelection m = true /\ needsSelection j = true /\
  initialPersonalChatrooms j = filter is_staff_bot (chatrooms j) /\
  initialPersonalChatrooms m = initialPersonalChatrooms h /\
  onmessage getTime runtimeSort personal
    (ServerJoinedAdminList false rooms hier) h = h.
Proof.
  assert (Hj : chatrooms (onmessage getTime runtimeSort personal
                            (ServerJoinedAdminList true rooms hier) h)
               = sort_by_recency getTime runtimeSort rooms)
    by (simpl; destruct hier; reflexivity).
  cbv zeta. rewrite Hj. simpl.
  split; [reflexivity|].
  split; [now apply sort_by_recency_permutes|].
  split.
  { intros Hp.
    split; [now apply sort_by_recency_perm|].
    split; [now apply sort_by_recency_sorted|].
    intros t. now apply sort_by_recency_stable. }
  split; [intros Hp; now apply sort_by_recency_unparsed|].
  repeat (split; [now destruct hier|]). reflexivity.
Qed.

(** Three rooms whose days parse come out most recent first; with a day
    that does not parse the order is the runtime's. *)
Lemma listings_are_stored_by_recency_witness :
  chatrooms (onmessage day as_received []
               (ServerMasterSelected "M7"
                  [seen_personal; scoped_personal; scoped_normal]) initial)
  = [scoped_normal; scoped_personal; seen_personal] /\
  StronglySorted (not_older day)
    [scoped_normal; scoped_personal; seen_personal] /\
  chatrooms (onmessage day as_received []
               (ServerMasterSelected "M7"
                  [seen_personal; room "r9" "U9" None "soon"; scoped_normal])
               initial)
  = [seen_personal; room "r9" "U9" None "soon"; scoped_normal].
Proof.
  pose proof (listings_are_stored_by_recency day as_received []
                [seen_personal; scoped_personal; scoped_normal] "M7" None
                initial) as (_ & Hperm & Hsorted & _).
  pose proof (listings_are_stored_by_recency day as_received []
                [seen_personal; room "r9" "U9" None "soon"; scoped_normal]
                "M7" None initial) as (_ & _ & _ & Hruntime & _).
  pose proof (Hperm (fun l => Permutation_refl l)) as _.
  split; [reflexivity|].
  split; [exact (proj1 (proj2 (Hsorted eq_refl)))|].
  exact (Hruntime eq_refl).
Defined.

(** *** Reconnects *)

Lemma backoff_range (r : nat) : (1000 <= backoff r <= 15000)%Z.
Proof.
  unfold backoff.
  assert (0 < 2 ^ Z.of_nat r)%Z by (apply Z.pow_pos_nonneg; lia).
  lia.
Qed.

Lemma backoff_mono (r r' : nat) : r <= r' -> (backoff r <= backoff r')%Z.
Proof.
  intros Hle. unfold backoff.
  assert (2 ^ Z.of_nat r <= 2 ^ Z.of_nat r')%Z
    by (apply Z.pow_le_mono_r; lia).
  lia.
Qed.

(** What an action does to the retry counter and to the reconnects
    scheduled: nothing, a reset of the counter, or one more reconnect. *)
Lemma act_retry (stringify : ClientEvent -> string) (getTime : string ->
    option Z)
  (runtimeSort : list Chatroom -> list Chatroom)
  (a : Action) (h : Hook) :
  let h' := act stringify getTime runtimeSort a h in
  (retryRef h' = retryRef h /\ timeouts h' = timeouts h) \/
  (retryRef h' = 0 /\ timeouts h' = timeouts h) \/
  (retryRef h < 5 /\ retryRef h' = retryRef h + 1 /\
   timeouts h' = timeouts h ++ [backoff (retryRef h)]).
Proof.
  destruct a as [token|r| | |personal data|payload| |ad|ma ad| | | ]; simpl.
  - unfold connect. destruct (String.eqb token ""); now left.
  - unfold socket_becomes. destruct (wsRef h); now left.
  - right. now left.
  - destruct (onclose_unfold h) as [Hlt Hge].
    destruct (retryRef h <? 5) eqn:E.
    + right. right. apply Nat.ltb_lt in E. destruct Hlt; auto.
    + left. destruct Hge; auto.
  - destruct data as [id|needs rooms hier|id|ad rooms ms|ma rooms|m|c| ];
      simpl; try now left.
    + destruct needs; [|now left]. destruct hier; now left.
    + unfold on_admin_selected. destruct (Nat.eqb _ 0); now left.
  - unfold send. destruct (wsRef h) as [s|]; [|now left].
    destruct (ReadyState_eqb (readyState s) OPEN); now left.
  - unfold keepalive_tick, send. destruct (wsRef h) as [s|]; [|now left].
    destruct (ReadyState_eqb (readyState s) OPEN); now left.
  - unfold selectAdmin, send. destruct (wsRef h) as [s|]; [|now left].
    destruct (ReadyState_eqb (readyState s) OPEN); now left.
  - unfold selectMaster, send. destruct (wsRef h) as [s|]; [|now left].
    destruct (ReadyState_eqb (readyState s) OPEN); now left.
  - now left.
  - now left.
  - now left.
Qed.

Lemma run_retry (stringify : ClientEvent -> string) (getTime : string ->
    option Z)
  (runtimeSort : list Chatroom -> list Chatroom)
  (l : list Action) (h : Hook) :
  retryRef h <= 5 ->
  Forall (fun d => 1000 <= d <= 15000)%Z (timeouts h) ->
  retryRef (run stringify getTime runtimeSort l h) <= 5 /\
  Forall (fun d => 1000 <= d <= 15000)%Z
    (timeouts (run stringify getTime runtimeSort l h)).
Proof.
  unfold run. revert h.
  induction l as [|a l IH]; simpl; intros h Hr Ht; [now split|].
  apply IH;
    destruct (act_retry stringify getTime runtimeSort a h)
      as [[Er Et] | [[Er Et] | (Hlt & Er & Et)]];
    rewrite ?Er, ?Et; try assumption; try lia.
  apply Forall_app. split; [assumption|].
  constructor; [apply backoff_range | constructor].
Qed.

Lemma closes_in_a_row (n : nat) (h : Hook) :
  retryRef h <= 5 ->
  List.length (timeouts (Nat.iter n onclose h))
  + (5 - retryRef (Nat.iter n onclose h))
  <= List.length (timeouts h) + (5 - retryRef h).
Proof.
  intros Hr. induction n as [|n IH]; [simpl; lia|].
  change (Nat.iter (S n) onclose h) with (onclose (Nat.iter n onclose h)).
  destruct (onclose_unfold (Nat.iter n onclose h)) as [Hlt Hge].
  destruct (retryRef (Nat.iter n onclose h) <? 5) eqn:E.
  - apply Nat.ltb_lt in E. destruct Hlt as [Er Et]; [reflexivity|].
    rewrite Er, Et, length_app. cbn [List.length]. lia.
  - destruct Hge as [Er Et]; [reflexivity|]. rewrite Er, Et. exact IH.
Qed.

(** X2.  Whatever the hook goes through from its mount, the retry counter
    never exceeds 5 and every reconnect was scheduled with a delay between
    one and fifteen seconds.  From then on, however many closes follow one
    another, they schedule no more reconnects than the counter is short of
    5.  The delay never shrinks as the counter grows and is fifteen seconds
    from the fifth reconnect on. *)
Theorem reconnects_are_bounded (stringify : ClientEvent -> string)
  (getTime : string -> option Z)
  (runtimeSort : list Chatroom -> list Chatroom) (l : list Action)
  (n r r' : nat) :
  let h := run stringify getTime runtimeSort l initial in
  retryRef h <= 5 /\
  Forall (fun d => 1000 <= d <= 15000)%Z (timeouts h) /\
  List.length (timeouts (Nat.iter n onclose h))
  <= List.length (timeouts h) + (5 - retryRef h) /\
  (r <= r' -> (backoff r <= backoff r')%Z) /\
  (4 <= r -> backoff r = 15000%Z).
Proof.
  cbv zeta.
  destruct (run_retry stringify getTime runtimeSort l initial) as [Hr Ht];
    [simpl; lia | constructor |].
  split; [exact Hr|]. split; [exact Ht|].
  split; [pose proof (closes_in_a_row n _ Hr); lia|].
  split; [apply backoff_mono|].
  intros H4. unfold backoff.
  assert (2 ^ 4 <= 2 ^ Z.of_nat r)%Z by (apply Z.pow_le_mono_r; lia).
  change (2 ^ 4)%Z with 16%Z in *. lia.
Qed.

(** Growth and saturation of the delay, at the fourth and fifth
    reconnect. *)
Lemma reconnects_are_bounded_witness :
  (backoff 3 <= backoff 4)%Z /\ backoff 4 = 15000%Z.
Proof.
  pose proof (reconnects_are_bounded type_of day as_received [] 0 3 4)
    as (_ & _ & _ & Hm & _).
  pose proof (reconnects_are_bounded type_of day as_received [] 0 4 4)
    as (_ & _ & _ & _ & Hs).
  split; [apply Hm; lia | apply Hs; lia].
Defined.

(** *** The item collection, frame after frame *)

Lemma seen_in_ids (id : option string) (prev : list ConversationItem) :
  existsb (fun msg => opt_string_eqb (message_id msg) id) prev
  = existsb (opt_string_eqb id) (ids prev).
Proof.
  unfold ids. induction prev as [|x prev IH]; simpl; [reflexivity|].
  rewrite IH. f_equal.
  destruct (opt_string_eqb_spec (message_id x) id),
    (opt_string_eqb_spec id (message_id x)); congruence.
Qed.

(** One frame: the tokens of the collection grow by the token of the
    frame exactly when the frame makes an item and its token is new. *)
Lemma add_message_ids (m : ServerMessage) (prev : list ConversationItem) :
  ids (add_message m prev)
  = ids prev
    ++ (if recognised m
           && negb (existsb (opt_string_eqb (sm_message_id m)) (ids prev))
        then [sm_message_id m] else []).
Proof.
  unfold add_message, recognised. rewrite seen_in_ids.
  destruct (existsb (opt_string_eqb (sm_message_id m)) (ids prev)).
  - rewrite andb_false_r. now rewrite app_nil_r.
  - rewrite andb_true_r. unfold ids.
    destruct (sm_is_file m); simpl.
    + destruct (opt_string_eqb (sm_kind m) (Some "file")); simpl;
        [now rewrite map_app|].
      destruct (opt_string_eqb (sm_kind m) (Some "audio")); simpl;
        [now rewrite map_app | now rewrite app_nil_r].
    + now rewrite map_app.
Qed.

(** X3.  The collection after a sequence of content frames: its identity
    tokens are those it had, followed by the token of each frame that makes
    an item and whose token had not been seen, in the order of arrival.  A
    frame the dispatcher makes no item of leaves no trace: a later frame
    with its token is taken. *)
Theorem collection_lists_first_arrivals (ms : list ServerMessage)
  (prev : list ConversationItem) :
  ids (receive ms prev) = ids prev ++ first_occurrences (ids prev) ms /\
  exists added, receive ms prev = prev ++ added /\
                List.length added <= List.length ms.
Proof.
  unfold receive. revert prev.
  induction ms as [|m ms IH]; intros prev; simpl.
  - rewrite app_nil_r. split; [reflexivity|]. exists []. now rewrite app_nil_r.
  - destruct (IH (add_message m prev)) as (Hids & added & Hadd & Hlen).
    rewrite Hids, Hadd, add_message_ids.
    destruct (add_message_cases m prev)
      as [E | (new_item & E & Hid & Hnot)]; rewrite E in *.
    + split.
      * destruct (recognised m
                  && negb (existsb (opt_string_eqb (sm_message_id m))
                             (ids prev))) eqn:Hnew.
        -- exfalso. assert (Hx := add_message_ids m prev).
           rewrite E, Hnew in Hx.
           apply (f_equal (@List.length _)) in Hx.
           rewrite length_app in Hx. simpl in Hx. lia.
        -- now rewrite app_nil_r.
      * exists added. split; [reflexivity | lia].
    + split.
      * destruct (recognised m
                  && negb (existsb (opt_string_eqb (sm_message_id m))
                             (ids prev))) eqn:Hnew.
        -- now rewrite <- app_assoc.
        -- exfalso. assert (Hx := add_message_ids m prev).
           rewrite E, Hnew in Hx. unfold ids in Hx.
           rewrite map_app, app_nil_r in Hx.
           apply (f_equal (@List.length _)) in Hx.
           rewrite length_app in Hx. simpl in Hx. lia.
      * exists (new_item :: added). rewrite <- app_assoc. simpl.
        split; [reflexivity | lia].
Qed.

(** X4.  Between two resets the collection only grows at its end: every
    action other than the reset keeps the items there are, in place, and adds
    at most one; the reset empties the collection, and a frame received
    again after it is taken again. *)
Theorem collection_is_append_only (stringify : ClientEvent -> string)
  (getTime : string -> option Z)
  (runtimeSort : list Chatroom -> list Chatroom) (personal : list Chatroom)
  (a : Action)
  (m : ServerMessage) (h : Hook) :
  (a <> ResetLiveMessages ->
   exists added, messages (act stringify getTime runtimeSort a h) = messages h
       ++ added /\
                 List.length added <= 1) /\
  messages (resetLiveMessages h) = [] /\
  (recognised m = true ->
   ids (messages (onmessage getTime runtimeSort personal (ServerMessageEvent m)
                    (resetLiveMessages h)))
   = [sm_message_id m]).
Proof.
  split; [|split].
  - intros Hne.
    assert (Hkeep : forall l : list ConversationItem,
               exists added, l = l ++ added /\ List.length added <= 1).
    { intros l. exists []. rewrite app_nil_r. simpl. split; [reflexivity|lia]. }
    destruct a as [token|r| | |psl data|payload| |ad|ma ad| | | ]; simpl;
      try apply Hkeep; try congruence.
    + unfold connect. destruct (String.eqb token ""); apply Hkeep.
    + unfold socket_becomes. destruct (wsRef h); apply Hkeep.
    + unfold onclose. simpl. destruct (keepAliveRef h); simpl;
        destruct (retryRef h <? 5); apply Hkeep.
    + destruct data as [id|needs rooms hier|id|ad rooms ms|ma rooms|m'|c| ];
        simpl; try apply Hkeep.
      * destruct needs; [|apply Hkeep]. destruct hier; apply Hkeep.
      * unfold on_admin_selected. destruct (Nat.eqb _ 0); apply Hkeep.
      * destruct (add_message_cases m' (messages h))
          as [-> | (new_item & -> & _)]; [apply Hkeep|].
        exists [new_item]. split; [reflexivity | simpl; lia].
    + unfold send. destruct (wsRef h) as [s|]; [|apply Hkeep].
      destruct (ReadyState_eqb (readyState s) OPEN); apply Hkeep.
    + unfold keepalive_tick, send. destruct (wsRef h) as [s|]; [|apply Hkeep].
      destruct (ReadyState_eqb (readyState s) OPEN); apply Hkeep.
    + unfold selectAdmin, send. destruct (wsRef h) as [s|]; [|apply Hkeep].
      destruct (ReadyState_eqb (readyState s) OPEN); apply Hkeep.
    + unfold selectMaster, send. destruct (wsRef h) as [s|]; [|apply Hkeep].
      destruct (ReadyState_eqb (readyState s) OPEN); apply Hkeep.
  - reflexivity.
  - intros Hrec. simpl. rewrite add_message_ids. simpl.
    now rewrite Hrec.
Qed.

(** The frame [m1] arrives, the collection is reset, [m1] arrives again. *)
Lemma collection_is_append_only_witness :
  messages (act type_of day as_received (OnMessage [] (ServerMessageEvent m1))
              initial)
  = [TextItem (Some "user") (Some "hello") (Some "2024-01-01T00:00:00Z")
       (Some "m1") None] /\
  ids (messages (onmessage day as_received [] (ServerMessageEvent m1)
                   (resetLiveMessages
                      (onmessage day as_received [] (ServerMessageEvent m1)
                         initial))))
  = [Some "m1"].
Proof.
  pose proof (collection_is_append_only type_of day as_received []
                (OnMessage [] (ServerMessageEvent m1)) m1 initial)
    as (Hgrow & _ & _).
  pose proof (collection_is_append_only type_of day as_received []
                ResetLiveMessages m1
                (onmessage day as_received [] (ServerMessageEvent m1) initial))
    as (_ & _ & Hagain).
  destruct (Hgrow ltac:(discriminate)) as (added & Hadd & _).
  split; [reflexivity | exact (Hagain eq_refl)].
Defined.

(** *** Who resolves the conversation *)

Lemma send_frame (stringify : ClientEvent -> string) (f : ClientEvent)
  (h : Hook) :
  send stringify f h = h \/
  exists s, send stringify f h = set_wsRef (Some s) h.
Proof.
  unfold send. destruct (wsRef h) as [s|]; [|now left].
  destruct (ReadyState_eqb (readyState s) OPEN); [right; eauto | now left].
Qed.

Lemma act_chatId (stringify : ClientEvent -> string) (getTime : string ->
    option Z)
  (runtimeSort : list Chatroom -> list Chatroom)
  (a : Action) (h : Hook) :
  chatId (act stringify getTime runtimeSort a h)
  = match resolves a with Some id => id | None => chatId h end.
Proof.
  destruct a as [token|r| | |personal data|payload| |ad|ma ad| | | ]; simpl;
    try reflexivity.
  - unfold connect. now destruct (String.eqb token "").
  - unfold socket_becomes. now destruct (wsRef h).
  - unfold onclose. simpl. destruct (keepAliveRef h); simpl;
      now destruct (retryRef h <? 5).
  - destruct data as [id|needs rooms hier|id|ad rooms ms|ma rooms|m|c| ];
      simpl; try reflexivity.
    + destruct needs; [|reflexivity]. now destruct hier.
    + unfold on_admin_selected. now destruct (Nat.eqb _ 0).
  - now destruct (send_frame stringify payload h) as [-> | (s & ->)].
  - unfold keepalive_tick.
    now destruct (send_frame stringify ClientPing h) as [-> | (s & ->)].
  - unfold selectAdmin.
    now destruct (send_frame stringify (ClientSelectAdmin ad) h)
      as [-> | (s & ->)].
  - unfold selectMaster.
    now destruct (send_frame stringify (ClientSelectMaster ma ad) h)
      as [-> | (s & ->)].
Qed.

(** X5.  The resolved conversation id is the relay's to set: after any
    run it is the id carried by the last [joined] frame of a user or
    [selected] frame of the run, and the one before the run when there was
    none.  An intent is a request and nothing more: it writes its one frame
    when the socket is open and nothing when it is not, and either way leaves
    the resolved id, the listing, the items, the status and the reconnect
    state as they were. *)
Theorem conversation_is_resolved_by_the_relay
  (stringify : ClientEvent -> string) (getTime : string -> option Z)
  (runtimeSort : list Chatroom -> list Chatroom)
  (l : list Action) (a : Action) (f : ClientEvent) (h : Hook) :
  chatId (run stringify getTime runtimeSort l h) = last_resolved l (chatId h) /\
  (request_of a = Some f ->
   let h' := act stringify getTime runtimeSort a h in
   written h'
   = written h ++ (if socket_open h then [stringify f] else []) /\
   chatId h' = chatId h /\ chatrooms h' = chatrooms h /\
   messages h' = messages h /\ needsSelection h' = needsSelection h /\
   status h' = status h /\ retryRef h' = retryRef h /\
   timeouts h' = timeouts h /\ intervals h' = intervals h).
Proof.
  split.
  - unfold run, last_resolved. revert h.
    induction l as [|x l IH]; intros h; simpl; [reflexivity|].
    now rewrite IH, act_chatId.
  - intros Hreq.
    assert (Hsend : forall g : Hook,
               wsRef g = wsRef h ->
               written (send stringify f g)
               = written h ++ (if socket_open h then [stringify f] else [])).
    { intros g Hg. unfold written, send, socket_open. rewrite Hg.
      destruct (wsRef h) as [s|]; [|now rewrite Hg].
      destruct (ReadyState_eqb (readyState s) OPEN); simpl;
        [reflexivity | now rewrite Hg, app_nil_r]. }
    destruct a as [token|r| | |personal data|payload| |ad|ma ad| | | ];
      try discriminate; injection Hreq as <-; cbv zeta; simpl;
      unfold keepalive_tick, selectAdmin, selectMaster; simpl;
      (split; [now apply Hsend|]);
      match goal with
      | |- context [send stringify ?x h] =>
          destruct (send_frame stringify x h) as [-> | (s & ->)]
      end; now repeat split.
Qed.

(** A text sent on an open socket, and a selection asked for with no
    socket. *)
Lemma conversation_is_resolved_by_the_relay_witness :
  written (act type_of day as_received (Send (ClientSendText "hi")) open_hook)
  = ["message"] /\
  chatId (act type_of day as_received (SelectAdmin "A1") initial) = None /\
  written (act type_of day as_received (SelectAdmin "A1") initial) = [].
Proof.
  pose proof (conversation_is_resolved_by_the_relay type_of day as_received
                [] (Send (ClientSendText "hi")) (ClientSendText "hi")
                open_hook) as (_ & Hopen).
  pose proof (conversation_is_resolved_by_the_relay type_of day as_received
                [] (SelectAdmin "A1") (ClientSelectAdmin "A1") initial)
    as (_ & Hnone).
  destruct (Hopen eq_refl) as (H1 & _).
  destruct (Hnone eq_refl) as (H2 & H3 & _).
  split; [exact H1|]. split; [exact H3 | exact H2].
Defined.

(** *** The keep-alive timer *)

Lemma filter_all {A : Type} (p : A -> bool) (l : list A) :
  Forall (fun x => p x = true) l -> filter p l = l.
Proof.
  induction 1 as [|x l Hx _ IH]; simpl; [reflexivity|].
  now rewrite Hx, IH.
Qed.

Lemma act_handles (stringify : ClientEvent -> string)
  (getTime : string -> option Z)
  (runtimeSort : list Chatroom -> list Chatroom) (a : Action) (h : Hook) :
  handles_fresh h -> handles_fresh (act stringify getTime runtimeSort a h).
Proof.
  unfold handles_fresh. intros Hf.
  destruct a as [token|r| | |personal data|payload| |ad|ma ad| | | ]; simpl;
    try exact Hf.
  - unfold connect. now destruct (String.eqb token "").
  - unfold socket_becomes. now destruct (wsRef h).
  - constructor; [lia|].
    eapply Forall_impl; [|exact Hf]. simpl. intros; lia.
  - unfold onclose. simpl.
    assert (Hsub : forall k, Forall (fun i => i < nextTimer h)
                     (filter (fun i => negb (Nat.eqb i k)) (intervals h))).
    { intros k. apply Forall_forall. intros x Hx.
      apply filter_In in Hx. rewrite Forall_forall in Hf. now apply Hf. }
    destruct (keepAliveRef h); simpl; destruct (retryRef h <? 5); simpl;
      auto.
  - destruct data as [id|needs rooms hier|id|ad rooms ms|ma rooms|m|c| ];
      simpl; try exact Hf.
    + destruct needs; [|exact Hf]. now destruct hier.
    + unfold on_admin_selected. now destruct (Nat.eqb _ 0).
  - now destruct (send_frame stringify payload h) as [-> | (s & ->)].
  - unfold keepalive_tick.
    now destruct (send_frame stringify ClientPing h) as [-> | (s & ->)].
  - unfold selectAdmin.
    now destruct (send_frame stringify (ClientSelectAdmin ad) h)
      as [-> | (s & ->)].
  - unfold selectMaster.
    now destruct (send_frame stringify (ClientSelectMaster ma ad) h)
      as [-> | (s & ->)].
Qed.

Lemma run_handles (stringify : ClientEvent -> string)
  (getTime : string -> option Z)
  (runtimeSort : list Chatroom -> list Chatroom) (l : list Action) (h : Hook) :
  handles_fresh h -> handles_fresh (run stringify getTime runtimeSort l h).
Proof.
  unfold run. revert h.
  induction l as [|a l IH]; simpl; intros h Hf; [exact Hf|].
  now apply IH, act_handles.
Qed.

(** X6.  The keep-alive timer does not outlive its connection.  Whatever
    the hook has gone through, an open followed by a close leaves the live
    timers as they were before the open, and after a close the timer the
    hook held is not live.  On a connection just opened the first tick
    writes a ping as the first text on the wire; a connect without a token
    does nothing. *)
Theorem keepalive_ends_with_the_socket (stringify : ClientEvent -> string)
  (getTime : string -> option Z)
  (runtimeSort : list Chatroom -> list Chatroom) (l : list Action)
  (token : string) :
  let h := run stringify getTime runtimeSort l initial in
  intervals (onclose (onopen h)) = intervals h /\
  (forall k, keepAliveRef h = Some k -> ~ In k (intervals (onclose h))) /\
  (token <> "" ->
   written (keepalive_tick stringify
              (onopen (socket_becomes OPEN (connect token h))))
   = [stringify ClientPing]) /\
  connect "" h = h.
Proof.
  cbv zeta.
  assert (Hf : handles_fresh (run stringify getTime runtimeSort l initial))
    by (apply run_handles; constructor).
  set (h := run stringify getTime runtimeSort l initial) in *.
  split; [|split; [|split]].
  - unfold onclose, onopen. simpl. rewrite Nat.eqb_refl. simpl.
    assert (E : filter (fun i => negb (Nat.eqb i (nextTimer h))) (intervals h)
                = intervals h).
    { apply filter_all. eapply Forall_impl; [|exact Hf]. simpl.
      intros k Hk. apply negb_true_iff, Nat.eqb_neq. lia. }
    destruct (0 <? 5); simpl; exact E.
  - intros k Hk Hin. unfold onclose in Hin. simpl in Hin. rewrite Hk in Hin.
    assert (Hin' : In k (filter (fun i => negb (Nat.eqb i k)) (intervals h)))
      by (destruct (retryRef (clearInterval k (setStatus closed h)) <? 5);
          exact Hin).
    apply filter_In in Hin'. destruct Hin' as [_ Hne].
    now rewrite Nat.eqb_refl in Hne.
  - intros Hne. unfold connect.
    destruct (String.eqb_spec token ""); [contradiction | reflexivity].
  - reflexivity.
Qed.

(** A hook that has been opened and closed three times, opened once
    more. *)
Lemma keepalive_ends_with_the_socket_witness :
  let h := run type_of day as_received
             [OnOpen; OnClose; OnOpen; OnClose; OnOpen; OnClose] initial in
  intervals (onclose (onopen h)) = [] /\
  keepAliveRef (onopen h) = Some 4 /\
  ~ In 4 (intervals (onclose (onopen h))) /\
  written (keepalive_tick type_of
             (onopen (socket_becomes OPEN (connect "token" h))))
  = ["ping"].
Proof.
  pose proof (keepalive_ends_with_the_socket type_of day as_received
                [OnOpen; OnClose; OnOpen; OnClose; OnOpen; OnClose] "token")
    as (H1 & _ & H3 & _).
  pose proof (keepalive_ends_with_the_socket type_of day as_received
                [OnOpen; OnClose; OnOpen; OnClose; OnOpen; OnClose; OnOpen]
                "token") as (_ & H2 & _).
  split; [rewrite H1; reflexivity|].
  split; [reflexivity|].
  split; [exact (H2 4 eq_refl)|].
  apply H3. discriminate.
Defined.

(** *** The automatic selection of the master page *)

(** X7.  When a listing arrives on an open connection with no conversation
    resolved, the master page asks for the first room of the list as it was
    stored, with one [select_chatroom] frame; the resolved id itself stays
    unset until the relay answers.  When every timestamp of the listing
    parses, that room is one of the listing that no other room is more
    recent than.  With no room listed, a conversation resolved, or a status
    other than open, the effect does nothing. *)
Theorem auto_select_asks_for_the_most_recent
  (stringify : ClientEvent -> string) (getTime : string -> option Z)
  (runtimeSort : list Chatroom -> list Chatroom)
  (personal rooms : list Chatroom) (hier : option Hierarchy) (h : Hook) :
  let j := onmessage getTime runtimeSort personal
             (ServerJoinedAdminList true rooms hier) h in
  (truthy (chatId h) = false -> status h = open -> socket_open h = true ->
   written (auto_select stringify j)
   = written h
     ++ match chatrooms j with
        | first :: _ => [stringify (ClientSelectRoom (chat_id first))]
        | [] => []
        end /\
   chatId (auto_select stringify j) = chatId h) /\
  (rooms <> [] -> forallb (parses getTime) rooms = true ->
   exists first rest,
     chatrooms j = first :: rest /\ In first rooms /\
     forall r, In r rooms -> not_older getTime first r) /\
  (chatrooms h = [] \/ truthy (chatId h) = true \/ status h <> open ->
   auto_select stringify h = h).
Proof.
  cbv zeta.
  set (j := onmessage getTime runtimeSort personal
              (ServerJoinedAdminList true rooms hier) h).
  assert (Hc : chatrooms j = sort_by_recency getTime runtimeSort rooms)
    by (unfold j; simpl; now destruct hier).
  assert (Hi : chatId j = chatId h) by (unfold j; simpl; now destruct hier).
  assert (Hs : status j = status h) by (unfold j; simpl; now destruct hier).
  assert (Hw : wsRef j = wsRef h) by (unfold j; simpl; now destruct hier).
  split; [|split].
  - intros Hid Hst Hopen.
    unfold auto_select. rewrite Hi, Hid, Hs, Hst. simpl.
    unfold socket_open in Hopen.
    destruct (chatrooms j) as [|first rest].
    + split; [rewrite app_nil_r; unfold written; now rewrite Hw | exact Hi].
    + unfold selectRoom, send, written. rewrite Hw.
      destruct (wsRef h) as [s|]; [|discriminate].
      rewrite Hopen. simpl. split; [reflexivity | exact Hi].
  - intros Hne Hparse. rewrite Hc.
    pose proof (sort_by_recency_perm getTime runtimeSort rooms Hparse) as Hp.
    pose proof (sort_by_recency_sorted getTime runtimeSort rooms Hparse)
      as Hsorted.
    destruct (sort_by_recency getTime runtimeSort rooms) as [|r rest] eqn:E.
    { apply Permutation_sym, Permutation_nil in Hp. contradiction. }
    exists r, rest.
    split; [reflexivity|].
    split; [apply (Permutation_in _ (Permutation_sym Hp)); now left|].
    intros r' Hr'. apply (Permutation_in _ Hp) in Hr'.
    inversion Hsorted as [|? ? _ Hall]; subst.
    destruct Hr' as [<- | Hr'].
    + assert (Hr : parses getTime r = true).
      { rewrite forallb_forall in Hparse. apply Hparse.
        apply (Permutation_in _ (Permutation_sym Hp)). now left. }
      apply parses_Some in Hr. destruct Hr as (t & Ht).
      unfold not_older. rewrite Ht. lia.
    + rewrite Forall_forall in Hall. now apply Hall.
  - unfold auto_select. intros [Hnil | [Hid | Hst]].
    + now rewrite Hnil.
    + rewrite Hid. simpl. now destruct (chatrooms h).
    + destruct (chatrooms h); [reflexivity|].
      destruct (truthy (chatId h)); simpl; [reflexivity|].
      destruct (status h); try reflexivity. now destruct Hst.
Qed.

(** Two rooms listed on an open connection: the later one is asked for. *)
Lemma auto_select_asks_for_the_most_recent_witness :
  written (auto_select type_of
             (onmessage day as_received []
                (ServerJoinedAdminList true [scoped_personal; scoped_normal]
                   None)
                open_hook))
  = ["select_chatroom"] /\
  (exists rest,
     chatrooms (onmessage day as_received []
                  (ServerJoinedAdminList true
                     [scoped_personal; scoped_normal] None)
                  open_hook)
     = scoped_normal :: rest) /\
  auto_select type_of initial = initial.
Proof.
  pose proof (auto_select_asks_for_the_most_recent type_of day as_received []
                [scoped_personal; scoped_normal] None open_hook)
    as (Hask & Hfirst & _).
  pose proof (auto_select_asks_for_the_most_recent type_of day as_received []
                [] None initial) as (_ & _ & Hnone).
  destruct (Hask eq_refl eq_refl eq_refl) as (Hw & _).
  destruct (Hfirst ltac:(discriminate) eq_refl) as (first & rest & Hl & _).
  split; [rewrite Hw; reflexivity|].
  split; [exists [scoped_personal]; reflexivity|].
  apply Hnone. now left.
Defined.

End ChatSocketMore.

(** ** More on the call engine *)

Module WebRTCMore.

Import WebRTC WebRTCObs WebRTCFacts.

(** *** What every reachable world satisfies *)

(** [endCall], run with the flag down, tears everything down. *)
Lemma endCall_releases (r : State) (w : World) :
  isEndingCallRef (refs w) = false ->
  torn_down (endCall r w) /\
  isEndingCallRef (refs (endCall r w)) = false /\
  isRemoteAudioEnabled (st (endCall r w)) = isRemoteAudioEnabled (st w) /\
  callIdRef (refs (endCall r w)) = callIdRef (refs w) /\
  callStateRef (refs (endCall r w)) = callStateRef (refs w).
Proof.
  intros Hflag. unfold endCall, torn_down. rewrite Hflag.
  destruct (callId r) as [c|]; [destruct (String.eqb c "")|]; simpl;
    destruct (localStreamRef (refs w)) eqn:El; simpl;
    destruct (remoteStreamRef (refs w)) eqn:Er; simpl;
    destruct (peerConnectionRef (refs w)) eqn:Ep; simpl;
    repeat split; assumption || reflexivity.
Qed.

Lemma torn_down_tidy (w : World) :
  torn_down w -> isEndingCallRef (refs w) = false -> tidy_cells w.
Proof.
  intros (Hs & Hid & Hi & Hsh & Hpc & Hl & _) Hf. unfold tidy_cells.
  rewrite Hs, Hid, Hi, Hsh, Hpc, Hl.
  repeat split; try assumption; try discriminate; congruence.
Qed.

Ltac tidy_endCall :=
  match goal with
  | |- tidy_cells (endCall ?r ?w) =>
      let H := fresh in
      assert (H : isEndingCallRef (refs w) = false)
        by (simpl; congruence);
      destruct (endCall_releases r w H) as (? & ? & _);
      now apply torn_down_tidy
  end.

Lemma invoke_tidy (env : Env) (chatId : option string) (o : Op) (w : World) :
  tidy_cells w -> tidy_cells (invoke env chatId o (st w) w).
Proof.
  intros Hw. pose proof Hw as (Hended & Hidle & Hshow & Hheld & Hflag).
  destruct o; simpl; unfold_handlers; simpl; branches;
    repeat match goal with
      | E : open_media _ _ = Some _ |- _ =>
          let Est := fresh "Est" in
          apply open_media_Some in E;
          destruct E as (Est & _ & _ & _ & ? & _ & ? & ? & ? & ? & _);
          try rewrite Est in *
      | E : negb _ = false |- _ => apply negb_false_iff in E
      | E : negb _ = true |- _ => apply negb_true_iff in E
      | E : CallState_eqb _ _ = true |- _ =>
          apply (reflect_iff _ _ (CallState_eqb_spec _ _)) in E
      | E : CallState_eqb ?a ?b = false |- _ =>
          assert (a <> b)
            by (destruct (CallState_eqb_spec a b); congruence);
          clear E
      end;
    try exact Hw; try tidy_endCall;
    unfold tidy_cells in *; simpl in *;
    try (destruct Hidle as (? & ? & ? & ? & ?); [assumption|]);
    repeat split; intros; try congruence; try discriminate;
    try tauto;
    try (destruct Hheld; intuition congruence);
    try match goal with
      | E : st _ = st w |- _ => rewrite E in *; tauto
      end.
Qed.

Lemma render_tidy (w : World) : tidy_cells w -> tidy (render w).
Proof.
  intros Hw. unfold tidy, render.
  split; [unfold tidy_cells in *; simpl; exact Hw | split; reflexivity].
Qed.

Lemma reachable_tidy (w : World) : reachable w -> tidy w.
Proof.
  induction 1 as [|env chatId o w Hw [IH _]].
  - unfold tidy, tidy_cells. simpl.
    repeat split; try reflexivity; try discriminate; auto.
  - apply render_tidy. now apply invoke_tidy.
Qed.

(** A render that follows no write changes nothing. *)
Lemma render_tidy_id (w : World) : tidy w -> render w = w.
Proof.
  intros (_ & Hid & Hcs). unfold render, set_callRefs, with_refs.
  rewrite <- Hid, <- Hcs. destruct w as [s r snt al md]. simpl.
  now destruct r.
Qed.

(** *** What the call controls offer *)

(** X9.  What the call controls offer, whatever the engine has been
    through (the pages pass an accept callback).  The accept button is there
    exactly when the accept affordance is up; no button is there exactly
    when the engine is idle; outside idle, with the affordance down, the end
    button is there and the accept button is not.  While the affordance is up
    and the call is not connected, the accept button is the only button: the
    callee being rung is offered no way to end the call. *)
Theorem controls_offer_accept_to_the_callee_only (w : World) :
  reachable w ->
  let s := st w in
  (In CallUI.Accept (CallUI.buttons true s) <-> showIncomingCall s = true) /\
  (CallUI.buttons true s = [] <-> callState s = idle) /\
  (showIncomingCall s = false -> callState s <> idle ->
   In CallUI.EndCall (CallUI.buttons true s) /\
   ~ In CallUI.Accept (CallUI.buttons true s)) /\
  (showIncomingCall s = true -> callState s <> connected ->
   CallUI.buttons true s = [CallUI.Accept]).
Proof.
  intros Hw. cbv zeta.
  destruct (reachable_tidy Hw) as ((Hended & Hidle & Hshow & _) & _).
  unfold CallUI.buttons, CallUI.toaster_button, CallUI.showToaster,
    CallUI.showAccept.
  destruct (callState (st w)) eqn:Ecs;
    destruct (showIncomingCall (st w)) eqn:Esh;
    destruct (isInitiator (st w)) eqn:Ein; simpl;
    try (now destruct Hended);
    try (destruct (Hidle eq_refl) as (_ & ? & ? & _); discriminate);
    try (specialize (Hshow eq_refl); discriminate);
    repeat split; intros; try discriminate; try congruence;
    simpl in *; intuition (try discriminate; try congruence).
Qed.

(** The callee rung for a call, and the callee once connected. *)
Lemma controls_offer_accept_to_the_callee_only_witness :
  CallUI.buttons true (st ringing_callee) = [CallUI.Accept] /\
  In CallUI.EndCall (CallUI.buttons true (st connected_callee)).
Proof.
  pose proof (controls_offer_accept_to_the_callee_only
                (proj1 examples_reachable)) as (_ & _ & _ & Hring).
  pose proof (controls_offer_accept_to_the_callee_only
                (proj1 (proj2 examples_reachable))) as (_ & _ & Hconn & _).
  split; [apply Hring; [reflexivity | discriminate]|].
  apply Hconn; [reflexivity | discriminate].
Defined.

(** *** The frames of the engine *)





(** *** Negotiation *)

Lemma teardown_after (r : State) (w : World) (c : string) :
  callId r = Some c -> c <> "" -> isEndingCallRef (refs w) = false ->
  sent (endCall r w) = sent w ++ [ClientCallEnd c] /\
  torn_down (endCall r w) /\
  acquisition_count (endCall r w) = acquisition_count w.
Proof.
  intros Hc Hne Hf.
  destruct (endCall_with_call_id r w Hc Hne Hf) as (Hs & _ & _ & _ & _ & Ha &
      _).
  destruct (endCall_releases r w Hf) as (Ht & _).
  split; [exact Hs | split; [exact Ht | exact Ha]].
Qed.




(** *** Notifications of the peer connection *)

(** X12.  What the engine makes of a change of the connection's state,
    whatever it has been through.  A loss ([disconnected] or [failed]) ends
    the call only while the engine is connecting or connected with a call id
    known: it is then torn down and a [call.end] goes out under that id;
    while idle or ringing, or with no call id known, a loss changes nothing.
    [connected] sets the call state to connected, from any state, and touches
    nothing else; the other states of the connection change nothing. *)
Theorem losses_end_calls_under_way_only (env : Env) (chatId : option string)
  (cs : ConnectionState) (w : World) :
  reachable w ->
  let w' := invoke env chatId (OnConnectionStateChange cs) (st w) w in
  (cs = cs_disconnected \/ cs = cs_failed ->
   (forall c, callId (st w) = Some c -> c <> "" ->
    callState (st w) = connecting \/ callState (st w) = connected ->
    torn_down w' /\ sent w' = sent w ++ [ClientCallEnd c]) /\
   (callState (st w) = idle \/ callState (st w) = ringing \/
    truthy (callId (st w)) = false -> w' = w)) /\
  (cs = cs_connected ->
   callState (st w') = connected /\ callId (st w') = callId (st w) /\
   isInitiator (st w') = isInitiator (st w) /\
   showIncomingCall (st w') = showIncomingCall (st w) /\
   refs w' = refs w /\ sent w' = sent w /\ media w' = media w) /\
  (cs = cs_new \/ cs = cs_connecting \/ cs = cs_closed -> w' = w).
Proof.
  intros Hw. cbv zeta. simpl.
  destruct (reachable_tidy Hw) as ((_ & _ & _ & _ & Hflag) & Hid & Hcs).
  unfold onconnectionstatechange. rewrite Hid, Hcs.
  split; [|split].
  - intros Hloss.
    assert (E : match cs with
                | cs_connected => setCallState connected w
                | cs_disconnected | cs_failed =>
                    if truthy (callId (st w))
                       && (CallState_eqb (callState (st w)) connecting
                           || CallState_eqb (callState (st w)) connected)
                    then endCall (st w) w
                    else w
                | _ => w
                end
                = if truthy (callId (st w))
                     && (CallState_eqb (callState (st w)) connecting
                         || CallState_eqb (callState (st w)) connected)
                  then endCall (st w) w
                  else w)
      by (destruct Hloss; now subst).
    rewrite E. split.
    + intros c Hc Hne Hstate.
      assert (Ht : truthy (callId (st w)) = true)
        by (apply truthy_Some; now exists c).
      rewrite Ht.
      assert (Hb : CallState_eqb (callState (st w)) connecting
                   || CallState_eqb (callState (st w)) connected = true)
        by (destruct Hstate as [-> | ->]; reflexivity).
      rewrite Hb. simpl.
      destruct (teardown_after (st w) w Hc Hne Hflag) as (Hs & Hd & _).
      now split.
    + intros [Hi | [Hr | Hn]].
      * rewrite Hi. simpl. now rewrite andb_false_r.
      * rewrite Hr. simpl. now rewrite andb_false_r.
      * now rewrite Hn.
  - intros ->. simpl. now repeat split.
  - intros [-> | [-> | ->]]; reflexivity.
Qed.

(** The connection is lost during a call, and while the callee is being
    rung. *)
Lemma losses_end_calls_under_way_only_witness :
  sent (invoke env_ok room (OnConnectionStateChange cs_failed)
          (st connected_callee) connected_callee)
  = sent connected_callee ++ [ClientCallEnd "c1"] /\
  invoke env_ok room (OnConnectionStateChange cs_failed) (st ringing_callee)
    ringing_callee
  = ringing_callee.
Proof.
  pose proof (losses_end_calls_under_way_only env_ok room cs_failed
                (proj1 (proj2 examples_reachable))) as (Hloss & _).
  pose proof (losses_end_calls_under_way_only env_ok room cs_failed
                (proj1 examples_reachable)) as (Hstale & _).
  destruct (Hloss (or_intror eq_refl)) as (Hend & _).
  destruct (Hstale (or_intror eq_refl)) as (_ & Hkeep).
  destruct (Hend "c1" eq_refl ltac:(discriminate) (or_intror eq_refl))
    as (_ & Hs).
  split; [exact Hs | apply Hkeep; right; now left].
Defined.

(** *** Toggles *)

Lemma map_negb_involutive (l : list bool) : map negb (map negb l) = l.
Proof.
  induction l as [|b l IH]; simpl; [reflexivity|].
  now rewrite IH, negb_involutive.
Qed.

(** X14.  The two toggles are local: they send no frame, make no call on
    the media stack and leave the call state and the call id alone.  Muting
    the microphone twice restores the world, and without a local stream the
    toggle does nothing.  Toggling the remote audio twice restores the flag;
    each toggle writes to the element's [muted] the new value of the
    flag. *)
Theorem toggles_are_local (w : World) :
  toggleMute (toggleMute w) = w /\
  (localStreamRef (refs w) = None -> toggleMute w = w) /\
  sent (toggleMute w) = sent w /\ st (toggleMute w) = st w /\
  media (toggleMute w) = media w /\
  sent (toggleRemoteAudio w) = sent w /\
  media (toggleRemoteAudio w) = media w /\
  callState (st (toggleRemoteAudio w)) = callState (st w) /\
  callId (st (toggleRemoteAudio w)) = callId (st w) /\
  isRemoteAudioEnabled (st (toggleRemoteAudio (toggleRemoteAudio w)))
  = isRemoteAudioEnabled (st w) /\
  (forall el, remoteAudioRef (refs w) = Some el ->
   option_map muted (remoteAudioRef (refs (toggleRemoteAudio w)))
   = Some (isRemoteAudioEnabled (st (toggleRemoteAudio w)))).
Proof.
  split; [|split].
  - unfold toggleMute.
    destruct w as [s r snt al md]. destruct r as [pc ls rs la ra pi ci cst fl].
    simpl. destruct ls as [[id tr]|]; simpl; [|reflexivity].
    now rewrite map_negb_involutive.
  - intros E. unfold toggleMute. now rewrite E.
  - unfold toggleMute, toggleRemoteAudio.
    destruct (localStreamRef (refs w)); simpl;
      repeat (split; [reflexivity|]);
      (split; [apply negb_involutive|]);
      intros el ->; reflexivity.
Qed.

(** Muting twice during a call, and muting with no stream. *)
Lemma toggles_are_local_witness :
  toggleMute (toggleMute connected_callee) = connected_callee /\
  toggleMute initial = initial.
Proof.
  pose proof (toggles_are_local connected_callee) as (H & _).
  pose proof (toggles_are_local initial) as (_ & H0 & _).
  split; [exact H | exact (H0 eq_refl)].
Defined.

(** *** Duplicate signals *)

(** X20.  A duplicate of an incoming or of a ringing signal changes nothing
    more than the first did: handled twice in a row, either leaves the world
    the first handling left.  An incoming signal for the call id tracked is
    taken in any state: even a connected engine goes back to ringing, as
    callee with the accept affordance up, while its peer connection and
    stream stay held. *)
Theorem duplicate_signals_change_nothing_more (env : Env)
  (chatId : option string) (id : string) (w : World) :
  step env chatId (HandleCallIncoming id)
    (step env chatId (HandleCallIncoming id) w)
  = step env chatId (HandleCallIncoming id) w /\
  step env chatId (HandleCallRinging id)
    (step env chatId (HandleCallRinging id) w)
  = step env chatId (HandleCallRinging id) w /\
  (callId (st w) = Some id ->
   let w' := step env chatId (HandleCallIncoming id) w in
   callState (st w') = ringing /\ showIncomingCall (st w') = true /\
   isInitiator (st w') = false /\
   peerConnectionRef (refs w') = peerConnectionRef (refs w) /\
   localStreamRef (refs w') = localStreamRef (refs w) /\
   sent w' = sent w).
Proof.
  split; [|split].
  - unfold step, render. simpl. unfold handleCallIncoming.
    destruct (negb (CallState_eqb (callState (st w)) idle)
              && negb (opt_string_eqb (callId (st w)) (Some id))) eqn:E;
      simpl.
    + now rewrite E.
    + now rewrite String.eqb_refl.
  - unfold step, render. simpl. unfold handleCallRinging.
    destruct w as [s r snt al md]. destruct s as [cs ini en cid sh].
    simpl. destruct cs; reflexivity.
  - intros Hid. cbv zeta. unfold step, render. simpl.
    unfold handleCallIncoming.
    rewrite Hid. simpl. rewrite String.eqb_refl, andb_false_r. simpl.
    now repeat split.
Qed.

(** The callee in a connected call receives the incoming signal of its
    call again. *)
Lemma duplicate_signals_change_nothing_more_witness :
  callState (st connected_callee) = connected /\
  callState (st (step env_ok room (HandleCallIncoming "c1")
                   connected_callee)) = ringing.
Proof.
  pose proof (duplicate_signals_change_nothing_more env_ok room "c1"
                connected_callee) as (_ & _ & H).
  destruct (H eq_refl) as (Hr & _).
  split; [reflexivity | exact Hr].
Defined.

End WebRTCMore.

(** ** The call engine between its [await]s *)

Module WebRTCAsyncFacts.

Import WebRTC WebRTCObs WebRTCAsync WebRTCFacts WebRTCMore.

(** *** What every schedule keeps *)

Lemma torn_down_sound (w : World) :
  torn_down w -> isEndingCallRef (refs w) = false -> sound_cells w.
Proof.
  intros (Hs & Hid & Hi & Hsh & Hpc & Hl & _) Hf. unfold sound_cells.
  rewrite Hs, Hid, Hi, Hsh, Hpc, Hl.
  repeat split; try assumption; try discriminate; congruence.
Qed.

Lemma endCall_sound (r : State) (w : World) :
  sound_cells w -> sound_cells (endCall r w).
Proof.
  intros (_ & _ & _ & _ & Hflag).
  destruct (endCall_releases r w Hflag) as (Ht & Hf & _).
  now apply torn_down_sound.
Qed.

Lemma invoke_sound (env : Env) (chatId : option string) (o : Op) (w : World) :
  sound_cells w -> sound_cells (invoke env chatId o (st w) w).
Proof.
  intros Hw. pose proof Hw as (Hended & Hidle & Hshow & Hheld & Hflag).
  destruct o; simpl; unfold_handlers; simpl; branches;
    repeat match goal with
      | E : open_media _ _ = Some _ |- _ =>
          let Est := fresh "Est" in
          apply open_media_Some in E;
          destruct E as (Est & _ & _ & _ & ? & _ & ? & ? & ? & ? & _);
          try rewrite Est in *
      | E : negb _ = false |- _ => apply negb_false_iff in E
      | E : negb _ = true |- _ => apply negb_true_iff in E
      | E : CallState_eqb _ _ = true |- _ =>
          apply (reflect_iff _ _ (CallState_eqb_spec _ _)) in E
      | E : CallState_eqb ?a ?b = false |- _ =>
          assert (a <> b)
            by (destruct (CallState_eqb_spec a b); congruence);
          clear E
      end;
    try exact Hw;
    try (apply endCall_sound; unfold sound_cells; simpl;
         repeat split; intros; try congruence; try discriminate; try tauto;
         try (destruct Hheld; intuition congruence));
    unfold sound_cells in *; simpl in *;
    try (destruct Hidle as (? & ? & ?); [assumption|]);
    repeat split; intros; try congruence; try discriminate;
    try tauto;
    try (destruct Hheld; intuition congruence);
    try match goal with
      | E : st _ = st w |- _ => rewrite E in *; tauto
      end.
Qed.

Lemma on_pc_cells (pc : nat) (f : PeerConnection -> PeerConnection)
  (w : World) :
  st (on_pc pc f w) = st w /\ sent (on_pc pc f w) = sent w /\
  media (on_pc pc f w) = media w /\
  localStreamRef (refs (on_pc pc f w)) = localStreamRef (refs w) /\
  pendingIceRef (refs (on_pc pc f w)) = pendingIceRef (refs w) /\
  isEndingCallRef (refs (on_pc pc f w)) = isEndingCallRef (refs w) /\
  (peerConnectionRef (refs (on_pc pc f w)) = None
   <-> peerConnectionRef (refs w) = None).
Proof.
  unfold on_pc.
  destruct (peerConnectionRef (refs w)) as [held|] eqn:E;
    [destruct (Nat.eqb (created w) pc)|]; simpl; rewrite ?E;
    repeat split; intros; congruence.
Qed.

Lemma on_pc_sound (pc : nat) (f : PeerConnection -> PeerConnection)
  (w : World) : sound_cells w -> sound_cells (on_pc pc f w).
Proof.
  intros Hw. destruct (on_pc_cells pc f w) as (Hs & _ & _ & Hl & _ & Hf & Hp).
  unfold sound_cells in *. rewrite Hs, Hl, Hf, Hp. exact Hw.
Qed.

Lemma flush_next_sound (c : string) (pc : nat) (w : World) :
  sound_cells w -> sound_cells (fst (flush_next c pc w)).
Proof.
  intros Hw. unfold flush_next.
  destruct (pendingIceRef (refs w)); simpl; exact Hw.
Qed.

Lemma connecting_sound (w : World) :
  sound_cells w -> sound_cells (setCallState connecting w).
Proof.
  unfold sound_cells. simpl. intros (H1 & H2 & H3 & H4 & H5).
  repeat split; try assumption; try discriminate; try apply H4.
Qed.

Lemma attach_sound (stream : MediaStream) (w : World) :
  sound_cells w -> sound_cells (attach stream w).
Proof.
  unfold sound_cells, attach. simpl. intros (H1 & H2 & H3 & H4 & H5).
  repeat split; try assumption; try discriminate; try apply H2; auto.
Qed.

Lemma begin_sound (env : Env) (chatId : option string) (o : Op) (w : World) :
  sound_cells w -> sound_cells (fst (begin env chatId o w)).
Proof.
  intros Hw.
  destruct o; try (now apply invoke_sound); simpl; branches;
    try exact Hw; unfold sound_cells in *; simpl; exact Hw.
Qed.

Lemma resume_sound (env : Env) (t : Task) (w : World) :
  sound_cells w -> sound_cells (fst (resume env t w)).
Proof.
  intros Hw.
  destruct t; simpl; unfold catch;
    repeat match goal with
      | |- context [match ?x with _ => _ end] =>
          lazymatch x with
          | pendingIceRef _ => fail
          | peerConnectionRef _ => fail
          | _ => destruct x eqn:?; simpl
          end
      end;
    try exact Hw;
    try (now apply endCall_sound);
    try (now apply attach_sound);
    try (apply flush_next_sound);
    try (apply connecting_sound;
         match goal with
         | |- sound_cells (send _ ?x) =>
             change (sound_cells (send _ x)) with (sound_cells x)
         | _ => idtac
         end);
    try (now apply on_pc_sound); try exact Hw.
Qed.

Lemma render_sound (w : World) : sound_cells w -> sound (render w).
Proof.
  intros Hw. unfold sound, render.
  split; [unfold sound_cells in *; simpl; exact Hw | split; reflexivity].
Qed.

Lemma occur_sound (env : Env) (e : Event) (m : Machine) :
  sound (world m) -> sound (world (occur env e m)).
Proof.
  intros Hs. pose proof Hs as [Hw _]. destruct e as [chatId o|i]; simpl.
  - pose proof (begin_sound env chatId o Hw) as H.
    destruct (begin env chatId o (world m)) as [w t]. simpl in *.
    now apply render_sound.
  - destruct (nth_error (suspended m) i) as [t|];
      [|exact Hs].
    pose proof (resume_sound env t Hw) as H.
    destruct (resume env t (world m)) as [w t']. simpl in *.
    now apply render_sound.
Qed.

Lemma reachable_sound (m : Machine) :
  WebRTCAsync.reachable m -> sound (world m).
Proof.
  induction 1 as [|env e m Hm IH].
  - unfold sound, sound_cells. simpl.
    repeat split; try reflexivity; try discriminate; auto.
  - now apply occur_sound.
Qed.

Lemma schedule_reachable (env : Env) (es : list Event) (m : Machine) :
  WebRTCAsync.reachable m -> WebRTCAsync.reachable (schedule env es m).
Proof.
  unfold schedule. revert m.
  induction es as [|e es IH]; simpl; intros m Hm; [exact Hm|].
  apply IH. now constructor.
Qed.


(** X8.  Between two events, whatever the schedule, handlers suspended
    or not: the call state is never [ended]; an idle engine tracks no call
    id, is not initiator and shows no accept affordance; the accept
    affordance is up for a callee only; microphone and peer connection are
    held together or not at all; no [endCall] is under way; and the two
    mirror refs agree with their state cells.  An idle engine may hold the
    microphone, though: a handler that was waiting for it when the call
    ended stores it when it resumes. *)
Theorem every_schedule_keeps_the_cells_sound (m : Machine) :
  (WebRTCAsync.reachable m ->
   let w := world m in
   callState (st w) <> ended /\
   (callState (st w) = idle ->
    callId (st w) = None /\ isInitiator (st w) = false /\
    showIncomingCall (st w) = false) /\
   (showIncomingCall (st w) = true -> isInitiator (st w) = false) /\
   (peerConnectionRef (refs w) = None <-> localStreamRef (refs w) = None) /\
   isEndingCallRef (refs w) = false /\
   callIdRef (refs w) = callId (st w) /\
   callStateRef (refs w) = callState (st w)) /\
  (exists m',
     WebRTCAsync.reachable m' /\ callState (st (world m')) = idle /\
     localStreamRef (refs (world m')) = Some mic /\
     peerConnectionRef (refs (world m')) <> None).
Proof.
  split.
  - intros Hm. destruct (reachable_sound Hm) as ((H1 & H2 & H3 & H4 & H5) & H6
      & H7).
    cbv zeta. repeat split; try assumption; try apply H2; try apply H4; auto.
  - exists (schedule env_ok ended_while_opening (mounted initial)).
    split; [apply schedule_reachable; constructor|].
    split; [reflexivity|]. split; [reflexivity | discriminate].
Qed.

(** The callee ends the call while the microphone is being asked for. *)
Lemma every_schedule_keeps_the_cells_sound_witness :
  let w := world (schedule env_ok ended_while_opening (mounted initial)) in
  callId (st w) = None /\ showIncomingCall (st w) = false /\
  localStreamRef (refs w) = Some mic.
Proof.
  cbv zeta.
  pose proof (proj1 (every_schedule_keeps_the_cells_sound
                       (schedule env_ok ended_while_opening
                          (mounted initial)))
                (schedule_reachable env_ok ended_while_opening
                   reachable_mount)) as (_ & Hidle & _).
  destruct (Hidle eq_refl) as (H1 & _ & H2).
  split; [exact H1|]. split; [exact H2 | reflexivity].
Defined.

(** *** Disposal *)

(** X21.  The clean-up run when the component goes away, whatever the
    schedule before it.  With the engine idle it does nothing, even when a
    microphone is held.  With a call id tracked it sends a [call.end] under
    that id, whatever the call state; outside idle the tracks of the local
    stream, when one is held, are stopped once; the microphone is not asked
    for, and the cells themselves are left as they are. *)
Theorem disposal_ends_the_tracked_call (m : Machine) :
  WebRTCAsync.reachable m ->
  let w := world m in
  (callState (st w) = idle -> unmount w = w) /\
  (forall c, callId (st w) = Some c -> c <> "" ->
   sent (unmount w) = sent w ++ [ClientCallEnd c]) /\
  (truthy (callId (st w)) = false -> sent (unmount w) = sent w) /\
  (callState (st w) <> idle ->
   local_teardown_count (unmount w)
   = local_teardown_count w
     + match localStreamRef (refs w) with Some _ => 1 | None => 0 end) /\
  acquisition_count (unmount w) = acquisition_count w /\
  st (unmount w) = st w /\ refs (unmount w) = refs w.
Proof.
  intros Hm. cbv zeta.
  destruct (reachable_sound Hm) as ((_ & Hidle & _) & Hid & Hcs).
  set (w := world m) in *.
  unfold unmount. rewrite Hid, Hcs.
  split; [|split; [|split; [|split]]].
  - intros Hi. destruct (Hidle Hi) as (-> & _). now rewrite Hi.
  - intros c Hc Hne.
    assert (Ht : truthy (callId (st w)) = true)
      by (apply truthy_Some; now exists c).
    rewrite Ht, Hc. simpl.
    destruct (String.eqb_spec c ""); [contradiction|].
    simpl. branches; reflexivity.
  - intros Hn. rewrite Hn. simpl.
    destruct (negb (CallState_eqb (callState (st w)) idle)); [|reflexivity].
    destruct (callId (st w)) as [c|]; simpl in Hn.
    + destruct (String.eqb c ""); [|discriminate]. branches; reflexivity.
    + branches; reflexivity.
  - intros Hne.
    assert (E : negb (CallState_eqb (callState (st w)) idle) = true).
    { apply negb_true_iff.
      destruct (CallState_eqb_spec (callState (st w)) idle);
        [contradiction | reflexivity]. }
    rewrite E, orb_true_r. unfold local_teardown_count.
    destruct (callId (st w)) as [c|]; [destruct (String.eqb c "")|];
      simpl;
      destruct (localStreamRef (refs w)); simpl;
      destruct (remoteStreamRef (refs w)); simpl;
      destruct (peerConnectionRef (refs w)); simpl;
      rewrite ?filter_app, ?length_app; simpl; lia.
  - destruct (truthy (callId (st w))
              || negb (CallState_eqb (callState (st w)) idle)) eqn:E;
      [|repeat split].
    unfold acquisition_count.
    destruct (callId (st w)) as [c|]; [destruct (String.eqb c "")|];
      simpl;
      destruct (localStreamRef (refs w)); simpl;
      destruct (remoteStreamRef (refs w)); simpl;
      destruct (peerConnectionRef (refs w)); simpl;
      rewrite ?filter_app, ?length_app; simpl;
      repeat split; lia.
Qed.

(** The component goes away while the callee is connecting, and after the
    callee has ended the call while the microphone was being asked for. *)
Lemma disposal_ends_the_tracked_call_witness :
  let connecting_callee :=
    schedule env_ok
      [Call room (HandleCallIncoming "c1"); Call room AcceptCall]
      (mounted initial) in
  let ended_callee :=
    schedule env_ok ended_while_opening (mounted initial) in
  sent (unmount (world connecting_callee))
  = sent (world connecting_callee) ++ [ClientCallEnd "c1"] /\
  localStreamRef (refs (world ended_callee)) = Some mic /\
  unmount (world ended_callee) = world ended_callee.
Proof.
  cbv zeta.
  pose proof (disposal_ends_the_tracked_call
                (schedule_reachable env_ok
                   [Call room (HandleCallIncoming "c1"); Call room AcceptCall]
                   reachable_mount)) as (_ & Hend & _).
  pose proof (disposal_ends_the_tracked_call
                (schedule_reachable env_ok ended_while_opening
                   reachable_mount)) as (Hidle & _).
  split; [apply Hend; [reflexivity | discriminate]|].
  split; [reflexivity | now apply Hidle].
Defined.

(** *** Candidates on the callee's side *)

Lemma in_flight_app (a b : list Task) :
  in_flight (a ++ b) = in_flight a ++ in_flight b.
Proof. unfold in_flight. now rewrite flat_map_app. Qed.

Lemma remove_middle {A : Type} (l1 l2 : list A) (t : A) :
  firstn (List.length l1) (l1 ++ t :: l2) = l1 /\
  skipn (S (List.length l1)) (l1 ++ t :: l2) = l2.
Proof.
  induction l1 as [|x l1 [IH1 IH2]]; simpl; [now split|].
  split; [now rewrite IH1 | exact IH2].
Qed.

Lemma in_flight_adds (pc : nat) (ts : list Task) (i : nat) (t : Task) :
  Forall (adds_to pc) ts -> nth_error ts i = Some t ->
  exists k, t = IceAddIceCandidate pc k /\
    Permutation (in_flight ts)
      (k :: in_flight (firstn i ts ++ skipn (S i) ts)) /\
    Forall (adds_to pc) (firstn i ts ++ skipn (S i) ts).
Proof.
  intros Hall Hn.
  destruct (nth_error_split _ _ Hn) as (l1 & l2 & -> & <-).
  destruct (remove_middle l1 l2 t) as [-> ->].
  apply Forall_app in Hall. destruct Hall as [H1 H2].
  inversion H2 as [|? ? Ht H2']; subst.
  destruct t; simpl in Ht; try contradiction. subst.
  eexists. split; [reflexivity|].
  split; [|apply Forall_app; now split].
  rewrite !in_flight_app. simpl. symmetry. apply Permutation_middle.
Qed.

Section Answering.

Variable env : Env.
Hypothesis Hcoop : cooperative env.
Variable offer : Sdp.
Variable pc : nat.

Lemma occur_arrival (chatId : option string) (k : IceCandidate)
  (m : Machine) :
  occur env (Call chatId (HandleIceCandidate (Some k))) m
  = match peerConnectionRef (refs (world m)) with
    | Some held =>
        match remoteDescription held with
        | Some _ =>
            {| world := render (world m);
               suspended := suspended m
                            ++ [IceAddIceCandidate (created (world m)) k] |}
        | None =>
            {| world := render (set_pendingIceRef
                                  (pendingIceRef (refs (world m)) ++ [k])
                                  (world m));
               suspended := suspended m ++ [] |}
        end
    | None =>
        {| world := render (set_pendingIceRef
                              (pendingIceRef (refs (world m)) ++ [k])
                              (world m));
           suspended := suspended m ++ [] |}
    end.
Proof.
  unfold occur, begin.
  destruct (peerConnectionRef (refs (world m))) as [held|];
    [destruct (remoteDescription held)|]; reflexivity.
Qed.

Lemma flushing_arrival (ts : list Task) (pending : list IceCandidate)
  (k : IceCandidate) :
  flushing pc ts pending ->
  flushing pc (ts ++ [IceAddIceCandidate pc k]) pending.
Proof.
  assert (Hk : Forall (adds_to pc) [IceAddIceCandidate pc k])
    by (repeat constructor).
  unfold flushing.
  destruct ts as [|t rest]; simpl; [intros [-> _]; now split|].
  destruct t; simpl;
    try (intros (H1 & H2 & H3); repeat split; try assumption;
         now apply Forall_app);
    try (intros (H1 & H2); repeat split; try assumption;
         now apply Forall_app);
    try (intros (H1 & H2); split; [assumption|];
         inversion H2; subst; simpl in *; contradiction).
  intros (H1 & H2). split; [assumption|].
  change (Forall (adds_to pc)
            ((IceAddIceCandidate pc0 candidate :: rest)
             ++ [IceAddIceCandidate pc k])).
  now apply Forall_app.
Qed.

Lemma answering_arrival (chatId : option string) (k : IceCandidate)
  (arrived : list IceCandidate) (m : Machine) :
  answering offer pc arrived m ->
  answering offer pc (arrived ++ [k])
    (occur env (Call chatId (HandleIceCandidate (Some k))) m).
Proof.
  rewrite occur_arrival.
  intros [c Hs Hp Hc Hb | c held Hs Hp Hr Hi Hc Hb | held Hp Hr Hc Hf Hperm];
    rewrite Hp; try rewrite Hr.
  - apply awaiting_media with c; simpl; rewrite ?app_nil_r; try assumption.
    now rewrite Hb.
  - apply awaiting_remote with c held; simpl; rewrite ?app_nil_r;
      try assumption. now rewrite Hb.
  - apply applying with held; simpl; try assumption.
    + rewrite Hc. now apply flushing_arrival.
    + rewrite in_flight_app. simpl.
      rewrite Hperm. rewrite <- !app_assoc.
      apply Permutation_app_head. apply Permutation_app_head.
      apply Permutation_app_comm.
Qed.

Lemma on_pc_held (f : PeerConnection -> PeerConnection) (w : World)
  (held : PeerConnection) :
  peerConnectionRef (refs w) = Some held -> created w = pc ->
  on_pc pc f w = set_peerConnectionRef (Some (f held)) w.
Proof.
  intros Hp Hc. unfold on_pc. now rewrite Hp, Hc, Nat.eqb_refl.
Qed.

Lemma adds_flushing (ts : list Task) :
  Forall (adds_to pc) ts -> flushing pc ts [].
Proof.
  intros H. unfold flushing.
  destruct ts as [|t rest]; [now split|].
  inversion H as [|? ? Ht Hr]; subst.
  destruct t; simpl in Ht; try contradiction. now split.
Qed.

(** A handler of a candidate signal resumes. *)
Lemma settle_adds (arrived : list IceCandidate) (w : World)
  (ts : list Task) (held : PeerConnection) (i : nat) (k : IceCandidate)
  (head : list Task) :
  peerConnectionRef (refs w) = Some held ->
  remoteDescription held = Some offer ->
  created w = pc ->
  nth_error ts i = Some (IceAddIceCandidate pc k) ->
  Permutation (in_flight ts)
    (k :: in_flight (firstn i ts ++ skipn (S i) ts)) ->
  flushing pc (head ++ firstn i ts ++ skipn (S i) ts)
    (pendingIceRef (refs w)) ->
  Permutation arrived
    (iceCandidates held ++ in_flight (head ++ ts) ++ pendingIceRef (refs w)) ->
  answering offer pc arrived
    {| world := render (on_pc pc (pc_addIceCandidate k) w);
       suspended := head ++ firstn i ts ++ skipn (S i) ts |}.
Proof.
  intros Hp Hr Hc Hn Hperm Hf Harr.
  rewrite (on_pc_held _ _ Hp Hc).
  apply applying with (pc_addIceCandidate k held);
    [reflexivity | exact Hr | exact Hc | exact Hf |].
  cbn [world suspended render set_peerConnectionRef set_callRefs with_refs
       refs peerConnectionRef pendingIceRef pc_addIceCandidate
       iceCandidates].
  rewrite Harr. rewrite (in_flight_app head ts), Hperm.
  rewrite (in_flight_app head (firstn i ts ++ skipn (S i) ts)).
  set (X := in_flight (firstn i ts ++ skipn (S i) ts)).
  rewrite <- !app_assoc. apply Permutation_app_head.
  change ((k :: X) ++ pendingIceRef (refs w))
    with (k :: X ++ pendingIceRef (refs w)).
  change ([k] ++ in_flight head ++ X ++ pendingIceRef (refs w))
    with (k :: in_flight head ++ X ++ pendingIceRef (refs w)).
  symmetry. apply Permutation_middle.
Qed.

Lemma answering_settle (i : nat) (arrived : list IceCandidate)
  (m : Machine) :
  answering offer pc arrived m ->
  answering offer pc arrived (occur env (Settle i) m).
Proof.
  destruct Hcoop as ((stream & Hmedia) & (answer & Hanswer) & Hlocal
                     & Hremote & Hadd).
  destruct m as [w ts]. unfold occur. simpl.
  intros H. pose proof H as Hsame.
  destruct H as [c Hs Hp Hc Hb | c held Hs Hp Hr Hi Hc Hb
                | held Hp Hr Hc Hf Hperm]; simpl in *.
  - subst ts. destruct i as [|i]; simpl; [|now destruct i].
    rewrite Hmedia. simpl.
    apply awaiting_remote with c (pc_addTracks stream new_RTCPeerConnection);
      simpl; try reflexivity; try assumption.
    + unfold created. simpl. rewrite filter_app, length_app. simpl.
      unfold created in Hc. rewrite <- Hc. rewrite Nat.add_1_r.
      reflexivity.
    + unfold created. simpl. rewrite filter_app, length_app. simpl.
      unfold created in Hc. lia.
  - subst ts. destruct i as [|i]; simpl; [|now destruct i].
    rewrite Hremote. rewrite (on_pc_held _ _ Hp Hc).
    unfold flush_next. simpl. subst arrived.
    destruct (pendingIceRef (refs w)) as [|k rest] eqn:Eb; simpl.
    + apply applying with (pc_setRemoteDescription offer held);
        [reflexivity | reflexivity | exact Hc | |].
      * simpl. repeat split; [exact Eb | constructor].
      * simpl. rewrite Hi, Eb. reflexivity.
    + apply applying with (pc_setRemoteDescription offer held);
        [reflexivity | reflexivity | exact Hc | |].
      * simpl. repeat split; constructor.
      * simpl. rewrite Hi. reflexivity.
  - destruct (nth_error ts i) as [t|] eqn:Hn; [|exact Hsame].
    unfold flushing in Hf.
    destruct ts as [|head rest]; [now destruct i|].
    destruct head as [c0|c0 n0|c0 n0 o0|c0 o0|c0 n0 o0|c0 n0 k0|c0 n0
                    |c0 n0 a0|n0 a0|n0 k0]; simpl in Hf;
      try (destruct Hf as (_ & Hf); inversion Hf; subst; simpl in *;
           contradiction).
    + (* the flush loop *)
      destruct Hf as (-> & Hrest). destruct i as [|i]; simpl in Hn.
      * injection Hn as <-. cbn -[in_flight]. rewrite Hadd.
        rewrite (on_pc_held _ _ Hp Hc). unfold flush_next.
        cbn -[in_flight].
        change (in_flight (OfferAddIceCandidate c0 pc k0 :: rest))
          with (k0 :: in_flight rest) in Hperm.
        destruct (pendingIceRef (refs w)) as [|k' p'] eqn:Eb;
          cbn -[in_flight];
          apply applying with (pc_addIceCandidate k0 held);
          try reflexivity; try exact Hr; try exact Hc.
        -- cbn. now repeat split.
        -- cbn -[in_flight]. rewrite Eb, Hperm, <- !app_assoc.
           apply Permutation_app_head. reflexivity.
        -- cbn. now split.
        -- cbn -[in_flight]. rewrite Hperm, <- !app_assoc.
           apply Permutation_app_head.
           change (in_flight (OfferAddIceCandidate c0 pc k' :: rest))
             with (k' :: in_flight rest).
           cbn -[in_flight]. apply perm_skip.
           symmetry. apply Permutation_middle.
      * destruct (in_flight_adds _ Hrest Hn) as (k & -> & Hk & Hall).
        cbn -[in_flight firstn skipn]. rewrite Hadd.
        apply (@settle_adds arrived w rest held i k
                 [OfferAddIceCandidate c0 pc k0]);
          try assumption.
        cbn. now split.
    + (* the answer is asked for *)
      destruct Hf as (-> & Hb & Hrest). destruct i as [|i]; simpl in Hn.
      * injection Hn as <-. cbn -[in_flight]. rewrite Hanswer.
        cbn -[in_flight].
        apply applying with held; try assumption.
        cbn. now repeat split.
      * destruct (in_flight_adds _ Hrest Hn) as (k & -> & Hk & Hall).
        cbn -[in_flight firstn skipn]. rewrite Hadd.
        apply (@settle_adds arrived w rest held i k
                 [OfferCreateAnswer c0 pc]);
          try assumption.
        cbn. now repeat split.
    + (* the answer is set *)
      destruct Hf as (-> & Hb & Hrest). destruct i as [|i]; simpl in Hn.
      * injection Hn as <-. cbn -[in_flight]. rewrite Hlocal.
        rewrite (on_pc_held _ _ Hp Hc). cbn -[in_flight].
        apply applying with (pc_setLocalDescription a0 held);
          try reflexivity; try exact Hr; try exact Hc.
        -- cbn. rewrite Hb. now apply adds_flushing.
        -- exact Hperm.
      * destruct (in_flight_adds _ Hrest Hn) as (k & -> & Hk & Hall).
        cbn -[in_flight firstn skipn]. rewrite Hadd.
        apply (@settle_adds arrived w rest held i k
                 [OfferSetLocalDescription c0 pc a0]);
          try assumption.
        cbn. now repeat split.
    + (* handlers of candidate signals only *)
      destruct Hf as (Hb & Hall).
      destruct (in_flight_adds _ Hall Hn) as (k & -> & Hk & Hall').
      cbn -[in_flight firstn skipn]. rewrite Hadd.
      apply (@settle_adds arrived w
               (IceAddIceCandidate n0 k0 :: rest) held i k []);
        try assumption.
      cbn -[firstn skipn]. rewrite Hb. now apply adds_flushing.
Qed.

(** Candidates arrive, and handlers resume, in any order. *)
Lemma answering_schedule (es : list Event) (arrived : list IceCandidate)
  (m : Machine) :
  candidates_only es = true ->
  answering offer pc arrived m ->
  answering offer pc (arrived ++ arrivals es) (schedule env es m).
Proof.
  unfold schedule. revert arrived m.
  induction es as [|e es IH]; simpl; intros arrived m Hes Hm.
  - now rewrite app_nil_r.
  - apply andb_prop in Hes. destruct Hes as [He Hes].
    destruct e as [chatId o|i].
    + destruct o; try discriminate.
      destruct candidate as [k|]; [|discriminate].
      change (arrived ++ [k] ++ arrivals es)
        with (arrived ++ ([k] ++ arrivals es)).
      rewrite app_assoc. apply IH; [exact Hes|].
      now apply answering_arrival.
    + apply IH; [exact Hes|]. now apply answering_settle.
Qed.

(** While a handler is suspended, the settling of the promise of the
    oldest brings the end one step nearer. *)
Lemma settle_progress (arrived : list IceCandidate) (m : Machine) :
  answering offer pc arrived m -> suspended m <> [] ->
  S (remaining (occur env (Settle 0) m)) = remaining m.
Proof.
  destruct Hcoop as ((stream & Hmedia) & (answer & Hanswer) & Hlocal
                     & Hremote & Hadd).
  destruct m as [w ts]. unfold occur, remaining. simpl.
  intros [c Hs Hp Hc Hb | c held Hs Hp Hr Hi Hc Hb
         | held Hp Hr Hc Hf Hperm] Hne; simpl in *.
  - subst ts. simpl. rewrite Hmedia. simpl; first [reflexivity | lia].
  - subst ts. simpl. rewrite Hremote. rewrite (on_pc_held _ _ Hp Hc).
    unfold flush_next. simpl.
    destruct (pendingIceRef (refs w)) eqn:Eb; simpl; rewrite ?Eb; simpl;
      first [reflexivity | lia].
  - destruct ts as [|head rest]; [contradiction|]. simpl.
    unfold flushing in Hf.
    destruct head as [c0|c0 n0|c0 n0 o0|c0 o0|c0 n0 o0|c0 n0 k0|c0 n0
                     |c0 n0 a0|n0 a0|n0 k0]; simpl in Hf;
      try (destruct Hf as (_ & Hf); inversion Hf; subst; simpl in *;
           contradiction).
    + destruct Hf as (-> & _). simpl. rewrite Hadd.
      rewrite (on_pc_held _ _ Hp Hc). unfold flush_next. simpl.
      destruct (pendingIceRef (refs w)) eqn:Eb; simpl; rewrite ?Eb; simpl;
      first [reflexivity | lia].
    + destruct Hf as (-> & Hb & _). simpl. rewrite Hanswer. simpl.
      rewrite ?Hb. simpl. first [reflexivity | lia].
    + destruct Hf as (-> & Hb & _). simpl. rewrite Hlocal.
      rewrite (on_pc_held _ _ Hp Hc). simpl. rewrite ?Hb. simpl.
      first [reflexivity | lia].
    + destruct Hf as (Hb & Hf). pose proof (Forall_inv Hf) as Hn.
      simpl in Hn. subst n0. simpl. rewrite Hadd.
      rewrite (on_pc_held _ _ Hp Hc). simpl. rewrite ?Hb. simpl.
      first [reflexivity | lia].
Qed.

Lemma remaining_none (m : Machine) :
  remaining m = 0 -> suspended m = [].
Proof.
  unfold remaining. destruct (suspended m) as [|t ts]; [reflexivity|].
  simpl. destruct t; simpl; lia.
Qed.

Lemma settle_nothing (n : nat) (m : Machine) :
  suspended m = [] -> schedule env (repeat (Settle 0) n) m = m.
Proof.
  intros Es. induction n as [|n IH]; [reflexivity|].
  change (schedule env (repeat (Settle 0) (S n)) m)
    with (schedule env (repeat (Settle 0) n) (occur env (Settle 0) m)).
  assert (Hsame : occur env (Settle 0) m = m)
    by (unfold occur; now rewrite Es).
  now rewrite Hsame.
Qed.

(** Left alone, the suspended handlers all come to their end. *)
Lemma answering_ends (arrived : list IceCandidate) (m : Machine) :
  answering offer pc arrived m ->
  suspended (schedule env (repeat (Settle 0) (remaining m)) m) = [].
Proof.
  remember (remaining m) as n eqn:En. revert m En.
  induction n as [|n IH]; intros m En Hm.
  - now apply remaining_none.
  - destruct (suspended m) as [|t ts] eqn:Es.
    + now rewrite settle_nothing.
    + change (schedule env (repeat (Settle 0) (S n)) m)
        with (schedule env (repeat (Settle 0) n) (occur env (Settle 0) m)).
      apply IH; [|now apply answering_settle].
      assert (Hne : suspended m <> []) by (rewrite Es; discriminate).
      pose proof (settle_progress Hm Hne) as Hp. lia.
Qed.

End Answering.

(** Before the offer nothing is suspended and every candidate is
    buffered. *)
Lemma buffering (env : Env) (es : list Event) (w : World) :
  candidates_only es = true ->
  peerConnectionRef (refs w) = None ->
  exists w',
    schedule env es (mounted w) = mounted w' /\
    peerConnectionRef (refs w') = None /\
    pendingIceRef (refs w') = pendingIceRef (refs w) ++ arrivals es /\
    st w' = st w /\ created w' = created w.
Proof.
  unfold schedule. revert w.
  induction es as [|e es IH]; simpl; intros w Hes Hp.
  - exists w. rewrite app_nil_r. now repeat split.
  - apply andb_prop in Hes. destruct Hes as [He Hes].
    destruct e as [chatId o|i].
    + destruct o; try discriminate.
      destruct candidate as [k|]; [|discriminate].
      rewrite occur_arrival. simpl. rewrite Hp.
      destruct (IH (render (set_pendingIceRef
                              (pendingIceRef (refs w) ++ [k]) w)) Hes Hp)
        as (w' & Hrun & Hp' & Hb & Hst & Hc).
      exists w'. unfold mounted in *. simpl in *. rewrite Hrun.
      split; [reflexivity|]. split; [exact Hp'|].
      split; [now rewrite Hb, <- app_assoc|]. now split.
    + simpl. destruct i; simpl; apply IH; assumption.
Qed.

Lemma schedule_app (env : Env) (a b : list Event) (m : Machine) :
  schedule env (a ++ b) m = schedule env b (schedule env a m).
Proof. unfold schedule. apply fold_left_app. Qed.

(** X13.  On the callee's side, with a media stack that refuses nothing, a
    call id known, no peer connection yet and an empty buffer: candidates
    arrive before the offer, and after it while the handler of the offer and
    those of the candidates wait and resume in any order.  Left alone the
    handlers all come to their end; and once none is suspended every
    candidate that arrived has been handed to the peer connection exactly
    once, after the remote description was set, and the buffer is empty.
    The order in which they were handed over need not be the order of
    arrival. *)
Theorem callee_applies_every_candidate_once (env : Env)
  (chatId : option string) (offer : Sdp) (before after : list Event)
  (w : World) :
  cooperative env ->
  truthy (callId (st w)) = true ->
  peerConnectionRef (refs w) = None -> pendingIceRef (refs w) = [] ->
  candidates_only before = true -> candidates_only after = true ->
  let m := schedule env
             (before ++ Call chatId (HandleCallOffer offer) :: after)
             (mounted w) in
  (exists n, suspended (schedule env (repeat (Settle 0) n) m) = []) /\
  (suspended m = [] ->
   exists pc,
     peerConnectionRef (refs (world m)) = Some pc /\
     remoteDescription pc = Some offer /\
     Permutation (arrivals before ++ arrivals after) (iceCandidates pc) /\
     pendingIceRef (refs (world m)) = []).
Proof.
  intros Hcoop Hid Hp Hb Hbefore Hafter. cbv zeta.
  rewrite schedule_app.
  destruct (buffering env before w Hbefore Hp)
    as (w' & -> & Hp' & Hb' & Hst & _).
  rewrite Hb in Hb'. simpl in Hb'.
  change (schedule env (Call chatId (HandleCallOffer offer) :: after)
            (mounted w'))
    with (schedule env after
            (occur env (Call chatId (HandleCallOffer offer)) (mounted w'))).
  assert (Hm : exists c,
             occur env (Call chatId (HandleCallOffer offer)) (mounted w')
             = {| world := render (call_media GetUserMedia w');
                  suspended := [OfferGetUserMedia c offer] |}).
  { unfold occur, begin. simpl. rewrite Hst.
    destruct (callId (st w)) as [c|]; [|discriminate].
    simpl in Hid. destruct (String.eqb c ""); [discriminate|].
    now exists c. }
  destruct Hm as (c & ->).
  assert (Hstart : answering offer (S (created w')) (arrivals before)
                     {| world := render (call_media GetUserMedia w');
                        suspended := [OfferGetUserMedia c offer] |}).
  { apply awaiting_media with c; simpl; try assumption; try reflexivity.
    unfold created. simpl. rewrite filter_app, length_app. simpl.
    now rewrite Nat.add_0_r. }
  pose proof (answering_schedule Hcoop after Hafter Hstart) as Hend.
  set (m := schedule env after _) in *.
  split.
  - exists (remaining m). exact (answering_ends Hcoop Hend).
  - intros Hnone.
    destruct Hend as [c' Hs | c' held Hs | held Hp'' Hr Hc Hf Hperm];
      try (rewrite Hs in Hnone; discriminate).
    rewrite Hnone in Hf, Hperm. simpl in Hf, Hperm.
    destruct Hf as [Hpend _]. rewrite Hpend, app_nil_r in Hperm.
    exists held. now repeat split.
Qed.

(** Two candidates are buffered; a third arrives while the first is being
    added, and is added before the second. *)
Lemma callee_applies_every_candidate_once_witness :
  let accepted :=
    world (schedule env_ok
             [Call room (HandleCallIncoming "c1"); Call room AcceptCall]
             (mounted initial)) in
  let before := [Call room (HandleIceCandidate (Some "k1"));
                 Call room (HandleIceCandidate (Some "k2"))] in
  let after := [Settle 0; Settle 0;
                Call room (HandleIceCandidate (Some "k3"));
                Settle 0; Settle 1; Settle 0; Settle 0; Settle 0] in
  let m := schedule env_ok
             (before ++ Call room (HandleCallOffer "offer") :: after)
             (mounted accepted) in
  arrivals before ++ arrivals after = ["k1"; "k2"; "k3"] /\
  suspended m = [] /\
  option_map iceCandidates (peerConnectionRef (refs (world m)))
  = Some ["k1"; "k3"; "k2"] /\
  Permutation ["k1"; "k2"; "k3"] ["k1"; "k3"; "k2"].
Proof.
  cbv zeta.
  assert (Hcoop : cooperative env_ok).
  { unfold cooperative. simpl.
    split; [now exists mic|]. split; [now exists "answer"|].
    now repeat split. }
  pose proof (callee_applies_every_candidate_once room "offer"
                [Call room (HandleIceCandidate (Some "k1"));
                 Call room (HandleIceCandidate (Some "k2"))]
                [Settle 0; Settle 0;
                 Call room (HandleIceCandidate (Some "k3"));
                 Settle 0; Settle 1; Settle 0; Settle 0; Settle 0]
                (world (schedule env_ok
                          [Call room (HandleCallIncoming "c1");
                           Call room AcceptCall]
                          (mounted initial)))
                Hcoop eq_refl eq_refl eq_refl eq_refl eq_refl)
    as (_ & Hall).
  destruct (Hall eq_refl) as (pc & Hpc & _ & Hperm & _).
  split; [reflexivity|]. split; [reflexivity|]. split; [reflexivity|].
  vm_compute in Hpc. injection Hpc as <-. exact Hperm.
Defined.

(** *** The steps of [WebRTC.run] as schedules *)

Lemma settle_mounted (env : Env) (n : nat) (w : World) :
  schedule env (repeat (Settle 0) n) (mounted w) = mounted w.
Proof.
  induction n as [|n IH]; [reflexivity|]. exact IH.
Qed.

(** The flush loop, when nothing else happens while it runs. *)
Lemma flush_schedule (env : Env) (c : string) (s : State)
  (l r : option MediaStream) (la ra : option AudioElement) (flag : bool)
  (snt : list ClientEvent) (al : list string) (md : list MediaCall)
  (ks : list IceCandidate) (held : PeerConnection) (k : IceCandidate) :
  let W := fun p b =>
    {| st := s;
       refs := {| peerConnectionRef := Some p; localStreamRef := l;
                  remoteStreamRef := r; localAudioRef := la;
                  remoteAudioRef := ra; pendingIceRef := b;
                  callIdRef := callId s; callStateRef := callState s;
                  isEndingCallRef := flag |};
       sent := snt; alerts := al; media := md |} in
  schedule env (repeat (Settle 0) (S (List.length ks)))
    {| world := W held ks;
       suspended := [OfferAddIceCandidate c (created (W held ks)) k] |}
  = {| world := W (flush env (k :: ks) held) [];
       suspended := [OfferCreateAnswer c (created (W held ks))] |}.
Proof.
  cbv zeta. revert held k.
  induction ks as [|k' ks IH]; intros held k.
  - simpl. unfold on_pc, created. simpl. rewrite Nat.eqb_refl.
    destruct (addIceCandidate env k); reflexivity.
  - change (repeat (Settle 0) (S (List.length (k' :: ks))))
      with (Settle 0 :: repeat (Settle 0) (S (List.length ks))).
    change (schedule env (Settle 0 :: ?es) ?m)
      with (schedule env es (occur env (Settle 0) m)).
    unfold schedule at 1. simpl fold_left.
    fold (schedule env (repeat (Settle 0) (S (List.length ks)))).
    specialize (IH (if addIceCandidate env k
                    then pc_addIceCandidate k held else held) k').
    unfold created in *. simpl in *. unfold on_pc, created. simpl.
    rewrite Nat.eqb_refl.
    destruct (addIceCandidate env k); simpl; exact IH.
Qed.


Ltac compute_schedule :=
  repeat (cbn -[endCall Nat.eqb created schedule];
          unfold on_pc, handleCallAccepted, handleCallOffer,
            handleCallAnswer, handleIceCandidate, open_media,
            catch_endCall, catch, render, set_callRefs, with_refs,
            call_media;
          cbn -[endCall Nat.eqb created schedule];
          rewrite ?Nat.eqb_refl;
          repeat match goal with
            | E : callId ?s = _ |- context [callId ?s] => rewrite E
            end).

Lemma settles_split (n : nat) :
  Settle 0 :: Settle 0 :: repeat (Settle 0) n
  = repeat (Settle 0) n ++ [Settle 0; Settle 0].
Proof.
  induction n as [|n IH]; simpl; [reflexivity | now rewrite <- IH].
Qed.

Lemma schedule_cons (env : Env) (e : Event) (es : list Event)
  (m : Machine) :
  schedule env (e :: es) m = schedule env es (occur env e m).
Proof. reflexivity. Qed.

(** A step of [WebRTC.run] is a schedule: the one in which every promise
    of the handler settles before anything else happens. *)
Lemma step_is_a_schedule (env : Env) (chatId : option string) (o : Op)
  (w : World) :
  render w = w ->
  exists n,
    schedule env (Call chatId o :: repeat (Settle 0) n) (mounted w)
    = mounted (step env chatId o w).
Proof.
  destruct w as [s [pcr l r la ra pend cidr csr flag] snt al md].
  intros Hr. unfold render in Hr. simpl in Hr. injection Hr as Hc Hs.
  subst cidr csr.
  destruct o;
    try (exists 0; reflexivity).
  - (* handleCallAccepted *)
    exists 3. unfold schedule, mounted, step, occur, handleCallAccepted,
      open_media, catch_endCall, catch.
    cbn -[endCall Nat.eqb created].
    destruct (callId s) as [c|] eqn:Ec; compute_schedule; rewrite ?Ec;
      [|reflexivity].
    destruct (String.eqb c "") eqn:Eb; compute_schedule; rewrite ?Eb;
      [reflexivity|].
    compute_schedule.
    destruct (getUserMedia env) as [stream|]; compute_schedule;
      [|reflexivity].
    destruct (createOffer env) as [offer'|]; compute_schedule;
      [|reflexivity].
    destruct (setLocalDescription env offer'); compute_schedule;
      reflexivity.
  - (* handleCallOffer *)
    exists (4 + List.length pend).
    change (repeat (Settle 0) (4 + List.length pend))
      with (Settle 0 :: Settle 0
            :: repeat (Settle 0) (2 + List.length pend)).
    rewrite schedule_cons.
    unfold mounted, step, occur at 1.
    destruct (callId s) as [c|] eqn:Ec; compute_schedule;
      [|exact (settle_mounted env _ _)].
    destruct (String.eqb c "") eqn:Eb; compute_schedule; rewrite ?Eb;
      [exact (settle_mounted env _ _)|].
    rewrite schedule_cons. unfold occur at 1. compute_schedule.
    destruct (getUserMedia env) as [stream|]; compute_schedule;
      [|exact (settle_mounted env _ _)].
    rewrite schedule_cons. unfold occur at 1.
    remember (repeat (Settle 0) (2 + List.length pend)) as left eqn:El.
    compute_schedule.
    destruct (setRemoteDescription env offer); compute_schedule;
      [|subst left; exact (settle_mounted env _ _)].
    unfold flush_next. compute_schedule.
    destruct pend as [|k ks]; subst left.
    + compute_schedule. unfold schedule. compute_schedule.
      destruct (createAnswer env) as [answer|]; compute_schedule;
        [|reflexivity].
      destruct (setLocalDescription env answer); compute_schedule;
        reflexivity.
    + rewrite settles_split, schedule_app.
      change (List.length (k :: ks)) with (S (List.length ks)).
      pose proof (flush_schedule env c s (Some stream) r
                    (set_srcObject (Some (stream_id stream)) la) ra flag
                    snt al
                    ((md ++ [GetUserMedia]) ++ [PeerConnectionCreated]) ks
                    (pc_setRemoteDescription offer
                       (pc_addTracks stream new_RTCPeerConnection)) k)
        as Hflush.
      cbv zeta in Hflush. rewrite Ec in Hflush. compute_schedule.
      match goal with
      | |- schedule env ?l (schedule env _ _) = _ =>
          match type of Hflush with
          | _ = ?after =>
              transitivity (schedule env l after);
              [apply f_equal; exact Hflush|]
          end
      end.
      clear Hflush.
      unfold schedule. compute_schedule.
      destruct (addIceCandidate env k);
        (destruct (createAnswer env) as [answer|]; compute_schedule;
         [|reflexivity];
         destruct (setLocalDescription env answer); compute_schedule;
         reflexivity).
  - (* handleCallAnswer *)
    exists 1. unfold schedule, mounted, step, occur, handleCallAnswer,
      catch_endCall, catch.
    cbn -[endCall Nat.eqb created].
    destruct pcr as [held|]; [|reflexivity].
    destruct answer as [a|]; [|reflexivity].
    compute_schedule.
    destruct (setRemoteDescription env a); compute_schedule; reflexivity.
  - (* handleIceCandidate *)
    exists 1. unfold schedule, mounted, step, occur, handleIceCandidate.
    cbn -[endCall Nat.eqb created].
    destruct candidate as [k|]; [|reflexivity].
    destruct pcr as [held|]; [|reflexivity].
    compute_schedule.
    destruct (remoteDescription held); compute_schedule; [|reflexivity].
    destruct (addIceCandidate env k); compute_schedule; reflexivity.
Qed.


(** The worlds of [WebRTC.reachable] are those the machine reaches by
    such schedules, with no handler left suspended. *)
Lemma reachable_is_scheduled (w : World) :
  WebRTC.reachable w -> WebRTCAsync.reachable (mounted w).
Proof.
  induction 1 as [|env chatId o w Hw IH]; [constructor|].
  destruct (step_is_a_schedule env chatId o
              (render_tidy_id (reachable_tidy Hw))) as (n & <-).
  unfold schedule. generalize (Call chatId o :: repeat (Settle 0) n).
  intros es. revert IH. generalize (mounted w).
  induction es as [|e es IHes]; simpl; intros m Hm; [exact Hm|].
  apply IHes. now constructor.
Qed.

End WebRTCAsyncFacts.

(** ** The user page *)

Module PageFacts.

Import WebRTC WebRTCObs WebRTCFacts WebRTCMore Page.

Lemma skipn_length_app {A : Type} (s l : list A) :
  skipn (List.length s) (s ++ l) = l.
Proof. induction s as [|x s IH]; simpl; [reflexivity | exact IH]. Qed.

(** Frames handed to the socket hook one after the other: all written when
    the socket is open, none when it is not; nothing else moves. *)
Lemma send_all (stringify : ClientEvent -> string) (l : list ClientEvent)
  (h : ChatSocket.Hook) :
  let h' := fold_left (fun h f => ChatSocket.send stringify f h) l h in
  (ChatSocket.socket_open h = false -> h' = h) /\
  (ChatSocket.socket_open h = true ->
   ChatSocket.written h'
   = ChatSocket.written h ++ map stringify l) /\
  ChatSocket.chatId h' = ChatSocket.chatId h /\
  ChatSocket.callEvent h' = ChatSocket.callEvent h /\
  ChatSocket.messages h' = ChatSocket.messages h.
Proof.
  revert h. induction l as [|f l IH]; intros h; simpl.
  - split; [reflexivity|]. split; [now rewrite app_nil_r | now repeat split].
  - destruct (IH (ChatSocket.send stringify f h)) as (Hc & Ho & Hid & Hev & Hm).
    destruct (ChatSocketFacts.send_drops_unless_open stringify f h)
      as [Hdrop Hwrite].
    destruct (ChatSocket.socket_open h) eqn:E.
    + destruct (Hwrite eq_refl) as (Hw & s & Hs & Hsend).
      split; [discriminate|]. split.
      * intros _. rewrite Ho, Hw, <- app_assoc; [reflexivity|].
        rewrite Hsend. unfold ChatSocket.socket_open in *. simpl.
        now rewrite Hs in E.
      * rewrite Hid, Hev, Hm, Hsend. now repeat split.
    + rewrite (Hdrop eq_refl) in *.
      split; [intros _; now apply Hc|]. split; [discriminate|].
      now repeat split.
Qed.

Lemma send_setCallEvent (stringify : ClientEvent -> string)
  (x : option ServerCallEvent) (f : ClientEvent) (h : ChatSocket.Hook) :
  ChatSocket.send stringify f (ChatSocket.setCallEvent x h)
  = ChatSocket.setCallEvent x (ChatSocket.send stringify f h).
Proof.
  unfold ChatSocket.send. simpl.
  destruct (ChatSocket.wsRef h) as [s|]; [|reflexivity].
  now destruct (ChatSocket.ReadyState_eqb (ChatSocket.readyState s)
                  ChatSocket.OPEN).
Qed.

Lemma send_all_setCallEvent (stringify : ClientEvent -> string)
  (x : option ServerCallEvent) (l : list ClientEvent) (h : ChatSocket.Hook) :
  fold_left (fun h f => ChatSocket.send stringify f h) l
    (ChatSocket.setCallEvent x h)
  = ChatSocket.setCallEvent x
      (fold_left (fun h f => ChatSocket.send stringify f h) l h).
Proof.
  revert h. induction l as [|f l IH]; intros h; simpl; [reflexivity|].
  now rewrite send_setCallEvent, IH.
Qed.

(** Delivering a signal is running its operation, the mailbox empty
    afterwards. *)
Lemma deliver_runs_the_operation (stringify : ClientEvent -> string)
  (getTime : string -> option Z)
  (runtimeSort : list Chatroom -> list Chatroom) (env : Env)
  (c : ServerCallEvent) (p : Page) :
  deliver stringify getTime runtimeSort env c p
  = on_hook ChatSocket.clearCallEvent
      (engine stringify env (op_of c)
         match c with
         | ServerCallError error => toast (error_toast error) p
         | _ => p
         end).
Proof.
  unfold deliver, call_effect, on_frame, on_hook, engine. simpl.
  destruct c; simpl; rewrite send_all_setCallEvent; reflexivity.
Qed.

(** X15.  Call signals reach the engine through a mailbox of one slot.
    Once the page's effect has run the slot is empty, and with an empty slot
    the effect does nothing.  A signal that arrives before the effect has
    run for the one before it takes its place: the earlier signal is never
    handled.  The call id a signal carries plays no part in how an accepted,
    offer, answer, candidate or ended signal is handled. *)
Theorem call_signals_pass_through_one_slot
  (stringify : ClientEvent -> string) (getTime : string -> option Z)
  (runtimeSort : list Chatroom -> list Chatroom) (env : Env)
  (c1 c2 : ServerCallEvent) (id id' : string) (sdp : Sdp)
  (answer : option Sdp) (candidate : option IceCandidate) (p : Page) :
  ChatSocket.callEvent
    (hook (deliver stringify getTime runtimeSort env c1 p)) = None /\
  (ChatSocket.callEvent (hook p) = None -> call_effect stringify env p = p) /\
  call_effect stringify env
    (on_frame getTime runtimeSort (ServerCall c2)
       (on_frame getTime runtimeSort (ServerCall c1) p))
  = deliver stringify getTime runtimeSort env c2 p /\
  deliver stringify getTime runtimeSort env (ServerCallAccepted id) p
  = deliver stringify getTime runtimeSort env (ServerCallAccepted id') p /\
  deliver stringify getTime runtimeSort env (ServerCallOffer id sdp) p
  = deliver stringify getTime runtimeSort env (ServerCallOffer id' sdp) p /\
  deliver stringify getTime runtimeSort env (ServerCallAnswer id answer) p
  = deliver stringify getTime runtimeSort env (ServerCallAnswer id' answer) p /\
  deliver stringify getTime runtimeSort env (ServerCallIce id candidate) p
  = deliver stringify getTime runtimeSort env (ServerCallIce id' candidate) p /\
  deliver stringify getTime runtimeSort env (ServerCallEnded id) p
  = deliver stringify getTime runtimeSort env (ServerCallEnded id') p.
Proof.
  split; [now rewrite deliver_runs_the_operation|].
  split; [intros E; unfold call_effect; now rewrite E|].
  split; [reflexivity|].
  rewrite !deliver_runs_the_operation. now repeat split.
Qed.

(** A page at mount, and a ringing signal overtaken by an ended signal. *)
Lemma call_signals_pass_through_one_slot_witness :
  call_effect type_of env_ok initial = initial /\
  call_effect type_of env_ok
    (on_frame ChatSocket.day ChatSocket.as_received
       (ServerCall (ServerCallEnded "c1"))
       (on_frame ChatSocket.day ChatSocket.as_received
          (ServerCall (ServerCallRinging "c1")) initial))
  = deliver type_of ChatSocket.day ChatSocket.as_received env_ok
      (ServerCallEnded "c1") initial.
Proof.
  pose proof (call_signals_pass_through_one_slot type_of ChatSocket.day
      ChatSocket.as_received
                env_ok (ServerCallRinging "c1") (ServerCallEnded "c1")
                "c1" "c1" "offer" None None initial)
    as (_ & Hidle & Hreplace & _).
  split; [exact (Hidle eq_refl) | exact Hreplace].
Defined.

(** *** The engine's frames and the socket *)

Lemma engine_frames (stringify : ClientEvent -> string) (env : Env) (o : Op)
  (p : Page) :
  exists l,
    sent (call (engine stringify env o p)) = sent (call p) ++ l /\
    List.length l <= 1 /\
    hook (engine stringify env o p)
    = fold_left (fun h f => ChatSocket.send stringify f h) l (hook p).
Proof.
  unfold engine, new_frames. simpl.
  destruct (invoke_sent env (ChatSocket.chatId (hook p)) o (st (call p))
              (call p)) as [E | (f & E & _)].
  - exists []. unfold step, render. simpl. rewrite E, app_nil_r.
    split; [reflexivity|]. split; [simpl; lia|].
    now rewrite <- (app_nil_r (sent (call p))) at 2;
      rewrite skipn_length_app.
  - exists [f]. unfold step, render. simpl. rewrite E.
    split; [reflexivity|]. split; [simpl; lia|].
    now rewrite skipn_length_app.
Qed.

(** X16.  On the page the engine's [send] is the socket hook's.  While the
    socket is open, the frames an operation of the engine hands over are
    written, serialised, in the order handed over.  While it is not, the
    operation runs all the same and its frame is lost: the socket hook is
    left as it was.  So a call started with the socket down leaves the
    engine ringing, as initiator, with nothing on the wire. *)
Theorem engine_frames_need_an_open_socket
  (stringify : ClientEvent -> string) (env : Env) (o : Op) (p : Page) :
  let p' := engine stringify env o p in
  call p' = step env (ChatSocket.chatId (hook p)) o (call p) /\
  (ChatSocket.socket_open (hook p) = true ->
   exists l, sent (call p') = sent (call p) ++ l /\
             ChatSocket.written (hook p')
             = ChatSocket.written (hook p) ++ map stringify l) /\
  (ChatSocket.socket_open (hook p) = false -> hook p' = hook p) /\
  (ChatSocket.socket_open (hook p) = false ->
   truthy (ChatSocket.chatId (hook p)) = true ->
   callState (st (call p)) = idle ->
   let started := engine stringify env StartCall p in
   callState (st (call started)) = ringing /\
   isInitiator (st (call started)) = true /\
   sent (call started) = sent (call p) ++ [ClientCallStart] /\
   hook started = hook p).
Proof.
  cbv zeta. split; [reflexivity|].
  destruct (engine_frames stringify env o p) as (l & Hs & _ & Hh).
  destruct (send_all stringify l (hook p)) as (Hclosed & Hopen & _).
  split; [|split].
  - intros E. exists l. rewrite Hh. split; [exact Hs | now apply Hopen].
  - intros E. rewrite Hh. now apply Hclosed.
  - intros E Hchat Hidle.
    destruct (engine_frames stringify env StartCall p) as (l' & Hs' & _ & Hh').
    destruct (send_all stringify l' (hook p)) as (Hclosed' & _).
    rewrite Hh', (Hclosed' E).
    unfold engine, step, render. simpl. unfold startCall.
    rewrite Hchat, Hidle. simpl. now repeat split.
Qed.

(** A call started on a page that has never connected, with a
    conversation resolved. *)
Lemma engine_frames_need_an_open_socket_witness :
  let p := on_frame ChatSocket.day ChatSocket.as_received (ServerJoinedUser
      (Some "room")) initial in
  callState (st (call (engine type_of env_ok StartCall p))) = ringing /\
  ChatSocket.written (hook (engine type_of env_ok StartCall p)) = [].
Proof.
  cbv zeta.
  pose proof (engine_frames_need_an_open_socket type_of env_ok StartCall
                (on_frame ChatSocket.day ChatSocket.as_received
                    (ServerJoinedUser (Some "room"))
                   initial)) as (_ & _ & _ & H).
  destruct (H eq_refl eq_refl eq_refl) as (H1 & _ & _ & H2).
  split; [exact H1 | now rewrite H2].
Defined.

(** *** Ended and error signals *)

Lemma error_toast_not_empty (error : string) : error_toast error <> "".
Proof.
  unfold error_toast.
  destruct (String.eqb error "target_offline"); [discriminate|].
  destruct (String.eqb_spec error ""); [discriminate | assumption].
Qed.

(** X17.  An ended signal and an error signal both end the call, whatever
    the engine has been through: the engine is torn down and the mailbox is
    empty.  The error signal also shows one toast, whose description is
    never empty.  With a call id tracked, the engine answers either signal
    with a [call.end] under that id, which is written when the socket is
    open; with none tracked nothing is sent. *)
Theorem ended_and_error_signals_end_the_call
  (stringify : ClientEvent -> string) (getTime : string -> option Z)
  (runtimeSort : list Chatroom -> list Chatroom) (env : Env)
  (id error : string) (p : Page) :
  reachable (call p) ->
  let pd := deliver stringify getTime runtimeSort env (ServerCallEnded id) p in
  let pe := deliver stringify getTime runtimeSort env (ServerCallError error)
      p in
  torn_down (call pd) /\ torn_down (call pe) /\
  call pe = call pd /\
  ChatSocket.callEvent (hook pd) = None /\
  ChatSocket.callEvent (hook pe) = None /\
  toasts pd = toasts p /\
  toasts pe = toasts p ++ [error_toast error] /\
  error_toast error <> "" /\
  (truthy (callId (st (call p))) = false ->
   sent (call pd) = sent (call p) /\
   ChatSocket.written (hook pd) = ChatSocket.written (hook p)) /\
  (forall c, callId (st (call p)) = Some c -> c <> "" ->
   sent (call pd) = sent (call p) ++ [ClientCallEnd c] /\
   ChatSocket.written (hook pd)
   = ChatSocket.written (hook p)
     ++ (if ChatSocket.socket_open (hook p)
         then [stringify (ClientCallEnd c)] else [])).
Proof.
  intros Hw. cbv zeta. rewrite !deliver_runs_the_operation. simpl.
  pose proof (reachable_flag Hw) as Hflag.
  destruct (endCall_releases (st (call p)) (call p) Hflag) as (Hdown & _).
  assert (Hd : torn_down (step env (ChatSocket.chatId (hook p)) EndCall
                            (call p)))
    by (unfold step, render; simpl; exact Hdown).
  split; [exact Hd|]. split; [exact Hd|]. split; [reflexivity|].
  split; [reflexivity|]. split; [reflexivity|]. split; [reflexivity|].
  split; [reflexivity|]. split; [apply error_toast_not_empty|].
  unfold new_frames, step, render. simpl. split.
  - intros Hnone. rewrite (endCall_without_call_id _ _ Hnone).
    split; [reflexivity|].
    rewrite <- (app_nil_r (sent (call p))) at 2.
    now rewrite skipn_length_app.
  - intros c Hc Hne.
    destruct (endCall_with_call_id (st (call p)) (call p) Hc Hne Hflag)
      as (-> & _).
    split; [reflexivity|]. rewrite skipn_length_app. simpl.
    destruct (ChatSocketFacts.send_drops_unless_open stringify
                (ClientCallEnd c) (hook p)) as [Hdrop Hwrite].
    destruct (ChatSocket.socket_open (hook p)) eqn:E.
    + destruct (Hwrite eq_refl) as (Hwr & s & Hs & Hsend).
      rewrite Hsend in *. exact Hwr.
    + rewrite (Hdrop eq_refl). now rewrite app_nil_r.
Qed.

(** The page of a callee in a connected call, its socket never opened, and
    an error that carries no text. *)
Lemma ended_and_error_signals_end_the_call_witness :
  let p := {| hook := ChatSocket.initial; call := connected_callee;
              toasts := [] |} in
  callState (st (call (deliver type_of ChatSocket.day ChatSocket.as_received
      env_ok
                         (ServerCallEnded "c1") p))) = idle /\
  toasts (deliver type_of ChatSocket.day ChatSocket.as_received env_ok
      (ServerCallError "") p)
  = ["An error occurred during the call."].
Proof.
  cbv zeta.
  pose proof (ended_and_error_signals_end_the_call type_of ChatSocket.day
      ChatSocket.as_received
                env_ok "c1" ""
                {| hook := ChatSocket.initial; call := connected_callee;
                   toasts := [] |}
                (proj1 (proj2 examples_reachable)))
    as ((Hidle & _) & _ & _ & _ & _ & _ & Htoast & _).
  split; [exact Hidle | exact Htoast].
Defined.

End PageFacts.

(** ** The conversation view *)

Module UserPageFacts.

Import UserPage.

(** *** Senders *)

Lemma history_from_normal (f : option string) :
  history_from f <> Some "agent" /\ history_from f <> Some "superadmin".
Proof.
  unfold history_from.
  destruct (opt_string_eqb_spec f (Some "agent")) as [->|Ha]; simpl;
    [split; discriminate|].
  destruct (opt_string_eqb_spec f (Some "superadmin")) as [->|Hs]; simpl;
    [split; discriminate|].
  now split.
Qed.

Lemma or_default_truthy (a : option string) (d : string) :
  or_default a d = a \/ or_default a d = Some d.
Proof. unfold or_default. destruct (truthy a); auto. Qed.

(** X18.  What the view shows.  The history entries become the items of
    the view one for one and in place: each keeps its timestamp and its
    content (text, or file address, or audio address), has no identity token
    and no status, and shows its sender as ["admin"] when the entry says
    ["agent"] or ["superadmin"] and as the entry says otherwise; a file entry
    shows its name, or ["File"] when it has none, and its type, or the empty
    text; an audio entry is named ["Audio"].  The live items are shown one
    for one and in place, delivered: an item from ["superadmin"] as from
    ["admin"] and otherwise unchanged, any other item as it is.  The view is
    the history, then the optimistic items as they are, then the live
    items. *)
Theorem view_normalises_senders (conversation : list HistoryEntry)
  (messages : list ConversationItem) (optimistic : list Shown) :
  let hist := historyItems (Some conversation) in
  let live := normalizedLive messages in
  historyItems None = [] /\
  Forall2
    (fun c s =>
       status s = None /\ message_id (item s) = None /\
       created_at (item s) = he_created_at c /\
       (he_from c = Some "agent" \/ he_from c = Some "superadmin" ->
        from (item s) = Some "admin") /\
       (he_from c <> Some "agent" -> he_from c <> Some "superadmin" ->
        from (item s) = he_from c) /\
       (he_type c = Some "file" ->
        item s = FileItem (from (item s)) (he_file_url c)
                   (if truthy (he_file_name c) then he_file_name c
                    else Some "File")
                   (if truthy (he_file_type c) then he_file_type c
                    else Some "")
                   (he_created_at c) None) /\
       (he_type c <> Some "file" -> he_type c = Some "audio" ->
        item s = AudioItem (from (item s)) (he_audio_url c) (Some "Audio")
                   (Some "") (he_created_at c) None) /\
       (he_type c <> Some "file" -> he_type c <> Some "audio" ->
        item s = TextItem (from (item s)) (he_text c) (he_created_at c)
                   None None))
    conversation hist /\
  Forall (fun s => from (item s) <> Some "agent" /\
                   from (item s) <> Some "superadmin") hist /\
  (forall s f u n ty c i, In s hist -> item s = FileItem f u n ty c i ->
                          truthy n = true /\ ty <> None) /\
  Forall2
    (fun m s =>
       status s = Some delivered /\
       item s = with_from (from (item s)) m /\
       (from m = Some "superadmin" -> from (item s) = Some "admin") /\
       (from m <> Some "superadmin" -> item s = m))
    messages live /\
  Forall (fun s => from (item s) <> Some "superadmin") live /\
  combined hist optimistic live = hist ++ optimistic ++ live.
Proof.
  cbv zeta. split; [reflexivity|].
  split.
  { unfold historyItems.
    induction conversation as [|c l IH]; simpl; constructor; [|exact IH].
    unfold history_item, history_from, or_default.
    destruct (opt_string_eqb_spec (he_from c) (Some "agent")) as [Ea|Ha];
      destruct (opt_string_eqb_spec (he_from c) (Some "superadmin"))
        as [Es|Hs];
      destruct (opt_string_eqb_spec (he_type c) (Some "file")) as [Ef|Hf];
      destruct (opt_string_eqb_spec (he_type c) (Some "audio")) as [Eu|Hu];
      simpl; repeat split; try reflexivity; try congruence;
      try (intros [?|?]; congruence); intros; congruence. }
  split.
  { unfold historyItems. apply Forall_forall. intros s Hs.
    apply in_map_iff in Hs. destruct Hs as (c & <- & _).
    unfold history_item.
    destruct (history_from_normal (he_from c)) as [Ha Hsa].
    destruct (opt_string_eqb (he_type c) (Some "file")); simpl;
      [now split|].
    destruct (opt_string_eqb (he_type c) (Some "audio")); simpl;
      now split. }
  split.
  { intros s f u n ty c i Hs Hitem. unfold historyItems in Hs.
    apply in_map_iff in Hs. destruct Hs as (e & <- & _).
    unfold history_item in Hitem.
    destruct (opt_string_eqb (he_type e) (Some "file")); simpl in Hitem.
    - injection Hitem as _ _ <- <- _ _. split.
      + unfold or_default. destruct (truthy (he_file_name e)) eqn:E;
          [exact E | reflexivity].
      + unfold or_default. destruct (truthy (he_file_type e)) eqn:E;
          [|discriminate].
        destruct (he_file_type e); [discriminate | discriminate E].
    - destruct (opt_string_eqb (he_type e) (Some "audio")); discriminate. }
  split.
  { unfold normalizedLive.
    induction messages as [|m l IH]; simpl; constructor; [|exact IH].
    simpl.
    destruct (opt_string_eqb_spec (from m) (Some "superadmin")) as [E|Hne];
      destruct m; simpl in *; repeat split; congruence. }
  split.
  { unfold normalizedLive. apply Forall_forall. intros s Hs.
    apply in_map_iff in Hs. destruct Hs as (m & <- & _). simpl.
    destruct (opt_string_eqb_spec (from m) (Some "superadmin")) as [E|Hne];
      destruct m; simpl in *; congruence. }
  reflexivity.
Qed.

(** A file entry without a name, sent by an agent. *)
Lemma view_normalises_senders_witness :
  let entry := {| he_type := Some "file"; he_from := Some "agent";
                  he_text := None; he_file_url := Some "/f/1";
                  he_file_name := None; he_file_type := None;
                  he_audio_url := None; he_created_at := Some "0" |} in
  map item (historyItems (Some [entry]))
  = [FileItem (Some "admin") (Some "/f/1") (Some "File") (Some "")
       (Some "0") None] /\
  truthy (Some "File") = true.
Proof.
  cbv zeta.
  pose proof (view_normalises_senders
                [{| he_type := Some "file"; he_from := Some "agent";
                    he_text := None; he_file_url := Some "/f/1";
                    he_file_name := None; he_file_type := None;
                    he_audio_url := None; he_created_at := Some "0" |}]
                [] []) as (_ & _ & _ & Hfile & _).
  split; [reflexivity|].
  refine (proj1 (Hfile _ (Some "admin") (Some "/f/1") (Some "File")
                   (Some "") (Some "0") None (or_introl eq_refl) eq_refl)).
Defined.

(** *** Reconciliation of optimistic items *)

Lemma confirms_requires (getTime : option string -> option Z)
  (o s : Shown) :
  confirms getTime o s = true ->
  ((exists f t c i m f' c' i' m',
      item o = TextItem f t c i m /\ item s = TextItem f' t c' i' m') \/
   (exists f u n ty c i f' u' ty' c' i',
      item o = FileItem f u n ty c i /\
      item s = FileItem f' u' n ty' c' i')) /\
  exists x y, getTime (created_at (item o)) = Some x /\
              getTime (created_at (item s)) = Some y /\
              (Z.abs (x - y) < 5000)%Z.
Proof.
  unfold confirms, within_5s.
  destruct (item o) as [f t c i m|f u n ty c i|f u n ty c i];
    destruct (item s) as [f' t' c' i' m'|f' u' n' ty' c' i'|f' u' n' ty' c' i'];
    try discriminate; simpl; intros H; apply andb_prop in H;
    destruct H as [He Ht];
    destruct (getTime c) as [x|]; try discriminate;
    destruct (getTime c') as [y|]; try discriminate;
    (split; [|exists x, y; repeat split; now apply Z.ltb_lt]).
  - left. destruct (opt_string_eqb_spec t t'); [subst|discriminate].
    now exists f, t', c, i, m, f', c', i', m'.
  - right. destruct (opt_string_eqb_spec n n'); [subst|discriminate].
    now exists f, u, n', ty, c, i, f', u', ty', c', i'.
Qed.

Lemma filter_idempotent {A : Type} (p : A -> bool) (l : list A) :
  filter p (filter p l) = filter p l.
Proof.
  induction l as [|x l IH]; simpl; [reflexivity|].
  destruct (p x) eqn:E; simpl; [now rewrite E, IH | exact IH].
Qed.

(** X19.  The reconciliation of optimistic items with live ones.  The
    guard on empty lists changes nothing: the effect keeps exactly the
    optimistic items that no live item confirms, in their order.  A live item
    confirms an optimistic one only if both are texts with the same text, or
    both files with the same file name, and both timestamps parse and lie
    less than five seconds apart; so an audio item, and an item whose
    timestamp does not parse, is never removed.  Running the effect again
    removes nothing more; and an optimistic item added while a live item
    that confirms it is there is gone after the effect. *)
Theorem reconciliation_removes_confirmed_items_only
  (getTime : option string -> option Z) (live optimistic : list Shown)
  (message : Shown) :
  let kept := reconcile getTime live optimistic in
  kept = unconfirmed getTime live optimistic /\
  (forall o, In o kept <->
             In o optimistic /\
             forall s, In s live -> confirms getTime o s = false) /\
  (forall o s, confirms getTime o s = true ->
     ((exists f t c i m f' c' i' m',
         item o = TextItem f t c i m /\ item s = TextItem f' t c' i' m') \/
      (exists f u n ty c i f' u' ty' c' i',
         item o = FileItem f u n ty c i /\
         item s = FileItem f' u' n ty' c' i')) /\
     exists x y, getTime (created_at (item o)) = Some x /\
                 getTime (created_at (item s)) = Some y /\
                 (Z.abs (x - y) < 5000)%Z) /\
  (forall o, In o optimistic ->
     (exists f u n ty c i, item o = AudioItem f u n ty c i) \/
     getTime (created_at (item o)) = None ->
     In o kept) /\
  reconcile getTime live kept = kept /\
  List.length kept <= List.length optimistic /\
  ((exists s, In s live /\
              confirms getTime
                {| item := item message; status := Some sending |} s = true) ->
   reconcile getTime live (addOptimisticMessage message optimistic) = kept).
Proof.
  cbv zeta.
  assert (Hguard : forall l o : list Shown,
             reconcile getTime l o = unconfirmed getTime l o).
  { intros l o. unfold reconcile, unconfirmed.
    destruct l as [|s l]; simpl.
    - induction o as [|x o IH]; simpl; [reflexivity | now rewrite <- IH].
    - now destruct o. }
  assert (Hin : forall o, In o (unconfirmed getTime live optimistic) <->
                  In o optimistic /\
                  forall s, In s live -> confirms getTime o s = false).
  { intros o. unfold unconfirmed. rewrite filter_In, negb_true_iff.
    split; intros [Ho Hn]; (split; [exact Ho|]).
    - intros s Hs. destruct (confirms getTime o s) eqn:E; [|reflexivity].
      assert (existsb (confirms getTime o) live = true)
        by (apply existsb_exists; now exists s).
      congruence.
    - destruct (existsb (confirms getTime o) live) eqn:E; [|reflexivity].
      apply existsb_exists in E. destruct E as (s & Hs & Hc).
      rewrite (Hn s Hs) in Hc. discriminate. }
  rewrite !Hguard.
  split; [reflexivity|]. split; [exact Hin|].
  split; [apply confirms_requires|].
  split.
  { intros o Ho Hkind. apply Hin. split; [exact Ho|].
    intros s Hs. destruct (confirms getTime o s) eqn:E; [|reflexivity].
    destruct (confirms_requires getTime o s E)
      as ([(f & t & c & i & m & f' & c' & i' & m' & Eo & _)
          |(f & u & n & ty & c & i & f' & u' & ty' & c' & i' & Eo & _)]
          & x & y & Hx & _);
      destruct Hkind as [(? & ? & ? & ? & ? & ? & Ea) | Hnone];
      congruence. }
  split; [apply filter_idempotent|].
  split; [apply filter_length_le|].
  intros (s & Hs & Hc). unfold unconfirmed, addOptimisticMessage.
  rewrite filter_app. simpl.
  assert (E : existsb
                (confirms getTime
                   {| item := item message; status := Some sending |}) live
              = true) by (apply existsb_exists; now exists s).
  rewrite E. simpl. apply app_nil_r.
Qed.

(** A text typed at second 0, the same text confirmed at second 3, and at
    second 9. *)
Lemma reconciliation_removes_confirmed_items_only_witness :
  let typed := {| item := TextItem (Some "user") (Some "hi") (Some "0")
                            (Some "temp-1") None;
                  status := Some sending |} in
  let at_ t := {| item := TextItem (Some "user") (Some "hi") (Some t)
                            (Some "m1") None;
                  status := Some delivered |} in
  reconcile seconds [at_ "3"] (addOptimisticMessage typed []) = [] /\
  reconcile seconds [at_ "9"] (addOptimisticMessage typed []) = [typed].
Proof.
  cbv zeta.
  pose proof (reconciliation_removes_confirmed_items_only seconds
                [{| item := TextItem (Some "user") (Some "hi") (Some "3")
                              (Some "m1") None;
                    status := Some delivered |}] []
                {| item := TextItem (Some "user") (Some "hi") (Some "0")
                             (Some "temp-1") None;
                   status := Some sending |})
    as (_ & _ & _ & _ & _ & _ & Hgone).
  split; [|reflexivity].
  rewrite Hgone; [reflexivity|].
  eexists. split; [now left | reflexivity].
Defined.

End UserPageFacts.
